(** * MCP filesystem server (mcp-fs-http/server.ts): path guard, tool
    handlers and session registry.

    The development follows the layout of [server.ts]:
    - JavaScript strings and the string methods the server calls;
    - Node's [path] module, as an interface, with its POSIX implementation;
    - [safePath], the path guard;
    - Node's [fs/promises] calls over a tree of files and directories;
    - the tool handlers registered by [createMcpServer];
    - the session registry behind the [/mcp] and [/admin/clear-sessions]
      routes. *)

From Stdlib Require Import ZArith NArith Ascii String List Lia.
From Stdlib Require Import DecimalString.
From stdpp Require Import base decidable option list gmap.

Local Open Scope N_scope.

(** ** JavaScript strings

    A JavaScript string is a sequence of UTF-16 code units. *)

Abbreviation jsstring := (list N).

(** Literals: the code units of an ASCII literal of the source. *)
Definition str (s : string) : jsstring :=
  map N_of_ascii (list_ascii_of_string s).

(** [String.prototype.trim] strips WhiteSpace and LineTerminator code units
    (ECMA-262, 22.1.3.32) from both ends. *)
Definition isWhiteSpace (c : N) : bool :=
  ((9 <=? c) && (c <=? 13)) || (c =? 32) || (c =? 160) || (c =? 5760)
  || ((8192 <=? c) && (c <=? 8202)) || (c =? 8232) || (c =? 8233)
  || (c =? 8239) || (c =? 8287) || (c =? 12288) || (c =? 65279).

Fixpoint trimStart (s : jsstring) : jsstring :=
  match s with
  | [] => []
  | c :: s' => if isWhiteSpace c then trimStart s' else s
  end.

Definition trimEnd (s : jsstring) : jsstring := rev (trimStart (rev s)).

Definition trim (s : jsstring) : jsstring := trimEnd (trimStart s).

(** [s.startsWith(p)]. *)
Fixpoint startsWith (s p : jsstring) {struct p} : bool :=
  match p, s with
  | [], _ => true
  | _ :: _, [] => false
  | c :: p', d :: s' => (c =? d) && startsWith s' p'
  end.

(** Template literals render a number with [Number.prototype.toString];
    the numbers rendered by the server are lengths. *)
Definition numberToString (n : N) : jsstring :=
  str (NilZero.string_of_uint (N.to_uint n)).

(** ** Node's [path] module

    [server.ts] uses [path.sep], [path.isAbsolute], [path.resolve],
    [path.normalize] and [path.dirname]; which implementation is behind
    them depends on the platform. *)

Class PathModule := {
  sep : jsstring;
  isAbsolute : jsstring -> bool;
  resolve : list jsstring -> jsstring;
  normalize : jsstring -> jsstring;
  dirname : jsstring -> jsstring
}.

(** *** [path.posix]

    After Node's [lib/path.js].  [normalizeString] is given on the segments
    between separators: the source scans the characters and keeps, for every
    segment, exactly the cases below (an empty segment or ["."] is dropped,
    [".."] removes the last kept segment unless there is none or it is
    [".."] itself, in which case [".."] is kept only when [allowAboveRoot]). *)
Module posix.

Definition CHAR_FORWARD_SLASH : N := 47.
Definition CHAR_DOT : N := 46.

Definition isPosixPathSeparator (c : N) : bool := c =? CHAR_FORWARD_SLASH.

Definition dot : jsstring := [CHAR_DOT].
Definition dotdot : jsstring := [CHAR_DOT; CHAR_DOT].

(** The segments of a path: the pieces between separators. *)
Fixpoint split (s : jsstring) : list jsstring :=
  match s with
  | [] => [[]]
  | c :: s' =>
      if isPosixPathSeparator c then [] :: split s'
      else match split s' with
           | seg :: segs => (c :: seg) :: segs
           | [] => [[c]]
           end
  end.

Fixpoint join (segs : list jsstring) : jsstring :=
  match segs with
  | [] => []
  | [s] => s
  | s :: rest => s ++ CHAR_FORWARD_SLASH :: join rest
  end.

(** One segment of [normalizeString]; [res] is the result so far, last
    segment first. *)
Definition normalizeStep (allowAboveRoot : bool)
    (res : list jsstring) (seg : jsstring) : list jsstring :=
  if decide (seg = []) then res
  else if decide (seg = dot) then res
  else if decide (seg = dotdot) then
    match res with
    | [] => if allowAboveRoot then [dotdot] else []
    | top :: rest =>
        if decide (top = dotdot)
        then (if allowAboveRoot then dotdot :: res else res)
        else rest
    end
  else seg :: res.

Definition normalizeSegments (allowAboveRoot : bool)
    (segs : list jsstring) : list jsstring :=
  rev (fold_left (normalizeStep allowAboveRoot) segs []).

Definition normalizeString (path : jsstring) (allowAboveRoot : bool)
    : jsstring :=
  join (normalizeSegments allowAboveRoot (split path)).

Definition isAbsolute (path : jsstring) : bool :=
  match path with
  | c :: _ => c =? CHAR_FORWARD_SLASH
  | [] => false
  end.

(** The loop of [resolve], from the last argument to the first and then
    [process.cwd()]: empty arguments are skipped, and the loop stops at
    the first absolute one. *)
Fixpoint resolveLoop (paths : list jsstring) (resolvedPath : jsstring)
    : jsstring * bool :=
  match paths with
  | [] => (resolvedPath, false)
  | path :: rest =>
      if decide (path = []) then resolveLoop rest resolvedPath
      else
        let resolvedPath := path ++ CHAR_FORWARD_SLASH :: resolvedPath in
        if isAbsolute path then (resolvedPath, true)
        else resolveLoop rest resolvedPath
  end.

Definition resolve (cwd : jsstring) (args : list jsstring) : jsstring :=
  let '(resolvedPath, resolvedAbsolute) :=
    resolveLoop (rev args ++ [cwd]) [] in
  let resolvedPath := normalizeString resolvedPath (negb resolvedAbsolute) in
  if resolvedAbsolute then CHAR_FORWARD_SLASH :: resolvedPath
  else if decide (resolvedPath = []) then dot else resolvedPath.

Definition normalize (path : jsstring) : jsstring :=
  if decide (path = []) then dot
  else
    let isAbs := isAbsolute path in
    let trailingSeparator :=
      match last path with
      | Some c => c =? CHAR_FORWARD_SLASH
      | None => false
      end in
    let path := normalizeString path (negb isAbs) in
    if decide (path = []) then
      (if isAbs then [CHAR_FORWARD_SLASH]
       else if trailingSeparator then dot ++ [CHAR_FORWARD_SLASH] else dot)
    else
      let path :=
        if trailingSeparator then path ++ [CHAR_FORWARD_SLASH] else path in
      if isAbs then CHAR_FORWARD_SLASH :: path else path.

(** [dirname]: scan from the end down to index 1, skip trailing
    separators, and cut at the first separator found after a
    non-separator.  [scanDirname body matchedSlash] scans [body], the
    characters from index 1 on in reverse order, and returns the number of
    characters of [body] left of [end]. *)
Fixpoint scanDirname (revBody : jsstring) (matchedSlash : bool)
    : option nat :=
  match revBody with
  | [] => None
  | c :: rest =>
      if c =? CHAR_FORWARD_SLASH then
        (if matchedSlash then scanDirname rest true
         else Some (length rest))
      else scanDirname rest false
  end.

Definition dirname (path : jsstring) : jsstring :=
  match path with
  | [] => dot
  | c :: body =>
      let hasRoot := c =? CHAR_FORWARD_SLASH in
      match scanDirname (rev body) true with
      | None => if hasRoot then [CHAR_FORWARD_SLASH] else dot
      | Some k =>
          (* [end] is [k + 1] *)
          if hasRoot && (k =? 0)%nat
          then [CHAR_FORWARD_SLASH; CHAR_FORWARD_SLASH]
          else c :: take k body
      end
  end.

(** The entry a path names for the operating system: the names left
    after the walk from the root (or from the working directory, for a
    relative path). *)
Definition pathKey (cwd path : jsstring) : list jsstring :=
  normalizeSegments false
    (split (if isAbsolute path then path
            else cwd ++ CHAR_FORWARD_SLASH :: path)).

(** Vocabulary for the paths [resolve] returns: a segment without
    separator, a segment that [normalizeString] keeps as it is, and a
    separator followed by such segments. *)
Definition sepFree (seg : jsstring) : Prop := CHAR_FORWARD_SLASH ∉ seg.

Definition clean (seg : jsstring) : Prop :=
  seg <> [] /\ seg <> dot /\ seg <> dotdot /\ sepFree seg.

Definition resolved (p : jsstring) : Prop :=
  exists cs, Forall clean cs /\ p = CHAR_FORWARD_SLASH :: join cs.

End posix.

(** The POSIX implementation, for a process whose working directory is
    [cwd]. *)
Definition posixPath (cwd : jsstring) : PathModule := {|
  sep := [posix.CHAR_FORWARD_SLASH];
  isAbsolute := posix.isAbsolute;
  resolve := posix.resolve cwd;
  normalize := posix.normalize;
  dirname := posix.dirname
|}.

(** ** Buffers and UTF-8

    [fs.writeFile(p, s, "utf8")] stores the UTF-8 encoding of [s], and
    [buf.toString("utf8")] decodes bytes, replacing every ill-formed
    sequence by U+FFFD.  Bytes are numbers below 256. *)

Abbreviation buffer := (list N).

Definition isHighSurrogate (u : N) : bool := (55296 <=? u) && (u <=? 56319).
Definition isLowSurrogate (u : N) : bool := (56320 <=? u) && (u <=? 57343).

Definition encodeCodePoint (cp : N) : buffer :=
  if cp <? 128 then [cp]
  else if cp <? 2048 then [192 + cp / 64; 128 + cp mod 64]
  else if cp <? 65536 then
    [224 + cp / 4096; 128 + (cp / 64) mod 64; 128 + cp mod 64]
  else
    [240 + cp / 262144; 128 + (cp / 4096) mod 64;
     128 + (cp / 64) mod 64; 128 + cp mod 64].

Definition REPLACEMENT : N := 65533.

Fixpoint utf8Encode (s : jsstring) : buffer :=
  match s with
  | [] => []
  | u :: s' =>
      if isHighSurrogate u then
        match s' with
        | v :: s'' =>
            if isLowSurrogate v
            then encodeCodePoint (65536 + (u - 55296) * 1024 + (v - 56320))
                   ++ utf8Encode s''
            else encodeCodePoint REPLACEMENT ++ utf8Encode s'
        | [] => encodeCodePoint REPLACEMENT
        end
      else if isLowSurrogate u then encodeCodePoint REPLACEMENT ++ utf8Encode s'
      else encodeCodePoint u ++ utf8Encode s'
  end.

(** The decoder's state while inside a multi-byte sequence: continuation
    bytes still needed, the code point so far, and the range allowed for
    the next byte. *)
Record pending := {
  bytesNeeded : nat;
  codePoint : N;
  lowerBoundary : N;
  upperBoundary : N
}.

Definition codeUnits (cp : N) : jsstring :=
  if cp <? 65536 then [cp]
  else [55296 + (cp - 65536) / 1024; 56320 + (cp - 65536) mod 1024].

(** A byte read outside any sequence. *)
Definition decodeLead (b : N) : jsstring * option pending :=
  if b <? 128 then ([b], None)
  else if (194 <=? b) && (b <=? 223) then
    ([], Some {| bytesNeeded := 1; codePoint := b mod 32;
                 lowerBoundary := 128; upperBoundary := 191 |})
  else if (224 <=? b) && (b <=? 239) then
    ([], Some {| bytesNeeded := 2; codePoint := b mod 16;
                 lowerBoundary := if b =? 224 then 160 else 128;
                 upperBoundary := if b =? 237 then 159 else 191 |})
  else if (240 <=? b) && (b <=? 244) then
    ([], Some {| bytesNeeded := 3; codePoint := b mod 8;
                 lowerBoundary := if b =? 240 then 144 else 128;
                 upperBoundary := if b =? 244 then 143 else 191 |})
  else ([REPLACEMENT], None).

Fixpoint utf8DecodeFrom (st : option pending) (bytes : buffer) : jsstring :=
  match bytes with
  | [] => match st with Some _ => [REPLACEMENT] | None => [] end
  | b :: rest =>
      match st with
      | None =>
          let '(out, st') := decodeLead b in out ++ utf8DecodeFrom st' rest
      | Some p =>
          if (lowerBoundary p <=? b) && (b <=? upperBoundary p) then
            let cp := codePoint p * 64 + b mod 64 in
            match bytesNeeded p with
            | S (S n) =>
                utf8DecodeFrom
                  (Some {| bytesNeeded := S n; codePoint := cp;
                           lowerBoundary := 128; upperBoundary := 191 |}) rest
            | _ => codeUnits cp ++ utf8DecodeFrom None rest
            end
          else
            let '(out, st') := decodeLead b in
            REPLACEMENT :: out ++ utf8DecodeFrom st' rest
      end
  end.

Definition utf8Decode (bytes : buffer) : jsstring := utf8DecodeFrom None bytes.

(** [buf.subarray(0, end)]: a negative [end] counts from the end of the
    buffer, and the result is clamped to the buffer. *)
Definition subarray0 (buf : buffer) (e : Z) : buffer :=
  let len := Z.of_nat (length buf) in
  let e := if (e <? 0)%Z then Z.max (len + e) 0 else Z.min e len in
  take (Z.to_nat e) buf.

(** ** Exceptions and results

    A handler either returns or throws; what it throws is an [Error] built by
    the server or the error of a failed [fs] call. *)

Inductive errno := ENOENT | ENOTDIR | EISDIR | EEXIST.

Inductive exn :=
  | JsError (message : jsstring)
  | FsError (code : errno) (path : jsstring).

Inductive result (A : Type) :=
  | Ok (value : A)
  | Throw (e : exn).
Arguments Ok {A} value.
Arguments Throw {A} e.

#[global] Instance errno_eq_dec : EqDecision errno.
Proof. solve_decision. Defined.
#[global] Instance exn_eq_dec : EqDecision exn.
Proof. solve_decision. Defined.

(** ** The file tree behind [fs/promises]

    A directory entry is a file with its bytes or a directory; entries are
    addressed by the chain of names from the root of the file system, which
    is a directory and is not stored.

    The tree has plain files and directories only: no links, no
    permissions, no limit on the length of a name or on space.  A call on
    the tree fails for what the tree shows (a missing entry, a file where a
    directory is needed, a directory where a file is needed); the operating
    system can refuse a call for more reasons, such as a name that is too
    long.  The properties of writes below are therefore stated for calls
    that return. *)

Inductive node :=
  | File (data : buffer)
  | Dir.

Abbreviation tree := (gmap (list jsstring) node).

Inductive stats := IsFile | IsDirectory.

Definition nodeAt (fs : tree) (k : list jsstring) : option node :=
  if decide (k = []) then Some Dir else fs !! k.

(** Why a path cannot be used as the place of an entry: its parent is
    missing or is a file. *)
Definition parentError (fs : tree) (k : list jsstring) : option errno :=
  match nodeAt fs (removelast k) with
  | Some Dir => None
  | Some (File _) => Some ENOTDIR
  | None => Some ENOENT
  end.

Definition statNode (fs : tree) (k : list jsstring) : errno + stats :=
  match parentError fs k, nodeAt fs k with
  | Some e, _ => inl e
  | None, Some (File _) => inr IsFile
  | None, Some Dir => inr IsDirectory
  | None, None => inl ENOENT
  end.

Definition readNode (fs : tree) (k : list jsstring) : errno + buffer :=
  match parentError fs k, nodeAt fs k with
  | Some e, _ => inl e
  | None, Some (File d) => inr d
  | None, Some Dir => inl EISDIR
  | None, None => inl ENOENT
  end.

(** [writeFile] replaces the bytes, [appendFile] adds to them; both create
    the file when it is missing and its parent is a directory. *)
Definition writeNode (append : bool) (fs : tree) (k : list jsstring)
    (data : buffer) : errno + tree :=
  match parentError fs k, nodeAt fs k with
  | Some e, _ => inl e
  | None, Some Dir => inl EISDIR
  | None, Some (File old) =>
      inr (<[k := File (if append then old ++ data else data)]> fs)
  | None, None => inr (<[k := File data]> fs)
  end.

(** [mkdir(p, { recursive: true })]: every missing directory on the way is
    created; a file on the way is an error. *)
Fixpoint mkdirFrom (pre rest : list jsstring) (fs : tree) : errno + tree :=
  match rest with
  | [] => inr fs
  | name :: rest' =>
      let d := pre ++ [name] in
      match nodeAt fs d with
      | Some Dir => mkdirFrom d rest' fs
      | Some (File _) =>
          inl (match rest' with [] => EEXIST | _ => ENOTDIR end)
      | None => mkdirFrom d rest' (<[d := Dir]> fs)
      end
  end.

Definition mkdirRecursive (fs : tree) (k : list jsstring) : errno + tree :=
  mkdirFrom [] k fs.

(** [unlink] removes a file. *)
Definition unlinkNode (fs : tree) (k : list jsstring) : errno + tree :=
  match parentError fs k, nodeAt fs k with
  | Some e, _ => inl e
  | None, Some (File _) => inr (delete k fs)
  | None, Some Dir => inl EISDIR
  | None, None => inl ENOENT
  end.

(** [rm(p, { recursive: true, force: true })] removes the entry and all
    below it, and succeeds when there is nothing to remove. *)
Definition rmRecursive (fs : tree) (k : list jsstring) : tree :=
  filter (fun kv => ~ k `prefix_of` kv.1) fs.

(** The bytes of the file an entry holds (none when there is no file). *)
Definition bytesAt (fs : tree) (k : list jsstring) : buffer :=
  match fs !! k with
  | Some (File d) => d
  | _ => []
  end.

(** ** The world of a handler

    The file tree, the [fs] calls made so far (latest first) and the lines
    written by [console.log] (latest first). *)

Inductive fscall :=
  | CallStat (path : jsstring)
  | CallReadFile (path : jsstring)
  | CallWriteFile (path : jsstring) (data : jsstring)
  | CallAppendFile (path : jsstring) (data : jsstring)
  | CallMkdir (path : jsstring)
  | CallRm (path : jsstring)
  | CallUnlink (path : jsstring).

Record world := {
  files : tree;
  calls : list fscall;
  console : list jsstring
}.

Definition M (A : Type) : Type := world -> result A * world.

Definition ret {A : Type} (a : A) : M A := fun w => (Ok a, w).

Definition throw {A : Type} (e : exn) : M A := fun w => (Throw e, w).

Definition bind {A B : Type} (m : M A) (k : A -> M B) : M B :=
  fun w =>
    match m w with
    | (Ok a, w') => k a w'
    | (Throw e, w') => (Throw e, w')
    end.

Notation "'let*' x ':=' m 'in' k" := (bind m (fun x => k))
  (at level 10, x name, m at level 100, k at level 200).
Notation "m ';;' k" := (bind m (fun _ => k))
  (at level 100, k at level 200, right associativity).

(** Lift a pure result over exceptions. *)
Definition liftResult {A : Type} (r : result A) : M A := fun w => (r, w).

Definition consoleLog (line : jsstring) : M unit :=
  fun w => (Ok tt, {| files := files w; calls := calls w;
                      console := line :: console w |}).

(** An [fs] call: recorded, then run on the tree. *)
Definition fsCall {A : Type} (c : fscall) (path : jsstring)
    (run : tree -> errno + (A * tree)) : M A :=
  fun w =>
    let w' := {| files := files w; calls := c :: calls w;
                 console := console w |} in
    match run (files w) with
    | inl e => (Throw (FsError e path), w')
    | inr (a, fs') =>
        (Ok a, {| files := fs'; calls := calls w'; console := console w' |})
    end.

Definition keepTree {A : Type} (fs : tree) (r : errno + A) : errno + (A * tree) :=
  match r with inl e => inl e | inr a => inr (a, fs) end.

Definition newTree (r : errno + tree) : errno + (unit * tree) :=
  match r with inl e => inl e | inr fs => inr (tt, fs) end.

(** ** Tool arguments and results *)

Record pathArgs := { path : option jsstring }.

Record readArgs := {
  read_path : option jsstring;
  maxBytes : option Z
}.

Record writeArgs := {
  write_path : option jsstring;
  content : option jsstring
}.

(** [{ content: [{ type: "text", text }] }]. *)
Inductive toolResult := TextContent (text : jsstring).

Definition dquote : jsstring := [34].
Definition arrow : jsstring := [8594].

(** [`${x}`] for a string that may be [undefined]. *)
Definition template (x : option jsstring) : jsstring :=
  default (str "undefined") x.

(** [x?.length ?? 0]. *)
Definition lengthOrZero (x : option jsstring) : N :=
  match x with
  | Some s => N.of_nat (length s)
  | None => 0
  end.

Section Server.

Context {P : PathModule}.

(** [allowedBaseAbs], fixed when the process starts. *)
Variable allowedBaseAbs : jsstring.

(** The entry of the file system that a path names. *)
Variable pathKey : jsstring -> list jsstring.

(** *** The path guard *)

(** [const allowedBaseAbs = path.resolve(ALLOWED_BASE)] *)
Definition resolveBase (ALLOWED_BASE : jsstring) : jsstring :=
  resolve [ALLOWED_BASE].

Definition safePath (raw : option jsstring) : result jsstring :=
  let trimmed := trim (default [] raw) in
  if bool_decide (trimmed = []) || bool_decide (trimmed = str ".")
  then Ok allowedBaseAbs
  else
    let abs :=
      if isAbsolute trimmed then resolve [trimmed]
      else resolve [allowedBaseAbs; trimmed] in
    let normAbs := normalize abs in
    let normBase := normalize allowedBaseAbs in
    if negb (startsWith normAbs (normBase ++ sep))
       && negb (bool_decide (normAbs = normBase))
    then Throw (JsError (str "Path not allowed: " ++ normAbs
                         ++ str " (allowed base: " ++ normBase ++ str ")"))
    else Ok normAbs.

(** The requested path as the guard reads it: empty or ["."] is the
    root, an absolute path is taken as it is, a relative one is joined to
    the root; the outcome is normalized. *)
Definition candidate (raw : option jsstring) : jsstring :=
  let trimmed := trim (default [] raw) in
  if bool_decide (trimmed = []) || bool_decide (trimmed = str ".")
  then allowedBaseAbs
  else normalize (if isAbsolute trimmed then resolve [trimmed]
                  else resolve [allowedBaseAbs; trimmed]).

(** Containment, on strings: the root itself, or the root, a separator and
    anything. *)
Definition contained (p : jsstring) : Prop :=
  p = allowedBaseAbs \/ exists suffix, p = allowedBaseAbs ++ sep ++ suffix.

Definition notAllowed (normAbs : jsstring) : exn :=
  JsError (str "Path not allowed: " ++ normAbs
           ++ str " (allowed base: " ++ normalize allowedBaseAbs ++ str ")").

(** The form of a contained path relative to the root: empty for the root,
    and what follows the root and the separator otherwise. *)
Definition relativeToRoot (p : jsstring) : jsstring :=
  if bool_decide (p = allowedBaseAbs) then []
  else drop (length allowedBaseAbs + length sep) p.

(** *** [fs/promises] *)

Definition fsStat (p : jsstring) : M stats :=
  fsCall (CallStat p) p (fun fs => keepTree fs (statNode fs (pathKey p))).

Definition fsReadFile (p : jsstring) : M buffer :=
  fsCall (CallReadFile p) p (fun fs => keepTree fs (readNode fs (pathKey p))).

Definition fsWriteFile (p data : jsstring) : M unit :=
  fsCall (CallWriteFile p data) p
    (fun fs => newTree (writeNode false fs (pathKey p) (utf8Encode data))).

Definition fsAppendFile (p data : jsstring) : M unit :=
  fsCall (CallAppendFile p data) p
    (fun fs => newTree (writeNode true fs (pathKey p) (utf8Encode data))).

Definition fsMkdir (p : jsstring) : M unit :=
  fsCall (CallMkdir p) p (fun fs => newTree (mkdirRecursive fs (pathKey p))).

Definition fsRm (p : jsstring) : M unit :=
  fsCall (CallRm p) p (fun fs => inr (tt, rmRecursive fs (pathKey p))).

Definition fsUnlink (p : jsstring) : M unit :=
  fsCall (CallUnlink p) p (fun fs => newTree (unlinkNode fs (pathKey p))).

(** *** The tool handlers of [createMcpServer] *)

Definition DEFAULT_LIMIT : Z := 1024 * 1024.

(** The first [limit] bytes of a buffer. *)
Definition firstBytes (limit : Z) (buf : buffer) : buffer :=
  take (Z.to_nat (Z.min (Z.of_nat (length buf)) limit)) buf.

Definition readText (buf : buffer) (limit : Z) : jsstring :=
  let sliced := subarray0 buf (Z.min (Z.of_nat (length buf)) limit) in
  utf8Decode sliced.

Definition fs_read (args : readArgs) : M toolResult :=
  let* abs := liftResult (safePath (read_path args)) in
  consoleLog (str "  [fs_read] path=" ++ dquote ++ template (read_path args)
              ++ dquote ++ str " " ++ arrow ++ str " " ++ abs) ;;
  let* st := fsStat abs in
  match st with
  | IsFile =>
      let limit := default DEFAULT_LIMIT (maxBytes args) in
      let* buf := fsReadFile abs in
      let text := readText buf limit in
      consoleLog (str "  [fs_read] " ++ arrow ++ str " "
                  ++ numberToString (N.of_nat (length text)) ++ str " chars") ;;
      ret (TextContent text)
  | _ => throw (JsError (str "Not a file: " ++ abs))
  end.

Definition read_file (args : readArgs) : M toolResult :=
  let* abs := liftResult (safePath (read_path args)) in
  let* st := fsStat abs in
  match st with
  | IsFile =>
      let limit := default DEFAULT_LIMIT (maxBytes args) in
      let* buf := fsReadFile abs in
      ret (TextContent (readText buf limit))
  | _ => throw (JsError (str "Not a file: " ++ abs))
  end.

Definition writtenMessage (args : writeArgs) (abs : jsstring) : jsstring :=
  str "Written " ++ numberToString (lengthOrZero (content args))
  ++ str " chars to " ++ abs.

Definition fs_write (args : writeArgs) : M toolResult :=
  let* abs := liftResult (safePath (write_path args)) in
  consoleLog (str "  [fs_write] path=" ++ dquote ++ template (write_path args)
              ++ dquote ++ str " " ++ arrow ++ str " " ++ abs ++ str " ("
              ++ numberToString (lengthOrZero (content args))
              ++ str " chars)") ;;
  fsMkdir (dirname abs) ;;
  fsWriteFile abs (default [] (content args)) ;;
  ret (TextContent (writtenMessage args abs)).

Definition write_file (args : writeArgs) : M toolResult :=
  let* abs := liftResult (safePath (write_path args)) in
  fsMkdir (dirname abs) ;;
  fsWriteFile abs (default [] (content args)) ;;
  ret (TextContent (writtenMessage args abs)).

Definition fs_append (args : writeArgs) : M toolResult :=
  let* abs := liftResult (safePath (write_path args)) in
  consoleLog (str "  [fs_append] path=" ++ dquote
              ++ template (write_path args) ++ dquote ++ str " " ++ arrow
              ++ str " " ++ abs) ;;
  fsMkdir (dirname abs) ;;
  fsAppendFile abs (default [] (content args)) ;;
  ret (TextContent (str "Appended "
                    ++ numberToString (lengthOrZero (content args))
                    ++ str " chars to " ++ abs)).

Definition fs_mkdir (args : pathArgs) : M toolResult :=
  let* abs := liftResult (safePath (path args)) in
  consoleLog (str "  [fs_mkdir] path=" ++ dquote ++ template (path args)
              ++ dquote ++ str " " ++ arrow ++ str " " ++ abs) ;;
  fsMkdir abs ;;
  ret (TextContent (str "Directory created: " ++ abs)).

Definition fs_delete (args : pathArgs) : M toolResult :=
  let* abs := liftResult (safePath (path args)) in
  consoleLog (str "  [fs_delete] path=" ++ dquote ++ template (path args)
              ++ dquote ++ str " " ++ arrow ++ str " " ++ abs) ;;
  if bool_decide (abs = allowedBaseAbs) then
    throw (JsError
             (str "Cannot delete ALLOWED_BASE root directory itself."))
  else
    let* st := fsStat abs in
    match st with
    | IsDirectory => fsRm abs
    | _ => fsUnlink abs
    end ;;
    ret (TextContent (str "Deleted: " ++ abs)).

End Server.

(** ** The server on POSIX

    The guard and the handlers of a process started in the working directory
    [cwd] with [ALLOWED_BASE] in its environment. *)
Module onPosix.
Section Process.

Variables cwd ALLOWED_BASE : jsstring.

Definition allowedBaseAbs : jsstring :=
  @resolveBase (posixPath cwd) ALLOWED_BASE.

Definition pathKey : jsstring -> list jsstring := posix.pathKey cwd.

Definition safePath : option jsstring -> result jsstring :=
  @safePath (posixPath cwd) allowedBaseAbs.

Definition candidate : option jsstring -> jsstring :=
  @candidate (posixPath cwd) allowedBaseAbs.

Definition contained : jsstring -> Prop :=
  @contained (posixPath cwd) allowedBaseAbs.

Definition notAllowed : jsstring -> exn :=
  @notAllowed (posixPath cwd) allowedBaseAbs.

Definition relativeToRoot : jsstring -> jsstring :=
  @relativeToRoot (posixPath cwd) allowedBaseAbs.

Definition fs_read := @fs_read (posixPath cwd) allowedBaseAbs pathKey.
Definition read_file := @read_file (posixPath cwd) allowedBaseAbs pathKey.
Definition fs_write := @fs_write (posixPath cwd) allowedBaseAbs pathKey.
Definition write_file := @write_file (posixPath cwd) allowedBaseAbs pathKey.
Definition fs_append := @fs_append (posixPath cwd) allowedBaseAbs pathKey.
Definition fs_mkdir := @fs_mkdir (posixPath cwd) allowedBaseAbs pathKey.
Definition fs_delete := @fs_delete (posixPath cwd) allowedBaseAbs pathKey.

End Process.
End onPosix.

(** [throw new Error("Cannot delete ALLOWED_BASE root directory itself.")] *)
Definition forbiddenTarget : exn :=
  JsError (str "Cannot delete ALLOWED_BASE root directory itself.").

(** ** The session registry and the [/mcp] route *)

(** Request bodies, as parsed by [express.json]. *)
#[warnings="-register-all"]
Inductive json :=
  | JNull
  | JBool (b : bool)
  | JNumber (n : Z)
  | JString (s : jsstring)
  | JArray (items : list json)
  | JObject (fields : list (jsstring * json)).

Fixpoint getField (fields : list (jsstring * json)) (name : jsstring)
    : option json :=
  match fields with
  | [] => None
  | (k, v) :: rest =>
      if bool_decide (k = name) then Some v else getField rest name
  end.

(** [reqBody?.id ?? null]; a request without a body has [reqBody]
    undefined. *)
Definition idOrNull (reqBody : option json) : json :=
  match reqBody with
  | Some (JObject fields) => default JNull (getField fields (str "id"))
  | _ => JNull
  end.

Inductive httpMethod :=
  | GET
  | POST
  | DELETE
  | OtherMethod (name : jsstring).

Record request := {
  method : httpMethod;
  headerSid : option jsstring;     (* req.headers["mcp-session-id"] *)
  body : option json               (* req.body *)
}.

Inductive response :=
  (** [entry.transport.handleRequest(req, res, ...)]: the transport of the
      entry answers. *)
  | HandledBy (transport : nat)
  (** [res.status(code).json(value)] *)
  | Json (status : N) (value : json)
  (** [res.status(code).send(text)] *)
  | Send (status : N) (text : jsstring).

Inductive transportState := Open | Closed.

Record SessionEntry := {
  transport : nat;
  mcp : nat
}.

(** The [sessions] map, and the transports and servers created so far,
    numbered in the order of their creation. *)
Record server := {
  sessions : gmap jsstring SessionEntry;
  transports : gmap nat transportState;
  created : nat
}.

Definition initialServer : server :=
  {| sessions := ∅; transports := ∅; created := 0 |}.

Definition noSessionError (reqBody : option json) : json :=
  JObject [
    (str "jsonrpc", JString (str "2.0"));
    (str "error", JObject [
       (str "code", JNumber (-32000));
       (str "message",
        JString (str "Bad Request: no valid session. Send initialize first."))
     ]);
    (str "id", idOrNull reqBody)
  ].

(** The requests of a client: closing, posting a body, opening a stream. *)
Definition deleteRequest (sid : option jsstring) : request :=
  {| method := DELETE; headerSid := sid; body := None |}.

Definition postRequest (sid : option jsstring) (b : option json) : request :=
  {| method := POST; headerSid := sid; body := b |}.

Definition getRequest (sid : option jsstring) : request :=
  {| method := GET; headerSid := sid; body := None |}.

Definition initializeBody : json :=
  JObject [
    (str "jsonrpc", JString (str "2.0"));
    (str "id", JNumber 1);
    (str "method", JString (str "initialize"))
  ].

Definition callBody : json :=
  JObject [
    (str "jsonrpc", JString (str "2.0"));
    (str "id", JNumber 7);
    (str "method", JString (str "tools/call"))
  ].

(** The code of the JSON-RPC error carried by a body. *)
Definition errorCode (value : json) : option json :=
  match value with
  | JObject fields =>
      match getField fields (str "error") with
      | Some (JObject error) => getField error (str "code")
      | _ => None
      end
  | _ => None
  end.

(** A stand-in for [isInitializeRequest] in the examples: a JSON-RPC object
    whose method is ["initialize"]. *)
Definition methodIsInitialize (reqBody : option json) : bool :=
  match reqBody with
  | Some (JObject fields) =>
      match getField fields (str "method") with
      | Some (JString m) => bool_decide (m = str "initialize")
      | _ => false
      end
  | _ => false
  end.

Section Routes.

(** [isInitializeRequest] of the SDK. *)
Variable isInitializeRequest : option json -> bool.

(** [createSession]; [sessionId] is what [randomUUID()] returns. *)
Definition createSession (sessionId : jsstring) (s : server)
    : (jsstring * SessionEntry) * server :=
  let entry := {| transport := created s; mcp := created s |} in
  ((sessionId, entry),
   {| sessions := <[sessionId := entry]> (sessions s);
      transports := <[created s := Open]> (transports s);
      created := S (created s) |}).

(** [headerSid ? sessions.get(headerSid) : undefined] *)
Definition findEntry (s : server) (sid : option jsstring)
    : option SessionEntry :=
  match sid with
  | Some id => if bool_decide (id = []) then None else sessions s !! id
  | None => None
  end.

(** [transport.close()] *)
Definition closeTransport (t : nat) (s : server) : server :=
  {| sessions := sessions s;
     transports := <[t := Closed]> (transports s);
     created := created s |}.

(** [sessions.delete(sid)] *)
Definition deleteSession (sid : jsstring) (s : server) : server :=
  {| sessions := delete sid (sessions s);
     transports := transports s;
     created := created s |}.

(** [app.all("/mcp", ...)]; [uuid] is the value [randomUUID()] returns if
    the request calls it. *)
Definition mcpRoute (uuid : jsstring) (req : request) (s : server)
    : response * server :=
  let entry := findEntry s (headerSid req) in
  match method req with
  | GET =>
      match entry with
      | Some e => (HandledBy (transport e), s)
      | None =>
          let '((_, e), s') := createSession uuid s in
          (HandledBy (transport e), s')
      end
  | POST =>
      match entry with
      | Some e => (HandledBy (transport e), s)
      | None =>
          if negb (isInitializeRequest (body req)) then
            (Json 400 (noSessionError (body req)), s)
          else
            let '((_, e), s') := createSession uuid s in
            (HandledBy (transport e), s')
      end
  | DELETE =>
      match entry, headerSid req with
      | Some e, Some sid =>
          (Send 200 [], deleteSession sid (closeTransport (transport e) s))
      | _, _ => (Send 200 [], s)
      end
  | OtherMethod _ => (Send 405 (str "Method Not Allowed"), s)
  end.

(** [app.post("/admin/clear-sessions", ...)] *)
Definition clearSessions (s : server) : response * server :=
  (Send 200 (str "cleared"),
   {| sessions := ∅; transports := transports s; created := created s |}).

(** A run of the server: the requests it receives, in order. *)
Inductive event :=
  | Mcp (uuid : jsstring) (req : request)
  | AdminClear.

Definition step (s : server) (ev : event) : response * server :=
  match ev with
  | Mcp uuid req => mcpRoute uuid req s
  | AdminClear => clearSessions s
  end.

Definition run (evs : list event) (s : server) : server :=
  fold_left (fun s ev => (step s ev).2) evs s.

End Routes.

(** ** A sample process

    A process started in [/home/u] with [ALLOWED_BASE=/base], the worlds it
    may find, and a registry that has seen one initialization. *)
Module sample.

Definition cwd : jsstring := str "/home/u".
Definition ALLOWED_BASE : jsstring := str "/base".

Definition quiet (fs : tree) : world :=
  {| files := fs; calls := []; console := [] |}.

(** [/base] is an empty directory. *)
Definition emptyBase : world := quiet {[ [str "base"] := Dir ]}.

(** [/base] holds the file [f] with the one byte of ["x"]. *)
Definition baseWithFile : world :=
  quiet (<[ [str "base"; str "f"] := File (str "x") ]>
           {[ [str "base"] := Dir ]}).

(** The registry after the initialization that created the session
    ["A"]. *)
Definition oneSession : server :=
  run methodIsInitialize
    [Mcp (str "A") (postRequest None (Some initializeBody))]
    initialServer.

End sample.

(** ** Listing and copying

    [fs_list] and [fs_copy] make two [fs] calls the other tools do not make,
    [readdir] and [copyFile].  Their world records these calls beside the
    others; the actions above run in it as they are. *)

Inductive anyCall :=
  | Call (c : fscall)
  | CallReaddir (path : jsstring)
  | CallCopyFile (src dest : jsstring).

Record wideWorld := {
  wfiles : tree;
  wcalls : list anyCall;
  wconsole : list jsstring
}.

Definition W (A : Type) : Type := wideWorld -> result A * wideWorld.

Definition retW {A : Type} (a : A) : W A := fun w => (Ok a, w).

Definition throwW {A : Type} (e : exn) : W A := fun w => (Throw e, w).

Definition bindW {A B : Type} (m : W A) (k : A -> W B) : W B :=
  fun w =>
    match m w with
    | (Ok a, w') => k a w'
    | (Throw e, w') => (Throw e, w')
    end.

Notation "'let+' x ':=' m 'in' k" := (bindW m (fun x => k))
  (at level 10, x name, m at level 100, k at level 200).
Notation "m ';;;' k" := (bindW m (fun _ => k))
  (at level 100, k at level 200, right associativity).

(** An action of the narrower world: it sees the tree and the console, and
    the calls it makes are added to the record. *)
Definition lift {A : Type} (m : M A) : W A :=
  fun w =>
    let '(r, w') :=
      m {| files := wfiles w; calls := []; console := wconsole w |} in
    (r, {| wfiles := files w';
           wcalls := map Call (calls w') ++ wcalls w;
           wconsole := console w' |}).

Definition kindOf (n : node) : stats :=
  match n with
  | File _ => IsFile
  | Dir => IsDirectory
  end.

(** [readdir(p, { withFileTypes: true })]: the entries directly below a
    directory, each with its name and kind, in the order of the file
    system (here, the order of the map). *)
Definition childOf (k : list jsstring) (entry : list jsstring * node)
    : option (jsstring * stats) :=
  match last entry.1 with
  | Some name =>
      if decide (entry.1 = k ++ [name]) then Some (name, kindOf entry.2)
      else None
  | None => None
  end.

Definition readdirNode (fs : tree) (k : list jsstring)
    : errno + list (jsstring * stats) :=
  match parentError fs k, nodeAt fs k with
  | Some e, _ => inl e
  | None, Some Dir => inr (omap (childOf k) (map_to_list fs))
  | None, Some (File _) => inl ENOTDIR
  | None, None => inl ENOENT
  end.

(** [copyFile(src, dest)]: the bytes of the source file become the bytes
    of the destination, which is created or replaced. *)
Definition copyNode (fs : tree) (src dest : list jsstring) : errno + tree :=
  match readNode fs src with
  | inl e => inl e
  | inr d => writeNode false fs dest d
  end.

Definition recordCall (c : anyCall) (w : wideWorld) : wideWorld :=
  {| wfiles := wfiles w; wcalls := c :: wcalls w; wconsole := wconsole w |}.

(** [xs.join(sep)] *)
Fixpoint joinWith (sep : jsstring) (xs : list jsstring) : jsstring :=
  match xs with
  | [] => []
  | [x] => x
  | x :: rest => x ++ sep ++ joinWith sep rest
  end.

Record copyArgs := {
  srcPath : option jsstring;
  destPath : option jsstring
}.

(** [`${e.isDirectory() ? "DIR " : "FILE"}\t${e.name}`] *)
Definition direntLine (e : jsstring * stats) : jsstring :=
  (match e.2 with IsDirectory => str "DIR " | IsFile => str "FILE" end)
  ++ [9] ++ e.1.

Section ListAndCopy.

Context {P : PathModule}.
Variable allowedBaseAbs : jsstring.
Variable pathKey : jsstring -> list jsstring.

Definition fsReaddir (p : jsstring) : W (list (jsstring * stats)) :=
  fun w =>
    match readdirNode (wfiles w) (pathKey p) with
    | inl e => (Throw (FsError e p), recordCall (CallReaddir p) w)
    | inr entries => (Ok entries, recordCall (CallReaddir p) w)
    end.

Definition fsCopyFile (src dest : jsstring) : W unit :=
  fun w =>
    match copyNode (wfiles w) (pathKey src) (pathKey dest) with
    | inl e => (Throw (FsError e src), recordCall (CallCopyFile src dest) w)
    | inr fs' =>
        (Ok tt, {| wfiles := fs';
                   wcalls := CallCopyFile src dest :: wcalls w;
                   wconsole := wconsole w |})
    end.

Definition fs_list (args : pathArgs) : W toolResult :=
  let+ abs := lift (liftResult (safePath allowedBaseAbs (path args))) in
  lift (consoleLog (str "  [fs_list] path=" ++ dquote
                    ++ default (str "(root)") (path args) ++ dquote
                    ++ str " " ++ arrow ++ str " " ++ abs)) ;;;
  let+ st := lift (fsStat pathKey abs) in
  match st with
  | IsDirectory =>
      let+ entries := fsReaddir abs in
      let text := joinWith [10] (map direntLine entries) in
      lift (consoleLog (str "  [fs_list] " ++ arrow ++ str " "
                        ++ numberToString (N.of_nat (length entries))
                        ++ str " entries")) ;;;
      retW (TextContent text)
  | _ => throwW (JsError (str "Not a directory: " ++ abs))
  end.

Definition fs_copy (args : copyArgs) : W toolResult :=
  let+ absSrc := lift (liftResult (safePath allowedBaseAbs (srcPath args))) in
  let+ absDest := lift (liftResult (safePath allowedBaseAbs (destPath args))) in
  lift (consoleLog (str "  [fs_copy] " ++ dquote ++ absSrc ++ dquote
                    ++ str " " ++ arrow ++ str " " ++ dquote ++ absDest
                    ++ dquote)) ;;;
  let+ st := lift (fsStat pathKey absSrc) in
  match st with
  | IsFile =>
      lift (fsMkdir pathKey (dirname absDest)) ;;;
      fsCopyFile absSrc absDest ;;;
      retW (TextContent (str "Copied: " ++ absSrc ++ str " " ++ arrow
                         ++ str " " ++ absDest))
  | _ => throwW (JsError (str "Source is not a file: " ++ absSrc))
  end.

End ListAndCopy.

(** The two tools, and the reads that follow them, in a POSIX process. *)
Module posixTools.
Section Process.

Variables cwd ALLOWED_BASE : jsstring.

Definition fs_list :=
  @fs_list (posixPath cwd) (onPosix.allowedBaseAbs cwd ALLOWED_BASE)
    (onPosix.pathKey cwd).

Definition fs_copy :=
  @fs_copy (posixPath cwd) (onPosix.allowedBaseAbs cwd ALLOWED_BASE)
    (onPosix.pathKey cwd).

Definition fs_read (args : readArgs) : W toolResult :=
  lift (onPosix.fs_read cwd ALLOWED_BASE args).

End Process.
End posixTools.

(** ** The registry and its transports

    What the registry keeps true: every session in it has a transport that
    was created for it and is open, no two sessions share a transport, and
    every transport that exists was counted by [created]. *)
Definition registryInvariant (s : server) : Prop :=
  (forall sid e, sessions s !! sid = Some e ->
     (transport e < created s)%nat
     /\ transports s !! transport e = Some Open
     /\ mcp e = transport e)
  /\ (forall sid1 sid2 e1 e2,
        sessions s !! sid1 = Some e1 -> sessions s !! sid2 = Some e2 ->
        transport e1 = transport e2 -> sid1 = sid2)
  /\ (forall t st, transports s !! t = Some st -> (t < created s)%nat).

(** ** A tree as a file system holds it

    Every entry lies in a directory: the entry one name above it is a
    directory (the root of the file system is one). *)
Definition closedTree (fs : tree) : Prop :=
  forall k n, fs !! k = Some n -> nodeAt fs (removelast k) = Some Dir.

(** ** Well-formed text

    [s.isWellFormed()]: every high surrogate is followed by a low one and no
    low surrogate stands alone.  A code unit is a number below 65536. *)
Fixpoint isWellFormed (s : jsstring) : bool :=
  match s with
  | [] => true
  | u :: s' =>
      if isHighSurrogate u then
        match s' with
        | v :: s'' => isLowSurrogate v && isWellFormed s''
        | [] => false
        end
      else negb (isLowSurrogate u) && (u <? 65536) && isWellFormed s'
  end.

(** ** More of the sample process *)

Module sampleMore.

(** [/base] holds the file [f]; beside the root, [/etc/passwd] exists. *)
Definition withOutside : world :=
  sample.quiet
    (<[ [str "etc"; str "passwd"] := File (str "secret") ]>
       (files sample.baseWithFile)).

(** A world of [fs_list] and [fs_copy] with the tree of [w] and no call
    made yet. *)
Definition wide (w : world) : wideWorld :=
  {| wfiles := files w; wcalls := []; wconsole := [] |}.

(** The registry after two initializations, which created the sessions
    ["A"] and ["B"]. *)
Definition twoSessions : server :=
  run methodIsInitialize
    [Mcp (str "A") (postRequest None (Some initializeBody));
     Mcp (str "B") (postRequest None (Some initializeBody))]
    initialServer.

(** ["h"], U+00E9 and then U+1F600, which takes two code units. *)
Definition accented : jsstring := [104; 233; 55357; 56832].

End sampleMore.

(** * Properties *)

(** ** Strings *)

Lemma startsWith_spec (s p : jsstring) :
  startsWith s p = true <-> exists t, s = p ++ t.
Proof.
  revert s. induction p as [ |c p IH]; intros s; simpl.
  - split; [intros _; exists s; reflexivity | reflexivity].
  - destruct s as [ |d s].
    + split; [discriminate | intros [t Ht]; discriminate].
    + rewrite andb_true_iff, IH, N.eqb_eq. split.
      * intros [-> [t ->]]. exists t. reflexivity.
      * intros [t Ht]. injection Ht as -> ->. split; [reflexivity | eauto].
Qed.

(** ** [path.posix] *)

Module posix_facts.
Import posix.

Lemma isSep_true c : isPosixPathSeparator c = true <-> c = CHAR_FORWARD_SLASH.
Proof. unfold isPosixPathSeparator. apply N.eqb_eq. Qed.

Lemma split_nonempty s : split s <> [].
Proof.
  destruct s as [ |c s]; simpl; [discriminate| ].
  destruct (isPosixPathSeparator c); [discriminate| ].
  destruct (split s); discriminate.
Qed.

Lemma split_app_sep a b :
  split (a ++ CHAR_FORWARD_SLASH :: b) = split a ++ split b.
Proof.
  induction a as [ |c a IH]; simpl; [reflexivity| ].
  destruct (isPosixPathSeparator c).
  - rewrite IH. reflexivity.
  - rewrite IH. pose proof (split_nonempty a) as Hne.
    destruct (split a); [contradiction|reflexivity].
Qed.

Lemma split_sepFree s : sepFree s -> split s = [s].
Proof.
  unfold sepFree. induction s as [ |c s IH]; intros H; simpl; [reflexivity| ].
  destruct (isPosixPathSeparator c) eqn:E.
  - apply isSep_true in E. subst c. exfalso. apply H. left.
  - rewrite IH; [reflexivity| ]. intros Hin. apply H. right. exact Hin.
Qed.

Lemma split_Forall_sepFree s : Forall sepFree (split s).
Proof.
  induction s as [ |c s IH]; simpl.
  - constructor; [ |constructor]. unfold sepFree. apply not_elem_of_nil.
  - destruct (isPosixPathSeparator c) eqn:E.
    + constructor; [ |exact IH]. unfold sepFree. apply not_elem_of_nil.
    + destruct (split s) as [ |seg segs]; inversion IH; subst.
      * constructor; [ |constructor]. unfold sepFree.
        intros Hin. apply list_elem_of_singleton in Hin. subst c.
        discriminate E.
      * constructor; [ |assumption]. unfold sepFree in *.
        intros Hin. apply elem_of_cons in Hin as [Heq|Hin]; [ |auto].
        subst c. discriminate E.
Qed.

Lemma join_cons s rest :
  rest <> [] -> join (s :: rest) = s ++ CHAR_FORWARD_SLASH :: join rest.
Proof. destruct rest; [contradiction|reflexivity]. Qed.

Lemma join_app a b :
  a <> [] -> b <> [] ->
  join (a ++ b) = join a ++ CHAR_FORWARD_SLASH :: join b.
Proof.
  intros Ha Hb. induction a as [ |s a IH]; [contradiction| ].
  destruct a as [ |s' a].
  - simpl app. rewrite join_cons by assumption. reflexivity.
  - change ((s :: s' :: a) ++ b) with (s :: (s' :: a) ++ b).
    rewrite join_cons by discriminate.
    rewrite IH by discriminate.
    rewrite (join_cons s (s' :: a)) by discriminate.
    rewrite <- app_assoc. reflexivity.
Qed.

Lemma split_join cs :
  cs <> [] -> Forall sepFree cs -> split (join cs) = cs.
Proof.
  intros Hne H. induction H as [ |s cs Hs Hcs IH]; [contradiction| ].
  destruct cs as [ |s' cs].
  - simpl. apply split_sepFree. exact Hs.
  - rewrite join_cons by discriminate. rewrite split_app_sep.
    rewrite split_sepFree by exact Hs. rewrite IH by discriminate.
    reflexivity.
Qed.

Lemma join_split s : join (split s) = s.
Proof.
  induction s as [ |c s IH]; simpl; [reflexivity| ].
  destruct (isPosixPathSeparator c) eqn:E.
  - apply isSep_true in E. subst c.
    rewrite join_cons by apply split_nonempty. rewrite IH. reflexivity.
  - pose proof (split_nonempty s) as Hne.
    destruct (split s) as [ |seg segs]; [contradiction| ].
    destruct segs as [ |seg' segs].
    + simpl in *. congruence.
    + rewrite join_cons in * by discriminate.
      rewrite <- IH. reflexivity.
Qed.

(** *** [normalizeString] *)

Lemma normalizeStep_clean a res seg :
  clean seg -> normalizeStep a res seg = seg :: res.
Proof.
  intros (H1 & H2 & H3 & _). unfold normalizeStep.
  destruct (decide (seg = [])); [contradiction | ].
  destruct (decide (seg = dot)); [contradiction | ].
  destruct (decide (seg = dotdot)); [contradiction | ].
  reflexivity.
Qed.

Lemma normalizeStep_empty a res : normalizeStep a res [] = res.
Proof. reflexivity. Qed.

Lemma fold_clean a cs res :
  Forall clean cs -> fold_left (normalizeStep a) cs res = rev cs ++ res.
Proof.
  intros H. revert res. induction H as [ |s cs Hs Hcs IH]; intros res; simpl.
  - reflexivity.
  - rewrite normalizeStep_clean by exact Hs. rewrite IH.
    rewrite <- app_assoc. reflexivity.
Qed.

(** Without [allowAboveRoot], what is kept is clean. *)
Lemma normalizeStep_keeps_clean res seg :
  sepFree seg -> Forall clean res ->
  Forall clean (normalizeStep false res seg).
Proof.
  intros Hs Hres. unfold normalizeStep.
  destruct (decide (seg = [])); [exact Hres | ].
  destruct (decide (seg = dot)); [exact Hres | ].
  destruct (decide (seg = dotdot)).
  - destruct res as [ |top rest]; [constructor | ].
    destruct (decide (top = dotdot)); [exact Hres | ].
    inversion Hres; assumption.
  - constructor; [ | exact Hres]. repeat split; assumption.
Qed.

Lemma fold_keeps_clean segs res :
  Forall sepFree segs -> Forall clean res ->
  Forall clean (fold_left (normalizeStep false) segs res).
Proof.
  intros H. revert res. induction H as [ |s segs Hs Hsegs IH]; intros res Hres.
  - exact Hres.
  - simpl. apply IH. apply normalizeStep_keeps_clean; assumption.
Qed.

Lemma normalizeSegments_clean segs :
  Forall sepFree segs -> Forall clean (normalizeSegments false segs).
Proof.
  intros H. unfold normalizeSegments. apply Forall_rev.
  apply fold_keeps_clean; [exact H | constructor].
Qed.

Lemma normalizeSegments_of_clean a cs :
  Forall clean cs -> normalizeSegments a cs = cs.
Proof.
  intros H. unfold normalizeSegments. rewrite fold_clean by exact H.
  rewrite app_nil_r. apply rev_involutive.
Qed.

Lemma normalizeSegments_skip_first a segs :
  normalizeSegments a ([] :: segs) = normalizeSegments a segs.
Proof. reflexivity. Qed.

Lemma normalizeSegments_skip_last a segs :
  normalizeSegments a (segs ++ [[]]) = normalizeSegments a segs.
Proof.
  unfold normalizeSegments. rewrite fold_left_app. reflexivity.
Qed.

(** *** Resolved paths *)

Lemma clean_join_nonempty cs : Forall clean cs -> cs <> [] -> join cs <> [].
Proof.
  intros H Hne. destruct H as [ |s cs Hs Hcs]; [contradiction | ].
  destruct Hs as (Hs & _). destruct cs; simpl; [exact Hs | ].
  destruct s; [contradiction | discriminate].
Qed.

Lemma clean_sepFree cs : Forall clean cs -> Forall sepFree cs.
Proof.
  intros H. eapply Forall_impl; [exact H | ].
  intros s (_ & _ & _ & Hs). exact Hs.
Qed.

(** The segments of a resolved path are the empty segment before the
    leading separator and then its names. *)
Lemma split_resolved cs :
  Forall clean cs -> cs <> [] ->
  split (CHAR_FORWARD_SLASH :: join cs) = [] :: cs.
Proof.
  intros H Hne. change (split (CHAR_FORWARD_SLASH :: join cs))
    with ([] :: split (join cs)).
  rewrite split_join; [reflexivity | exact Hne | apply clean_sepFree, H].
Qed.

Lemma last_join cs :
  Forall clean cs -> cs <> [] -> last (join cs) <> Some CHAR_FORWARD_SLASH.
Proof.
  intros H Hne. induction H as [ |s cs Hs Hcs IH]; [contradiction | ].
  destruct cs as [ |s' cs].
  - simpl. destruct Hs as (Hs1 & _ & _ & Hs4).
    intros Hl. apply Hs4. apply last_Some in Hl as [l' ->].
    apply elem_of_app. right. left.
  - rewrite join_cons by discriminate.
    rewrite last_app. rewrite last_cons.
    specialize (IH ltac:(discriminate)).
    destruct (last (join (s' :: cs))) eqn:E; [exact IH | ].
    apply last_None in E. exfalso.
    apply (clean_join_nonempty (s' :: cs)); [exact Hcs | discriminate | exact E].
Qed.

Lemma normalizeString_resolved cs :
  Forall clean cs ->
  normalizeString (CHAR_FORWARD_SLASH :: join cs) false = join cs.
Proof.
  intros H. unfold normalizeString. destruct cs as [ |s cs].
  - reflexivity.
  - rewrite split_resolved by (exact H || discriminate).
    rewrite normalizeSegments_skip_first.
    rewrite normalizeSegments_of_clean by exact H. reflexivity.
Qed.

(** [normalize] leaves a resolved path as it is. *)
Lemma normalize_resolved p : resolved p -> normalize p = p.
Proof.
  intros (cs & H & ->). unfold normalize.
  destruct (decide (CHAR_FORWARD_SLASH :: join cs = [])); [discriminate | ].
  change (isAbsolute (CHAR_FORWARD_SLASH :: join cs)) with true.
  rewrite normalizeString_resolved by exact H. simpl negb.
  destruct cs as [ |s cs]; [reflexivity | ].
  destruct (decide (join (s :: cs) = [])) as [E | _].
  - exfalso. apply (clean_join_nonempty (s :: cs)); [exact H | discriminate | exact E].
  - rewrite last_cons.
    pose proof (last_join (s :: cs) H ltac:(discriminate)) as Hl.
    destruct (last (join (s :: cs))) as [c | ] eqn:E.
    + destruct (N.eqb_spec c CHAR_FORWARD_SLASH); [congruence | reflexivity].
    + apply last_None in E. exfalso.
      apply (clean_join_nonempty (s :: cs)); [exact H | discriminate | exact E].
Qed.

Lemma pathKey_resolved cwd cs :
  Forall clean cs -> pathKey cwd (CHAR_FORWARD_SLASH :: join cs) = cs.
Proof.
  intros H. unfold pathKey.
  change (isAbsolute (CHAR_FORWARD_SLASH :: join cs)) with true.
  destruct cs as [ |s cs]; [reflexivity | ].
  rewrite split_resolved by (exact H || discriminate).
  rewrite normalizeSegments_skip_first.
  apply normalizeSegments_of_clean. exact H.
Qed.

(** Two resolved paths with the same names are the same string. *)
Lemma resolved_pathKey_inj cwd p q :
  resolved p -> resolved q -> pathKey cwd p = pathKey cwd q -> p = q.
Proof.
  intros (cs & Hcs & ->) (ds & Hds & ->).
  rewrite !pathKey_resolved by assumption. intros ->. reflexivity.
Qed.

(** *** [resolve] *)

Lemma resolve_found cwd args rp :
  resolveLoop (rev args ++ [cwd]) [] = (rp, true) ->
  resolve cwd args
  = CHAR_FORWARD_SLASH :: join (normalizeSegments false (split rp)).
Proof. intros H. unfold resolve. rewrite H. reflexivity. Qed.

Lemma resolve_found_resolved cwd args rp :
  resolveLoop (rev args ++ [cwd]) [] = (rp, true) ->
  resolved (resolve cwd args).
Proof.
  intros H. rewrite (resolve_found _ _ _ H).
  eexists. split; [ | reflexivity].
  apply normalizeSegments_clean, split_Forall_sepFree.
Qed.

Lemma isAbsolute_nonempty p : isAbsolute p = true -> p <> [].
Proof. destruct p; [discriminate | discriminate]. Qed.

Lemma resolveLoop_cwd cwd paths acc :
  isAbsolute cwd = true ->
  exists rp, resolveLoop (paths ++ [cwd]) acc = (rp, true).
Proof.
  intros Hcwd. revert acc. induction paths as [ |p paths IH]; intros acc; simpl.
  - destruct (decide (cwd = [])) as [-> | _]; [discriminate | ].
    rewrite Hcwd. eauto.
  - destruct (decide (p = [])); [apply IH | ].
    destruct (isAbsolute p); [eauto | apply IH].
Qed.

(** With an absolute working directory, [resolve] returns a resolved
    path. *)
Lemma resolve_resolved cwd args :
  isAbsolute cwd = true -> resolved (resolve cwd args).
Proof.
  intros Hcwd. destruct (resolveLoop_cwd cwd (rev args) [] Hcwd) as [rp H].
  exact (resolve_found_resolved _ _ _ H).
Qed.

Lemma resolved_isAbsolute p : resolved p -> isAbsolute p = true.
Proof. intros (cs & _ & ->). reflexivity. Qed.

(** *** [dirname] *)

Lemma scanDirname_over l : forall rest b,
  sepFree l -> l <> [] -> scanDirname (l ++ rest) b = scanDirname rest false.
Proof.
  unfold sepFree. induction l as [ | c l IH]; intros rest b Hl Hne;
    [contradiction | ].
  simpl. apply not_elem_of_cons in Hl as [Hc Hl].
  destruct (N.eqb_spec c CHAR_FORWARD_SLASH) as [E | _]; [congruence | ].
  destruct l as [ | c' l]; [reflexivity | ].
  apply IH; [exact Hl | discriminate].
Qed.

Lemma sepFree_rev l : sepFree l -> sepFree (rev l).
Proof.
  unfold sepFree. intros H Hin. apply H.
  apply list_elem_of_In, in_rev, list_elem_of_In. exact Hin.
Qed.

(** The directory of a resolved path is the resolved path of all its names
    but the last. *)
Lemma dirname_resolved cs s :
  Forall clean (cs ++ [s]) ->
  dirname (CHAR_FORWARD_SLASH :: join (cs ++ [s]))
  = CHAR_FORWARD_SLASH :: join cs.
Proof.
  intros H. apply Forall_app in H as [Hcs Hs].
  inversion Hs as [ | ? ? (Hs1 & _ & _ & Hs4) _]; subst.
  assert (Hrev : rev s <> []).
  { intros E. apply Hs1. apply (f_equal (@rev N)) in E.
    rewrite rev_involutive in E. exact E. }
  unfold dirname. change (CHAR_FORWARD_SLASH =? CHAR_FORWARD_SLASH) with true.
  destruct cs as [ | c cs].
  - simpl app. simpl join.
    rewrite <- (app_nil_r (rev s)).
    rewrite scanDirname_over by (apply sepFree_rev, Hs4 || exact Hrev).
    reflexivity.
  - rewrite join_app by discriminate. simpl join at 2.
    assert (Hlen : length (join (c :: cs)) <> 0%nat).
    { intros E. apply length_zero_iff_nil in E.
      apply (clean_join_nonempty (c :: cs)); [exact Hcs | discriminate | exact E]. }
    remember (join (c :: cs)) as body eqn:Hbody. clear Hbody.
    rewrite rev_app_distr.
    change (rev (CHAR_FORWARD_SLASH :: s)) with (rev s ++ [CHAR_FORWARD_SLASH]).
    rewrite <- app_assoc.
    rewrite scanDirname_over by (apply sepFree_rev, Hs4 || exact Hrev).
    change (scanDirname ([CHAR_FORWARD_SLASH] ++ rev body) false)
      with (Some (length (rev body))).
    rewrite length_rev.
    destruct (Nat.eqb_spec (length body) 0); [contradiction | ].
    simpl andb. cbv iota. rewrite take_app_length. reflexivity.
Qed.

Lemma pathKey_dirname cwd p :
  resolved p -> pathKey cwd p <> [] ->
  pathKey cwd (dirname p) = removelast (pathKey cwd p).
Proof.
  intros (ks & Hks & ->). rewrite pathKey_resolved by exact Hks. intros Hne.
  destruct (exists_last Hne) as (cs & s & ->).
  rewrite dirname_resolved by exact Hks. rewrite removelast_last.
  apply pathKey_resolved. apply Forall_app in Hks. tauto.
Qed.

End posix_facts.

(** ** The path guard, on any platform *)

Section SafePathFacts.

Context {P : PathModule}.
Variable allowedBaseAbs : jsstring.

Let guard := safePath allowedBaseAbs.
Let cand := candidate allowedBaseAbs.

(** The test of the guard, as a proposition. *)
Lemma guard_test (normAbs normBase : jsstring) :
  negb (startsWith normAbs (normBase ++ sep))
    && negb (bool_decide (normAbs = normBase)) = false
  <-> normAbs = normBase \/ exists suffix, normAbs = normBase ++ sep ++ suffix.
Proof.
  rewrite andb_false_iff, !negb_false_iff, bool_decide_eq_true, startsWith_spec.
  split.
  - intros [[t Ht] | ->]; [right | left; reflexivity].
    exists t. rewrite Ht, <- app_assoc. reflexivity.
  - intros [-> | [t Ht]]; [right; reflexivity | left].
    exists t. rewrite Ht, <- app_assoc. reflexivity.
Qed.

(** [safePath] returns the candidate or throws, and what decides is the
    test on the candidate. *)
Lemma safePath_cases (raw : option jsstring) :
  (guard raw = Ok (cand raw)
   /\ (cand raw = allowedBaseAbs
       \/ cand raw = normalize allowedBaseAbs
       \/ exists suffix,
            cand raw = normalize allowedBaseAbs ++ sep ++ suffix))
  \/ (guard raw = Throw (notAllowed allowedBaseAbs (cand raw))
      /\ cand raw <> normalize allowedBaseAbs
      /\ forall suffix,
           cand raw <> normalize allowedBaseAbs ++ sep ++ suffix).
Proof.
  subst guard cand. unfold safePath, candidate, notAllowed.
  destruct (bool_decide (trim (default [] raw) = [])
            || bool_decide (trim (default [] raw) = str ".")).
  - left. split; [reflexivity | left; reflexivity].
  - set (normAbs := normalize _).
    destruct (negb (startsWith normAbs (normalize allowedBaseAbs ++ sep))
              && negb (bool_decide (normAbs = normalize allowedBaseAbs)))
      eqn:E.
    + right. split; [reflexivity | ].
      assert (H : ~ (normAbs = normalize allowedBaseAbs
                     \/ exists suffix,
                          normAbs = normalize allowedBaseAbs ++ sep ++ suffix)).
      { intros H. apply guard_test in H. congruence. }
      split; [tauto | ]. intros suffix Hs. apply H. right. eauto.
    + left. split; [reflexivity | ]. right. apply guard_test in E.
      exact E.
Qed.

(** When the root is left as it is by [normalize], the guard accepts
    exactly the contained candidates. *)
Hypothesis root_normalized : normalize allowedBaseAbs = allowedBaseAbs.

Lemma safePath_accepts (raw : option jsstring) (r : jsstring) :
  guard raw = Ok r
  <-> r = cand raw /\ contained allowedBaseAbs (cand raw).
Proof.
  unfold contained.
  destruct (safePath_cases raw) as [[H Hc] | (H & H1 & H2)];
    rewrite H; rewrite root_normalized in *.
  - split.
    + intros [= <-]. split; [reflexivity | ]. tauto.
    + intros [-> _]. reflexivity.
  - split; [discriminate | ]. intros [_ [Hc | [t Ht]]].
    + contradiction.
    + exfalso. exact (H2 t Ht).
Qed.

Lemma safePath_rejects (raw : option jsstring) :
  ~ contained allowedBaseAbs (cand raw) ->
  guard raw = Throw (notAllowed allowedBaseAbs (cand raw)).
Proof.
  intros Hout.
  destruct (safePath_cases raw) as [[H Hc] | (H & _)]; [ | exact H].
  exfalso. apply Hout. unfold contained.
  rewrite root_normalized in Hc. tauto.
Qed.

Lemma safePath_total (raw : option jsstring) :
  (guard raw = Ok (cand raw) /\ contained allowedBaseAbs (cand raw))
  \/ (guard raw = Throw (notAllowed allowedBaseAbs (cand raw))
      /\ ~ contained allowedBaseAbs (cand raw)).
Proof.
  destruct (safePath_cases raw) as [[H Hc] | (H & H1 & H2)];
    rewrite root_normalized in *.
  - left. split; [exact H | unfold contained; tauto].
  - right. split; [exact H | ]. intros [Hc | [t Ht]]; [tauto | ].
    exact (H2 t Ht).
Qed.

End SafePathFacts.

(** ** The file tree *)

Lemma removelast_ne {A} (k : list A) : k <> [] -> removelast k <> k.
Proof.
  intros Hk Heq. destruct (exists_last Hk) as (k' & a & ->).
  rewrite removelast_last in Heq.
  apply (f_equal (@length A)) in Heq. rewrite length_app in Heq.
  simpl in Heq. lia.
Qed.

Lemma nodeAt_insert_ne fs k k' n :
  k <> k' -> nodeAt (<[k := n]> fs) k' = nodeAt fs k'.
Proof.
  intros Hne. unfold nodeAt. destruct (decide (k' = [])); [reflexivity | ].
  apply lookup_insert_ne. exact Hne.
Qed.

Lemma nodeAt_insert_eq fs k n :
  k <> [] -> nodeAt (<[k := n]> fs) k = Some n.
Proof.
  intros Hne. unfold nodeAt. destruct (decide (k = [])); [contradiction | ].
  apply lookup_insert_eq.
Qed.

(** A successful write: the place is not the root of the file system, its
    parent is a directory, and the entry becomes a file with the new
    bytes. *)
Lemma writeNode_ok append fs k data fs' :
  writeNode append fs k data = inr fs' ->
  k <> [] /\ parentError fs k = None /\ fs !! k <> Some Dir
  /\ fs' = <[k := File (if append then bytesAt fs k ++ data else data)]> fs.
Proof.
  unfold writeNode, bytesAt, nodeAt.
  destruct (parentError fs k); [discriminate | ].
  destruct (decide (k = [])) as [-> | Hk]; [discriminate | ].
  destruct (fs !! k) as [[old | ] | ]; [ | discriminate | ];
    intros [= <-]; repeat split; try assumption; try discriminate.
  destruct append; reflexivity.
Qed.

(** After it, the entry reads back as a file with those bytes. *)
Lemma read_after_insert fs k d :
  k <> [] -> parentError fs k = None ->
  statNode (<[k := File d]> fs) k = inr IsFile
  /\ readNode (<[k := File d]> fs) k = inr d.
Proof.
  intros Hk Hp. unfold statNode, readNode, parentError in *.
  rewrite nodeAt_insert_ne by (apply not_eq_sym, removelast_ne, Hk).
  destruct (nodeAt fs (removelast k)) as [[? | ] | ]; try discriminate.
  rewrite nodeAt_insert_eq by exact Hk. split; reflexivity.
Qed.

(** [mkdir -p] only adds directories where there was nothing. *)
Lemma mkdirFrom_lookup rest : forall pre fs fs' k,
  mkdirFrom pre rest fs = inr fs' ->
  fs' !! k = fs !! k \/ (fs !! k = None /\ fs' !! k = Some Dir).
Proof.
  induction rest as [ | name rest IH]; intros pre fs fs' k; simpl.
  - intros [= <-]. left. reflexivity.
  - destruct (nodeAt fs (pre ++ [name])) as [[d | ] | ] eqn:E.
    + discriminate.
    + apply IH.
    + intros H. destruct (IH _ _ _ k H) as [Hk | [Hk1 Hk2]].
      * destruct (decide (pre ++ [name] = k)) as [<- | Hne].
        -- right. rewrite Hk, lookup_insert_eq. split; [ | reflexivity].
           unfold nodeAt in E.
           destruct (decide (pre ++ [name] = [])); [discriminate | exact E].
        -- left. rewrite Hk. apply lookup_insert_ne. exact Hne.
      * destruct (decide (pre ++ [name] = k)) as [<- | Hne].
        -- rewrite lookup_insert_eq in Hk1. discriminate.
        -- rewrite lookup_insert_ne in Hk1 by exact Hne. right. tauto.
Qed.

(** [mkdir -p] leaves a directory at its target, and changes nothing off
    the way. *)
Lemma mkdirFrom_dir rest : forall pre fs fs',
  nodeAt fs pre = Some Dir -> mkdirFrom pre rest fs = inr fs' ->
  nodeAt fs' (pre ++ rest) = Some Dir.
Proof.
  induction rest as [ | name rest IH]; intros pre fs fs' Hpre; simpl.
  - intros [= <-]. rewrite app_nil_r. exact Hpre.
  - assert (Hd : pre ++ [name] <> []) by (destruct pre; discriminate).
    replace (pre ++ name :: rest) with ((pre ++ [name]) ++ rest)
      by (rewrite <- app_assoc; reflexivity).
    destruct (nodeAt fs (pre ++ [name])) as [[d | ] | ] eqn:E.
    + discriminate.
    + apply IH. exact E.
    + apply IH. apply nodeAt_insert_eq. exact Hd.
Qed.

Lemma mkdirFrom_other rest : forall pre fs fs' k,
  mkdirFrom pre rest fs = inr fs' -> ~ k `prefix_of` pre ++ rest ->
  fs' !! k = fs !! k.
Proof.
  induction rest as [ | name rest IH]; intros pre fs fs' k; simpl.
  - intros [= <-] _. reflexivity.
  - replace (pre ++ name :: rest) with ((pre ++ [name]) ++ rest)
      by (rewrite <- app_assoc; reflexivity).
    destruct (nodeAt fs (pre ++ [name])) as [[d | ] | ] eqn:E.
    + discriminate.
    + apply IH.
    + intros H Hk. rewrite (IH _ _ _ _ H Hk).
      apply lookup_insert_ne. intros <-. apply Hk.
      exists rest. reflexivity.
Qed.

Lemma removelast_not_prefix {A} (k : list A) :
  k <> [] -> ~ k `prefix_of` removelast k.
Proof.
  intros Hk Hp. apply prefix_length in Hp.
  destruct (exists_last Hk) as (k' & a & ->).
  rewrite removelast_last, length_app in Hp. simpl in Hp. lia.
Qed.

Lemma firstBytes_take (limit : Z) (buf : buffer) :
  firstBytes limit buf = take (Z.to_nat limit) buf.
Proof.
  unfold firstBytes.
  destruct (Z.le_ge_cases (Z.of_nat (length buf)) limit) as [H | H].
  - rewrite Z.min_l by exact H. rewrite Nat2Z.id.
    rewrite !take_ge by lia. reflexivity.
  - rewrite Z.min_r by lia. reflexivity.
Qed.

Lemma readText_firstBytes (buf : buffer) (limit : Z) :
  (0 <= limit)%Z -> readText buf limit = utf8Decode (firstBytes limit buf).
Proof.
  intros Hl. unfold readText, subarray0, firstBytes.
  destruct (Z.ltb_spec (Z.min (Z.of_nat (length buf)) limit) 0); [lia | ].
  rewrite (Z.min_l (Z.min _ _)) by lia. reflexivity.
Qed.

(** ** The tool handlers, on any platform *)

Arguments str : simpl never.
Arguments numberToString : simpl never.

Ltac unfold_monad :=
  unfold bind, liftResult, ret, throw, consoleLog, fsStat, fsReadFile,
    fsWriteFile, fsAppendFile, fsMkdir, fsRm, fsUnlink, fsCall, keepTree,
    newTree in *.

Section HandlerFacts.

Context {P : PathModule}.
Variable allowedBaseAbs : jsstring.
Variable pathKey : jsstring -> list jsstring.

Let guard := safePath allowedBaseAbs.

(** What a successful [fs_write] or [fs_append] did. *)
Lemma fs_write_ok args w m w1 :
  fs_write allowedBaseAbs pathKey args w = (Ok m, w1) ->
  exists abs fs1,
    guard (write_path args) = Ok abs
    /\ mkdirRecursive (files w) (pathKey (dirname abs)) = inr fs1
    /\ writeNode false fs1 (pathKey abs)
         (utf8Encode (default [] (content args))) = inr (files w1)
    /\ m = TextContent (writtenMessage args abs).
Proof.
  subst guard. unfold fs_write. unfold_monad.
  destruct (safePath allowedBaseAbs (write_path args)) as [abs | e];
    [ | discriminate].
  cbn [files calls console].
  destruct (mkdirRecursive (files w) (pathKey (dirname abs))) as [e | fs1]
    eqn:Em; cbn [files calls console]; [discriminate | ].
  destruct (writeNode false fs1 (pathKey abs) _) as [e | fs2] eqn:Ew;
    cbn [files calls console]; [discriminate | ].
  intros [= <- <-]. exists abs, fs1. cbn [files]. auto.
Qed.

Lemma fs_append_ok args w m w1 :
  fs_append allowedBaseAbs pathKey args w = (Ok m, w1) ->
  exists abs fs1,
    guard (write_path args) = Ok abs
    /\ mkdirRecursive (files w) (pathKey (dirname abs)) = inr fs1
    /\ writeNode true fs1 (pathKey abs)
         (utf8Encode (default [] (content args))) = inr (files w1).
Proof.
  subst guard. unfold fs_append. unfold_monad.
  destruct (safePath allowedBaseAbs (write_path args)) as [abs | e];
    [ | discriminate].
  cbn [files calls console].
  destruct (mkdirRecursive (files w) (pathKey (dirname abs))) as [e | fs1]
    eqn:Em; cbn [files calls console]; [discriminate | ].
  destruct (writeNode true fs1 (pathKey abs) _) as [e | fs2] eqn:Ew;
    cbn [files calls console]; [discriminate | ].
  intros [= <- <-]. exists abs, fs1. cbn [files]. auto.
Qed.

(** When the underlying calls succeed, so do the handlers. *)
Lemma fs_write_succeeds args w abs fs1 fs2 :
  guard (write_path args) = Ok abs ->
  mkdirRecursive (files w) (pathKey (dirname abs)) = inr fs1 ->
  writeNode false fs1 (pathKey abs) (utf8Encode (default [] (content args)))
    = inr fs2 ->
  exists w1,
    fs_write allowedBaseAbs pathKey args w
      = (Ok (TextContent (writtenMessage args abs)), w1)
    /\ files w1 = fs2.
Proof.
  subst guard. intros Hg Hm Hw. unfold fs_write. unfold_monad.
  rewrite Hg. cbn [files calls console]. rewrite Hm.
  cbn [files calls console]. rewrite Hw. cbn [files calls console].
  eexists. split; reflexivity.
Qed.

Lemma fs_append_succeeds args w abs fs1 fs2 :
  guard (write_path args) = Ok abs ->
  mkdirRecursive (files w) (pathKey (dirname abs)) = inr fs1 ->
  writeNode true fs1 (pathKey abs) (utf8Encode (default [] (content args)))
    = inr fs2 ->
  exists w1,
    fs_append allowedBaseAbs pathKey args w
      = (Ok (TextContent
               (str "Appended "
                ++ numberToString (lengthOrZero (content args))
                ++ str " chars to " ++ abs)), w1)
    /\ files w1 = fs2.
Proof.
  subst guard. intros Hg Hm Hw. unfold fs_append. unfold_monad.
  rewrite Hg. cbn [files calls console]. rewrite Hm.
  cbn [files calls console]. rewrite Hw. cbn [files calls console].
  eexists. split; reflexivity.
Qed.

(** Reading a file that is there. *)
Lemma fs_read_file args w abs buf :
  guard (read_path args) = Ok abs ->
  statNode (files w) (pathKey abs) = inr IsFile ->
  readNode (files w) (pathKey abs) = inr buf ->
  (fs_read allowedBaseAbs pathKey args w).1
  = Ok (TextContent (readText buf (default DEFAULT_LIMIT (maxBytes args)))).
Proof.
  subst guard. intros Hg Hs Hr. unfold fs_read. unfold_monad.
  rewrite Hg. cbn [files calls console]. rewrite Hs.
  cbn [files calls console]. rewrite Hr. reflexivity.
Qed.

(** A rejected path stops every handler before it does anything. *)
Lemma rejected_no_effect raw e w :
  guard raw = Throw e ->
  (forall mb, fs_read allowedBaseAbs pathKey
                {| read_path := raw; maxBytes := mb |} w = (Throw e, w))
  /\ (forall mb, read_file allowedBaseAbs pathKey
                   {| read_path := raw; maxBytes := mb |} w = (Throw e, w))
  /\ (forall c, fs_write allowedBaseAbs pathKey
                  {| write_path := raw; content := c |} w = (Throw e, w))
  /\ (forall c, write_file allowedBaseAbs pathKey
                  {| write_path := raw; content := c |} w = (Throw e, w))
  /\ (forall c, fs_append allowedBaseAbs pathKey
                  {| write_path := raw; content := c |} w = (Throw e, w))
  /\ fs_mkdir allowedBaseAbs pathKey {| path := raw |} w = (Throw e, w)
  /\ fs_delete allowedBaseAbs pathKey {| path := raw |} w = (Throw e, w).
Proof.
  subst guard. intros Hg.
  unfold fs_read, read_file, fs_write, write_file, fs_append, fs_mkdir,
    fs_delete.
  unfold_monad. cbn [read_path write_path path]. rewrite Hg.
  repeat split; reflexivity.
Qed.

End HandlerFacts.

(** ** The path guard on POSIX *)

Section PosixGuard.

(** The working directory of the process and the [ALLOWED_BASE] of its
    environment; [process.cwd()] is an absolute path. *)
Variables cwd ALLOWED_BASE : jsstring.
Hypothesis cwd_absolute : posix.isAbsolute cwd = true.

Let posixP : PathModule := posixPath cwd.
Local Existing Instance posixP.

Let root := resolveBase ALLOWED_BASE.
Let key := posix.pathKey cwd.

Lemma root_resolved : posix.resolved root.
Proof. apply posix_facts.resolve_resolved. exact cwd_absolute. Qed.

Lemma root_normal : normalize root = root.
Proof. apply posix_facts.normalize_resolved, root_resolved. Qed.

Lemma root_nonempty : root <> [].
Proof. destruct root_resolved as (cs & _ & ->). discriminate. Qed.

(** An absolute request is resolved alone, a relative one after the
    root. *)
Lemma resolve_absolute trimmed :
  isAbsolute trimmed = true ->
  resolve [trimmed]
  = posix.CHAR_FORWARD_SLASH
    :: posix.join (posix.normalizeSegments false
                     (posix.split (trimmed ++ [posix.CHAR_FORWARD_SLASH]))).
Proof.
  intros Ha. apply posix_facts.resolve_found. simpl.
  destruct (decide (trimmed = [])) as [-> | _]; [discriminate | ].
  simpl in Ha. rewrite Ha. reflexivity.
Qed.

Lemma resolve_relative trimmed :
  trimmed <> [] -> isAbsolute trimmed = false ->
  resolve [root; trimmed]
  = posix.CHAR_FORWARD_SLASH
    :: posix.join (posix.normalizeSegments false
                     (posix.split (root ++ posix.CHAR_FORWARD_SLASH
                                   :: trimmed ++ [posix.CHAR_FORWARD_SLASH]))).
Proof.
  intros Hne Ha. apply posix_facts.resolve_found. simpl.
  destruct (decide (trimmed = [])); [contradiction | ].
  simpl in Ha. rewrite Ha.
  destruct (decide (root = [])) as [E | _]; [destruct (root_nonempty E) | ].
  rewrite (posix_facts.resolved_isAbsolute _ root_resolved).
  reflexivity.
Qed.

Lemma resolve_request_resolved trimmed :
  trimmed <> [] ->
  posix.resolved (if isAbsolute trimmed then resolve [trimmed]
                  else resolve [root; trimmed]).
Proof.
  intros Hne. destruct (isAbsolute trimmed) eqn:Ha.
  - rewrite (resolve_absolute _ Ha). eexists. split; [ | reflexivity].
    apply posix_facts.normalizeSegments_clean,
      posix_facts.split_Forall_sepFree.
  - rewrite (resolve_relative _ Hne Ha). eexists. split; [ | reflexivity].
    apply posix_facts.normalizeSegments_clean,
      posix_facts.split_Forall_sepFree.
Qed.

(** Every candidate is a resolved path, whatever the working directory. *)
Lemma candidate_resolved raw : posix.resolved (candidate root raw).
Proof.
  unfold candidate.
  destruct (bool_decide (trim (default [] raw) = [])) eqn:E1;
    [apply root_resolved | ].
  destruct (bool_decide (trim (default [] raw) = str ".")) eqn:E2;
    [apply root_resolved | ].
  simpl orb. cbv iota.
  apply bool_decide_eq_false in E1.
  pose proof (resolve_request_resolved _ E1) as H.
  change (@normalize posixP) with posix.normalize.
  rewrite posix_facts.normalize_resolved by exact H. exact H.
Qed.

(** *** Containment on strings and on names *)

Lemma join_clean_head cs t :
  Forall posix.clean cs -> posix.join cs <> posix.CHAR_FORWARD_SLASH :: t.
Proof.
  intros H E. destruct H as [ | s cs (Hs1 & _ & _ & Hs4) Hcs];
    [discriminate | ].
  destruct s as [ | c s]; [contradiction | ].
  assert (c = posix.CHAR_FORWARD_SLASH) as ->.
  { destruct cs; simpl in E; congruence. }
  apply Hs4. left.
Qed.

(** A resolved path that continues another one after a separator has
    its names, followed by the segments of the continuation. *)
Lemma continued_names rs cs t :
  Forall posix.clean rs -> Forall posix.clean cs ->
  posix.CHAR_FORWARD_SLASH :: posix.join cs
  = (posix.CHAR_FORWARD_SLASH :: posix.join rs)
      ++ posix.CHAR_FORWARD_SLASH :: t ->
  rs <> [] /\ cs = rs ++ posix.split t.
Proof.
  intros Hrs Hcs E. destruct rs as [ | r rs].
  - simpl in E. injection E as E. destruct (join_clean_head _ _ Hcs E).
  - split; [discriminate | ].
    assert (Hne : cs <> []).
    { intros ->. simpl in E. injection E as E. symmetry in E.
      apply app_eq_nil in E as [_ E]. discriminate. }
    apply (f_equal posix.split) in E.
    rewrite posix_facts.split_app_sep in E.
    rewrite !posix_facts.split_resolved in E
      by (assumption || discriminate).
    simpl in E. injection E as E. exact E.
Qed.

Lemma contained_names p :
  posix.resolved p -> contained root p -> key root `prefix_of` key p.
Proof.
  intros (cs & Hcs & ->) [E | [t E]].
  - rewrite E. reflexivity.
  - destruct root_resolved as (rs & Hrs & Hroot). subst key.
    rewrite Hroot in *.
    rewrite !posix_facts.pathKey_resolved by assumption.
    destruct (continued_names rs cs t Hrs Hcs E) as [_ ->].
    eexists. reflexivity.
Qed.

(** Unless the root is the root of the file system, the two agree. *)
Lemma names_contained p :
  posix.resolved p -> key root <> [] -> key root `prefix_of` key p ->
  contained root p.
Proof.
  intros (cs & Hcs & ->). destruct root_resolved as (rs & Hrs & Hroot).
  subst key. unfold contained. rewrite Hroot.
  rewrite !posix_facts.pathKey_resolved by assumption.
  intros Hne [k ->]. destruct k as [ | s k].
  - left. rewrite app_nil_r. reflexivity.
  - right. exists (posix.join (s :: k)).
    rewrite posix_facts.join_app by (assumption || discriminate).
    reflexivity.
Qed.

(** A path that only shares the characters of the root is not
    contained. *)
Lemma shared_prefix_not_contained c rest :
  c <> posix.CHAR_FORWARD_SLASH -> ~ contained root (root ++ c :: rest).
Proof.
  intros Hc [E | [t E]].
  - apply (f_equal (@length N)) in E. rewrite length_app in E.
    simpl in E. lia.
  - apply app_inv_head in E. simpl in E. congruence.
Qed.

(** *** The guard *)

Lemma guard_total raw :
  (safePath root raw = Ok (candidate root raw)
   /\ contained root (candidate root raw))
  \/ (safePath root raw = Throw (notAllowed root (candidate root raw))
      /\ ~ contained root (candidate root raw)).
Proof. apply safePath_total. exact root_normal. Qed.

Lemma guard_accepted raw r :
  safePath root raw = Ok r -> posix.resolved r /\ contained root r.
Proof.
  intros H. apply (safePath_accepts root root_normal) in H as [-> Hc].
  split; [apply candidate_resolved | exact Hc].
Qed.

(** The relative form of an accepted path resolves to the same path when
    [trim] leaves it alone. *)
Lemma guard_again r :
  posix.resolved r -> contained root r ->
  trim (relativeToRoot root r) = relativeToRoot root r ->
  safePath root (Some (relativeToRoot root r)) = Ok r.
Proof.
  intros Hr Hc. unfold relativeToRoot.
  destruct (bool_decide (r = root)) eqn:Eroot.
  - apply bool_decide_eq_true in Eroot. subst r. intros _. reflexivity.
  - apply bool_decide_eq_false in Eroot.
    destruct Hc as [E | [t E]]; [contradiction | ].
    assert (Hd : drop (length root + length sep) r = t).
    { rewrite E, app_assoc. apply drop_app_length'.
      rewrite length_app. reflexivity. }
    rewrite Hd. intros Htrim.
    destruct Hr as (cs & Hcs & Hr).
    destruct root_resolved as (rs & Hrs & Hroot).
    assert (Hnames : rs <> [] /\ cs = rs ++ posix.split t).
    { apply (continued_names rs cs t Hrs Hcs).
      rewrite <- Hr, <- Hroot. exact E. }
    destruct Hnames as [Hrne Hnames].
    assert (Hts : Forall posix.clean (posix.split t)).
    { rewrite Hnames in Hcs. apply Forall_app in Hcs. tauto. }
    assert (Ht1 : t <> []).
    { intros ->. simpl in Hts. inversion Hts as [ | ? ? (Hx & _) _].
      contradiction. }
    assert (Ht2 : t <> str ".").
    { intros ->. change (str ".") with posix.dot in Hts.
      inversion Hts as [ | ? ? (_ & Hx & _) _]. contradiction. }
    assert (Ht3 : isAbsolute t = false).
    { destruct t as [ | c t]; [reflexivity | ]. simpl.
      destruct (N.eqb_spec c posix.CHAR_FORWARD_SLASH) as [-> | ];
        [ | reflexivity].
      simpl in Hts. inversion Hts as [ | ? ? (Hx & _) _]. contradiction. }
    unfold safePath. change (default [] (Some t)) with t. rewrite Htrim.
    rewrite (bool_decide_eq_false_2 _ Ht1), (bool_decide_eq_false_2 _ Ht2).
    simpl orb. cbv iota. rewrite Ht3.
    assert (Habs : resolve [root; t] = r).
    { rewrite (resolve_relative t Ht1 Ht3).
      rewrite posix_facts.split_app_sep.
      replace (t ++ [posix.CHAR_FORWARD_SLASH])
        with (t ++ posix.CHAR_FORWARD_SLASH :: []) by reflexivity.
      rewrite posix_facts.split_app_sep.
      rewrite Hroot at 1.
      rewrite posix_facts.split_resolved by assumption.
      change (posix.split []) with [@nil N].
      rewrite <- app_comm_cons, posix_facts.normalizeSegments_skip_first.
      rewrite app_assoc, posix_facts.normalizeSegments_skip_last.
      rewrite <- Hnames.
      rewrite posix_facts.normalizeSegments_of_clean by exact Hcs.
      symmetry. exact Hr. }
    rewrite Habs.
    assert (Hn : normalize r = r).
    { apply posix_facts.normalize_resolved. exists cs. auto. }
    rewrite Hn, root_normal.
    assert (Hs : startsWith r (root ++ sep) = true).
    { apply startsWith_spec. exists t. rewrite <- app_assoc. exact E. }
    rewrite Hs. reflexivity.
Qed.

End PosixGuard.

(** ** The path guard of a POSIX process: the claims *)

(** C1. A request whose normalized candidate lies outside the root is
    rejected, and no handler touches the file system: [safePath] returns a
    path exactly when the candidate is the root or the root, the separator
    and anything, and what it returns is the candidate; a candidate whose
    names do not start with the names of the root (a sibling, an ancestor) or
    one that merely continues the characters of the root without a separator
    is not of that form; and for a candidate not of that form [safePath]
    throws "Path not allowed" and every handler ends with that exception in
    the world it started in, with no [fs] call made. *)
Theorem safePath_rejects_outside
    (cwd ALLOWED_BASE : jsstring) (raw : option jsstring) :
  posix.isAbsolute cwd = true ->
  let root := onPosix.allowedBaseAbs cwd ALLOWED_BASE in
  let cand := onPosix.candidate cwd ALLOWED_BASE raw in
  (forall r,
     onPosix.safePath cwd ALLOWED_BASE raw = Ok r
     <-> r = cand
         /\ (cand = root
             \/ exists suffix,
                  cand = root ++ [posix.CHAR_FORWARD_SLASH] ++ suffix))
  /\ (~ onPosix.pathKey cwd root `prefix_of` onPosix.pathKey cwd cand ->
      ~ onPosix.contained cwd ALLOWED_BASE cand)
  /\ (forall c rest,
        c <> posix.CHAR_FORWARD_SLASH -> cand = root ++ c :: rest ->
        ~ onPosix.contained cwd ALLOWED_BASE cand)
  /\ (~ onPosix.contained cwd ALLOWED_BASE cand ->
      let e := onPosix.notAllowed cwd ALLOWED_BASE cand in
      onPosix.safePath cwd ALLOWED_BASE raw = Throw e
      /\ forall w,
           (forall mb, onPosix.fs_read cwd ALLOWED_BASE
                         {| read_path := raw; maxBytes := mb |} w
                       = (Throw e, w))
           /\ (forall mb, onPosix.read_file cwd ALLOWED_BASE
                            {| read_path := raw; maxBytes := mb |} w
                          = (Throw e, w))
           /\ (forall c, onPosix.fs_write cwd ALLOWED_BASE
                           {| write_path := raw; content := c |} w
                         = (Throw e, w))
           /\ (forall c, onPosix.write_file cwd ALLOWED_BASE
                           {| write_path := raw; content := c |} w
                         = (Throw e, w))
           /\ (forall c, onPosix.fs_append cwd ALLOWED_BASE
                           {| write_path := raw; content := c |} w
                         = (Throw e, w))
           /\ onPosix.fs_mkdir cwd ALLOWED_BASE {| path := raw |} w
              = (Throw e, w)
           /\ onPosix.fs_delete cwd ALLOWED_BASE {| path := raw |} w
              = (Throw e, w)).
Proof.
  intros Hcwd root cand. split; [ | split; [ | split]].
  - intros r. apply (safePath_accepts _ (root_normal cwd ALLOWED_BASE Hcwd)).
  - intros Hout Hc. apply Hout.
    apply (contained_names cwd ALLOWED_BASE Hcwd);
      [apply candidate_resolved, Hcwd | exact Hc].
  - intros c rest Hc E. rewrite E.
    apply (shared_prefix_not_contained cwd ALLOWED_BASE c rest Hc).
  - intros Hout e.
    assert (H : onPosix.safePath cwd ALLOWED_BASE raw = Throw e).
    { apply (safePath_rejects _ (root_normal cwd ALLOWED_BASE Hcwd)).
      exact Hout. }
    split; [exact H | ]. intros w.
    apply (rejected_no_effect _ (onPosix.pathKey cwd) raw e w H).
Qed.

(** C3. Deleting the root fails with the error kept for it, under every
    spelling of the root and whatever the tree holds: when the names of the
    candidate are the names of the root, [fs_delete] throws "Cannot delete
    ALLOWED_BASE root directory itself." without any [fs] call, and the tree
    is as it was. *)
Theorem delete_root_forbidden
    (cwd ALLOWED_BASE : jsstring) (raw : option jsstring) (w : world) :
  posix.isAbsolute cwd = true ->
  onPosix.pathKey cwd (onPosix.candidate cwd ALLOWED_BASE raw)
  = onPosix.pathKey cwd (onPosix.allowedBaseAbs cwd ALLOWED_BASE) ->
  exists w',
    onPosix.fs_delete cwd ALLOWED_BASE {| path := raw |} w
    = (Throw forbiddenTarget, w')
    /\ files w' = files w /\ calls w' = calls w.
Proof.
  intros Hcwd Hkey.
  assert (Hc : onPosix.candidate cwd ALLOWED_BASE raw
               = onPosix.allowedBaseAbs cwd ALLOWED_BASE).
  { apply (posix_facts.resolved_pathKey_inj cwd);
      [apply candidate_resolved, Hcwd | apply root_resolved, Hcwd
      | exact Hkey]. }
  assert (Hg : onPosix.safePath cwd ALLOWED_BASE raw
               = Ok (onPosix.allowedBaseAbs cwd ALLOWED_BASE)).
  { apply (safePath_accepts _ (root_normal cwd ALLOWED_BASE Hcwd)).
    split; [symmetry; exact Hc | left; exact Hc]. }
  unfold onPosix.fs_delete, fs_delete. unfold_monad.
  cbn [path]. unfold onPosix.safePath in Hg. rewrite Hg.
  rewrite bool_decide_eq_true_2 by reflexivity.
  eexists. split; [reflexivity | ]. split; reflexivity.
Qed.

(** C9. Whatever spelling of the root is accepted, the string returned is
    the configured root itself: if [safePath] returns a path whose names are
    the names of the root, that path is [allowedBaseAbs] character for
    character, so the test [abs === allowedBaseAbs] of [fs_delete] holds and
    the handler throws. *)
Theorem accepted_root_is_root_string
    (cwd ALLOWED_BASE : jsstring) (raw : option jsstring) (r : jsstring) :
  posix.isAbsolute cwd = true ->
  onPosix.safePath cwd ALLOWED_BASE raw = Ok r ->
  onPosix.pathKey cwd r
  = onPosix.pathKey cwd (onPosix.allowedBaseAbs cwd ALLOWED_BASE) ->
  r = onPosix.allowedBaseAbs cwd ALLOWED_BASE
  /\ bool_decide (r = onPosix.allowedBaseAbs cwd ALLOWED_BASE) = true
  /\ forall w,
       (onPosix.fs_delete cwd ALLOWED_BASE {| path := raw |} w).1
       = Throw forbiddenTarget.
Proof.
  intros Hcwd Hg Hkey.
  assert (Hr : r = onPosix.allowedBaseAbs cwd ALLOWED_BASE).
  { destruct (guard_accepted cwd ALLOWED_BASE Hcwd raw r Hg) as [Hres _].
    apply (posix_facts.resolved_pathKey_inj cwd);
      [exact Hres | apply root_resolved, Hcwd | exact Hkey]. }
  split; [exact Hr | ]. split; [apply bool_decide_eq_true_2, Hr | ].
  intros w. unfold onPosix.fs_delete, fs_delete. unfold_monad.
  cbn [path]. unfold onPosix.safePath in Hg. rewrite Hg.
  rewrite (bool_decide_eq_true_2 _ Hr). reflexivity.
Qed.

(** C4, as amended.  For a request whose candidate is the root or the root,
    the separator and anything, [safePath] returns an absolute path that is
    the root or starts with the root and the separator, and resolving the
    form of that path relative to the root returns the same path whenever
    [trim] leaves that form unchanged (it has no white space at either
    end). *)
Theorem contained_resolve_idempotent
    (cwd ALLOWED_BASE : jsstring) (raw : option jsstring) :
  posix.isAbsolute cwd = true ->
  let root := onPosix.allowedBaseAbs cwd ALLOWED_BASE in
  onPosix.contained cwd ALLOWED_BASE (onPosix.candidate cwd ALLOWED_BASE raw) ->
  exists r,
    onPosix.safePath cwd ALLOWED_BASE raw = Ok r
    /\ posix.isAbsolute r = true
    /\ (r = root
        \/ exists suffix, r = root ++ [posix.CHAR_FORWARD_SLASH] ++ suffix)
    /\ (trim (onPosix.relativeToRoot cwd ALLOWED_BASE r)
        = onPosix.relativeToRoot cwd ALLOWED_BASE r ->
        onPosix.safePath cwd ALLOWED_BASE
          (Some (onPosix.relativeToRoot cwd ALLOWED_BASE r)) = Ok r).
Proof.
  intros Hcwd root Hc.
  exists (onPosix.candidate cwd ALLOWED_BASE raw).
  pose proof (candidate_resolved cwd ALLOWED_BASE Hcwd raw) as Hres.
  split; [ | split; [ | split]].
  - apply (safePath_accepts _ (root_normal cwd ALLOWED_BASE Hcwd)).
    split; [reflexivity | exact Hc].
  - apply posix_facts.resolved_isAbsolute. exact Hres.
  - exact Hc.
  - apply (guard_again cwd ALLOWED_BASE Hcwd); assumption.
Qed.

(** ** ASCII text

    Text whose code units are all below 128 is its own UTF-8 encoding. *)

Lemma utf8Encode_ascii (s : jsstring) :
  Forall (fun u => u < 128) s -> utf8Encode s = s.
Proof.
  induction 1 as [ | u s Hu Hs IH]; simpl; [reflexivity | ].
  unfold isHighSurrogate, isLowSurrogate, encodeCodePoint.
  destruct (N.leb_spec 55296 u); [lia | ].
  destruct (N.leb_spec 56320 u); [lia | ].
  destruct (N.ltb_spec u 128); [ | lia].
  simpl. rewrite IH. reflexivity.
Qed.

Lemma utf8Decode_ascii (b : buffer) :
  Forall (fun u => u < 128) b -> utf8Decode b = b.
Proof.
  unfold utf8Decode. induction 1 as [ | u s Hu Hs IH]; simpl; [reflexivity | ].
  unfold decodeLead. destruct (N.ltb_spec u 128); [ | lia].
  simpl. rewrite IH. reflexivity.
Qed.


(** ** The tool handlers: the claims *)

(** C8. The aliases compute what the handlers they stand for compute:
    [read_file] returns the result of [fs_read] and [write_file] that of
    [fs_write] (the value or the exception), they make the same [fs] calls
    and leave the same tree; only the console differs, on which the aliases
    write nothing. *)
Theorem aliases_agree {P : PathModule} (allowedBaseAbs : jsstring)
    (pathKey : jsstring -> list jsstring)
    (ra : readArgs) (wa : writeArgs) (w : world) :
  let r := fs_read allowedBaseAbs pathKey ra w in
  let r' := read_file allowedBaseAbs pathKey ra w in
  let u := fs_write allowedBaseAbs pathKey wa w in
  let u' := write_file allowedBaseAbs pathKey wa w in
  (r'.1 = r.1 /\ files r'.2 = files r.2 /\ calls r'.2 = calls r.2
   /\ console r'.2 = console w)
  /\ (u'.1 = u.1 /\ files u'.2 = files u.2 /\ calls u'.2 = calls u.2
      /\ console u'.2 = console w).
Proof.
  unfold fs_read, read_file, fs_write, write_file. unfold_monad.
  cbv zeta. split.
  - destruct (safePath allowedBaseAbs (read_path ra)) as [abs | e];
      [ | repeat split].
    cbn [files calls console].
    destruct (statNode (files w) (pathKey abs)) as [e | [ | ]];
      cbn [files calls console fst snd]; [repeat split | | repeat split].
    destruct (readNode (files w) (pathKey abs)) as [e | buf];
      cbn [files calls console fst snd]; repeat split.
  - destruct (safePath allowedBaseAbs (write_path wa)) as [abs | e];
      [ | repeat split].
    cbn [files calls console].
    destruct (mkdirRecursive (files w) (pathKey (dirname abs))) as [e | fs1];
      cbn [files calls console fst snd]; [repeat split | ].
    destruct (writeNode false fs1 (pathKey abs) _) as [e | fs2];
      cbn [files calls console fst snd]; repeat split.
Qed.

Section WriteRead.

Context {P : PathModule}.
Variable allowedBaseAbs : jsstring.
Variable pathKey : jsstring -> list jsstring.

Let guard := safePath allowedBaseAbs.
Let read (p : option jsstring) (w : world) : result toolResult :=
  (fs_read allowedBaseAbs pathKey {| read_path := p; maxBytes := None |} w).1.



(** A write that returned: the place holds a file with the bytes written. *)
Lemma fs_write_returned args w m w1 :
  fs_write allowedBaseAbs pathKey args w = (Ok m, w1) ->
  let bytes := utf8Encode (default [] (content args)) in
  exists abs,
    guard (write_path args) = Ok abs
    /\ m = TextContent (writtenMessage args abs)
    /\ statNode (files w1) (pathKey abs) = inr IsFile
    /\ readNode (files w1) (pathKey abs) = inr bytes
    /\ files w1 !! pathKey abs = Some (File bytes).
Proof.
  intros H bytes. apply fs_write_ok in H as (abs & fs1 & Hg & Hm & Hw & Hmsg).
  apply writeNode_ok in Hw as (Hk & Hp & _ & Hw).
  destruct (read_after_insert fs1 (pathKey abs) bytes Hk Hp) as [Hs Hr].
  exists abs. rewrite Hw.
  split; [exact Hg | ]. split; [exact Hmsg | ]. split; [exact Hs | ].
  split; [exact Hr | apply lookup_insert_eq].
Qed.

(** An append that returned: the place holds a file with the bytes it held
    before, followed by the bytes appended. *)
Lemma fs_append_returned args w m w1 :
  fs_append allowedBaseAbs pathKey args w = (Ok m, w1) ->
  exists abs,
    let bytes :=
      bytesAt (files w) (pathKey abs)
      ++ utf8Encode (default [] (content args)) in
    guard (write_path args) = Ok abs
    /\ m = TextContent
             (str "Appended " ++ numberToString (lengthOrZero (content args))
              ++ str " chars to " ++ abs)
    /\ statNode (files w1) (pathKey abs) = inr IsFile
    /\ readNode (files w1) (pathKey abs) = inr bytes
    /\ files w1 !! pathKey abs = Some (File bytes).
Proof.
  intros H. pose proof H as H0.
  apply fs_append_ok in H as (abs & fs1 & Hg & Hm & Hw).
  destruct (fs_append_succeeds allowedBaseAbs pathKey args w abs fs1
              (files w1) Hg Hm Hw) as (w1' & Hrun & _).
  rewrite Hrun in H0. injection H0 as Hmsg _.
  apply writeNode_ok in Hw as (Hk & Hp & Hnd & Hw).
  assert (Hold : bytesAt fs1 (pathKey abs) = bytesAt (files w) (pathKey abs)).
  { destruct (mkdirFrom_lookup _ _ _ _ (pathKey abs) Hm) as [E | [_ E]];
      [unfold bytesAt; rewrite E; reflexivity | contradiction]. }
  rewrite Hold in Hw.
  destruct (read_after_insert fs1 (pathKey abs)
              (bytesAt (files w) (pathKey abs)
               ++ utf8Encode (default [] (content args))) Hk Hp) as [Hs Hr].
  exists abs. cbv zeta. rewrite Hw.
  split; [exact Hg | ]. split; [symmetry; exact Hmsg | ].
  split; [exact Hs | ]. split; [exact Hr | apply lookup_insert_eq].
Qed.

End WriteRead.


(** C10, as amended.  With [content] absent, [fs_write] and [fs_append] do
    what they do with the empty string, for every path: the same result or
    exception, the same [fs] calls, the same tree.  Whenever such a call
    returns, the empty string has been written: [fs_write] leaves an empty
    file and reports "Written 0 chars", [fs_append] leaves the bytes of the
    file as they were (an empty file when there was none) and reports
    "Appended 0 chars". *)
Theorem absent_content_is_empty
    (cwd ALLOWED_BASE : jsstring) (p : option jsstring) (w : world) :
  let absent := {| write_path := p; content := None |} in
  let empty := {| write_path := p; content := Some [] |} in
  onPosix.fs_write cwd ALLOWED_BASE absent w
  = onPosix.fs_write cwd ALLOWED_BASE empty w
  /\ onPosix.fs_append cwd ALLOWED_BASE absent w
     = onPosix.fs_append cwd ALLOWED_BASE empty w
  /\ (forall abs m w1,
        onPosix.safePath cwd ALLOWED_BASE p = Ok abs ->
        onPosix.fs_write cwd ALLOWED_BASE absent w = (Ok m, w1) ->
        m = TextContent (str "Written 0 chars to " ++ abs)
        /\ files w1 !! onPosix.pathKey cwd abs = Some (File []))
  /\ (forall abs m w2,
        onPosix.safePath cwd ALLOWED_BASE p = Ok abs ->
        onPosix.fs_append cwd ALLOWED_BASE absent w = (Ok m, w2) ->
        m = TextContent (str "Appended 0 chars to " ++ abs)
        /\ files w2 !! onPosix.pathKey cwd abs
           = Some (File (bytesAt (files w) (onPosix.pathKey cwd abs)))).
Proof.
  intros absent empty.
  split; [reflexivity | ]. split; [reflexivity | ]. split.
  - intros abs m w1 Hg H.
    apply fs_write_returned in H as (abs1 & Hg1 & Hm & _ & _ & Hf).
    unfold absent in *. cbn [write_path content] in *. simpl default in *.
    unfold onPosix.safePath in Hg.
    assert (abs1 = abs) by congruence. subst abs1.
    split; [exact Hm | exact Hf].
  - intros abs m w2 Hg H.
    apply fs_append_returned in H as (abs1 & Hg1 & Hm & _ & _ & Hf).
    unfold absent in *. cbn [write_path content] in *. simpl default in *.
    unfold onPosix.safePath in Hg.
    assert (abs1 = abs) by congruence. subst abs1.
    rewrite app_nil_r in Hf. split; [exact Hm | exact Hf].
Qed.

(** ** The session registry *)

Section RegistryFacts.

Variable isInitializeRequest : option json -> bool.

Let route := mcpRoute isInitializeRequest.

(** A POST that is not an initialization and finds no entry is answered
    400 with the error of the registry, and the state is as it was. *)
Lemma post_without_session uuid sid b s :
  findEntry s sid = None -> isInitializeRequest b = false ->
  route uuid (postRequest sid b) s = (Json 400 (noSessionError b), s).
Proof.
  intros He Hb. unfold route, mcpRoute, postRequest.
  cbn [method headerSid body]. rewrite He, Hb. reflexivity.
Qed.

(** DELETE with the token of a session closes its transport and removes
    its entry. *)
Lemma delete_closes uuid t e s :
  t <> [] -> sessions s !! t = Some e ->
  route uuid (deleteRequest (Some t)) s
  = (Send 200 [], deleteSession t (closeTransport (transport e) s)).
Proof.
  intros Ht He. unfold route, mcpRoute, deleteRequest, findEntry.
  cbn [method headerSid body].
  rewrite (bool_decide_eq_false_2 _ Ht), He. reflexivity.
Qed.

(** DELETE with any other token, or none, answers 200 and changes
    nothing. *)
Lemma delete_unknown uuid sid s :
  findEntry s sid = None ->
  route uuid (deleteRequest sid) s = (Send 200 [], s).
Proof.
  intros He. unfold route, mcpRoute, deleteRequest.
  cbn [method headerSid body]. rewrite He. reflexivity.
Qed.

Lemma findEntry_deleted t s :
  findEntry (deleteSession t s) (Some t) = None.
Proof.
  unfold findEntry, deleteSession. cbn [sessions].
  destruct (bool_decide (t = [])); [reflexivity | apply lookup_delete_eq].
Qed.

End RegistryFacts.

(** A second DELETE with the token of a closed session answers 200 and
    changes nothing. *)
Lemma delete_twice (isInitializeRequest : option json -> bool)
    (uuid uuid' : jsstring) (s : server) (t : jsstring) (e : SessionEntry) :
  t <> [] -> sessions s !! t = Some e ->
  let first := mcpRoute isInitializeRequest uuid (deleteRequest (Some t)) s in
  sessions first.2 !! t = None
  /\ transports first.2 !! transport e = Some Closed
  /\ mcpRoute isInitializeRequest uuid' (deleteRequest (Some t)) first.2
     = (Send 200 [], first.2).
Proof.
  intros Ht He first. subst first.
  rewrite (delete_closes isInitializeRequest uuid t e s Ht He).
  cbn [snd]. split; [apply lookup_delete_eq | ].
  split; [apply lookup_insert_eq | ].
  apply delete_unknown. apply findEntry_deleted.
Qed.

(** The bulk clear empties the registry and leaves every transport in the
    state it was in. *)
Lemma clearSessions_state (s : server) :
  sessions (clearSessions s).2 = ∅
  /\ transports (clearSessions s).2 = transports s.
Proof. split; reflexivity. Qed.

(** C6. After DELETE has closed the session of a token, a POST with that
    token that is not an initialization is answered as for a token never
    seen and as for no token at all: status 400 with the JSON-RPC error of
    code -32000, without reaching a transport, and the registry stays
    without the token; the same holds in every state for every POST that is
    not an initialization and finds no session. *)
Theorem closed_session_is_unknown
    (isInitializeRequest : option json -> bool) (uuid uuid' : jsstring)
    (s : server) (t : jsstring) (e : SessionEntry) (b : option json) :
  t <> [] -> sessions s !! t = Some e -> isInitializeRequest b = false ->
  let route := mcpRoute isInitializeRequest in
  let closed := (route uuid (deleteRequest (Some t)) s).2 in
  sessions closed !! t = None
  /\ route uuid' (postRequest (Some t) b) closed
     = (Json 400 (noSessionError b), closed)
  /\ (forall t', sessions closed !! t' = None ->
        route uuid' (postRequest (Some t') b) closed
        = route uuid' (postRequest (Some t) b) closed)
  /\ route uuid' (postRequest None b) closed
     = (Json 400 (noSessionError b), closed)
  /\ (forall s' sid, findEntry s' sid = None ->
        route uuid' (postRequest sid b) s'
        = (Json 400 (noSessionError b), s'))
  /\ errorCode (noSessionError b) = Some (JNumber (-32000)).
Proof.
  intros Ht He Hb route closed.
  assert (Hclosed : closed = deleteSession t
                               (closeTransport (transport e) s)).
  { subst closed route.
    rewrite (delete_closes isInitializeRequest uuid t e s Ht He).
    reflexivity. }
  assert (Hgone : findEntry closed (Some t) = None).
  { rewrite Hclosed. apply findEntry_deleted. }
  assert (Hpost : route uuid' (postRequest (Some t) b) closed
                  = (Json 400 (noSessionError b), closed)).
  { apply post_without_session; assumption. }
  split; [rewrite Hclosed; apply lookup_delete_eq | ].
  split; [exact Hpost | ]. split.
  - intros t' Ht'. rewrite Hpost. apply post_without_session; [ | exact Hb].
    unfold findEntry. destruct (bool_decide (t' = [])); [reflexivity | exact Ht'].
  - split; [apply post_without_session; [reflexivity | exact Hb] | ].
    split; [ | reflexivity].
    intros s' sid Hs'. apply post_without_session; assumption.
Qed.

(** C2, as amended.  For a token that is not in the registry: a POST that is
    not an initialization is answered 400 and the state is as it was, so no
    session is created; an initialization POST with that token, and a GET
    with it, each create a session under the identifier [randomUUID]
    returns and hand the request to the transport of the new session. *)
Theorem unknown_token_requests
    (isInitializeRequest : option json -> bool) (uuid : jsstring)
    (s : server) (sid : jsstring) (b : option json) :
  sessions s !! sid = None ->
  let route := mcpRoute isInitializeRequest in
  let minted := (createSession uuid s).2 in
  (isInitializeRequest b = false ->
   route uuid (postRequest (Some sid) b) s = (Json 400 (noSessionError b), s))
  /\ (isInitializeRequest b = true ->
      route uuid (postRequest (Some sid) b) s = (HandledBy (created s), minted))
  /\ route uuid (getRequest (Some sid)) s = (HandledBy (created s), minted)
  /\ sessions minted !! uuid
     = Some {| transport := created s; mcp := created s |}.
Proof.
  intros Hs route minted.
  assert (He : findEntry s (Some sid) = None).
  { unfold findEntry. destruct (bool_decide (sid = [])); [reflexivity | exact Hs]. }
  split; [intros Hb; apply post_without_session; assumption | ].
  split; [ | split].
  - intros Hb. subst route minted. unfold mcpRoute, postRequest.
    cbn [method headerSid body]. rewrite He, Hb. reflexivity.
  - subst route minted. unfold mcpRoute, getRequest.
    cbn [method headerSid body]. rewrite He. reflexivity.
  - subst minted. unfold createSession. cbn [snd sessions].
    apply lookup_insert_eq.
Qed.

(** C7. The bulk clear removes the entry of a session but does not close
    its transport, which DELETE does: after an initialization has created
    the session ["A"] with transport 0, [/admin/clear-sessions] leaves the
    registry without ["A"] and transport 0 still open, where DELETE with
    the token ["A"] leaves transport 0 closed. *)
Theorem clear_sessions_leaves_transport_open :
  let s :=
    run methodIsInitialize
      [Mcp (str "A") (postRequest None (Some initializeBody))]
      initialServer in
  let cleared := (clearSessions s).2 in
  let deleted :=
    (mcpRoute methodIsInitialize (str "B") (deleteRequest (Some (str "A"))) s).2 in
  sessions s !! str "A" = Some {| transport := 0; mcp := 0 |}
  /\ transports s !! 0%nat = Some Open
  /\ sessions cleared !! str "A" = None
  /\ transports cleared !! 0%nat = Some Open
  /\ sessions deleted !! str "A" = None
  /\ transports deleted !! 0%nat = Some Closed.
Proof. vm_compute. repeat split; reflexivity. Qed.

(** ** Node's library on examples *)

Example resolve_ex1 :
  posix.resolve (str "/home/u") [str "/base"; str "../etc/passwd"]
  = str "/etc/passwd".
Proof. vm_compute. reflexivity. Qed.

Example resolve_ex2 :
  posix.resolve (str "/home/u") [str "base//x/./y/"] = str "/home/u/base/x/y".
Proof. vm_compute. reflexivity. Qed.

Example normalize_ex1 :
  posix.normalize (str "a/../../b/") = str "../b/".
Proof. vm_compute. reflexivity. Qed.

Example dirname_ex1 :
  map posix.dirname [str "/base/a/b"; str "/a"; str "/"; str "a"; str "/a//"; str "//a"]
  = [str "/base/a"; str "/"; str "/"; str "."; str "/"; str "//"].
Proof. vm_compute. reflexivity. Qed.

Example utf8_ex1 :
  utf8Encode [104; 233; 8364; 55357; 56832] =
    [104; 195; 169; 226; 130; 172; 240; 159; 152; 128]
  /\ utf8Decode [104; 195; 169; 226; 130; 172; 240; 159; 152; 128]
     = [104; 233; 8364; 55357; 56832].
Proof. split; vm_compute; reflexivity. Qed.

Example utf8_ex2 :
  utf8Decode [226; 130] = [REPLACEMENT]
  /\ utf8Decode [226; 65] = [REPLACEMENT; 65]
  /\ utf8Decode [237; 160; 128] = [REPLACEMENT; REPLACEMENT; REPLACEMENT]
  /\ utf8Decode [192; 128] = [REPLACEMENT; REPLACEMENT].
Proof. repeat split; vm_compute; reflexivity. Qed.

(** ** The claims on the sample process *)

Lemma safePath_rejects_outside_witness :
  posix.isAbsolute sample.cwd = true
  /\ onPosix.safePath sample.cwd sample.ALLOWED_BASE
       (Some (str "../baseEvil/x"))
     = Throw (JsError
                (str "Path not allowed: /baseEvil/x (allowed base: /base)"))
  /\ onPosix.fs_delete sample.cwd sample.ALLOWED_BASE
       {| path := Some (str "../baseEvil/x") |} sample.baseWithFile
     = (Throw (JsError
                 (str "Path not allowed: /baseEvil/x (allowed base: /base)")),
        sample.baseWithFile).
Proof.
  split; [reflexivity | ].
  destruct (safePath_rejects_outside sample.cwd sample.ALLOWED_BASE
              (Some (str "../baseEvil/x")) eq_refl) as (_ & _ & H3 & H4).
  assert (Hout : ~ onPosix.contained sample.cwd sample.ALLOWED_BASE
                     (onPosix.candidate sample.cwd sample.ALLOWED_BASE
                        (Some (str "../baseEvil/x")))).
  { apply (H3 69 (str "vil/x")); [discriminate | vm_compute; reflexivity]. }
  destruct (H4 Hout) as [Hg Hw]. split; [exact Hg | ].
  apply (Hw sample.baseWithFile).
Defined.

Lemma delete_root_forbidden_witness :
  exists w',
    onPosix.fs_delete sample.cwd sample.ALLOWED_BASE
      {| path := Some (str "f/..") |} sample.baseWithFile
    = (Throw forbiddenTarget, w')
    /\ files w' = files sample.baseWithFile
    /\ calls w' = calls sample.baseWithFile.
Proof.
  apply delete_root_forbidden; [reflexivity | vm_compute; reflexivity].
Defined.

Lemma accepted_root_is_root_string_witness :
  str "/base" = onPosix.allowedBaseAbs sample.cwd sample.ALLOWED_BASE
  /\ bool_decide
       (str "/base" = onPosix.allowedBaseAbs sample.cwd sample.ALLOWED_BASE)
     = true
  /\ forall w,
       (onPosix.fs_delete sample.cwd sample.ALLOWED_BASE
          {| path := Some (str " sub/../ ") |} w).1
       = Throw forbiddenTarget.
Proof.
  apply (accepted_root_is_root_string sample.cwd sample.ALLOWED_BASE
           (Some (str " sub/../ ")) (str "/base"));
    [reflexivity | vm_compute; reflexivity | vm_compute; reflexivity].
Defined.

Lemma contained_resolve_idempotent_witness :
  exists r,
    onPosix.safePath sample.cwd sample.ALLOWED_BASE (Some (str "a/../b//c/"))
    = Ok r
    /\ posix.isAbsolute r = true
    /\ (r = onPosix.allowedBaseAbs sample.cwd sample.ALLOWED_BASE
        \/ exists suffix,
             r = onPosix.allowedBaseAbs sample.cwd sample.ALLOWED_BASE
                 ++ [posix.CHAR_FORWARD_SLASH] ++ suffix)
    /\ (trim (onPosix.relativeToRoot sample.cwd sample.ALLOWED_BASE r)
        = onPosix.relativeToRoot sample.cwd sample.ALLOWED_BASE r ->
        onPosix.safePath sample.cwd sample.ALLOWED_BASE
          (Some (onPosix.relativeToRoot sample.cwd sample.ALLOWED_BASE r))
        = Ok r).
Proof.
  apply (contained_resolve_idempotent sample.cwd sample.ALLOWED_BASE
           (Some (str "a/../b//c/")) eq_refl).
  right. exists (str "b/c"). vm_compute. reflexivity.
Defined.

(** C4 as the spec states it fails: ["./ x"] is accepted as [/base/ x], whose
    form relative to the root, [" x"], is trimmed to ["x"] and resolves to
    [/base/x]. *)
Lemma relative_form_is_trimmed :
  let guard := onPosix.safePath sample.cwd sample.ALLOWED_BASE in
  let r := str "/base/ x" in
  onPosix.contained sample.cwd sample.ALLOWED_BASE
    (onPosix.candidate sample.cwd sample.ALLOWED_BASE (Some (str "./ x")))
  /\ guard (Some (str "./ x")) = Ok r
  /\ onPosix.relativeToRoot sample.cwd sample.ALLOWED_BASE r = str " x"
  /\ guard (Some (onPosix.relativeToRoot sample.cwd sample.ALLOWED_BASE r))
     <> Ok r.
Proof.
  cbv zeta. split; [ | split; [ | split]].
  - right. exists (str " x"). vm_compute. reflexivity.
  - vm_compute. reflexivity.
  - vm_compute. reflexivity.
  - vm_compute. discriminate.
Qed.

(** With the root of the file system as root, only the root itself is
    accepted: the test looks for two separators in a row. *)
Example root_of_file_system :
  map (onPosix.safePath sample.cwd (str "/")) [Some (str ""); Some (str "etc")]
  = [Ok (str "/");
     Throw (JsError (str "Path not allowed: /etc (allowed base: /)"))].
Proof. vm_compute. reflexivity. Qed.



Lemma absent_content_is_empty_witness :
  let absent := {| write_path := Some (str "new.txt"); content := None |} in
  let written :=
    onPosix.fs_write sample.cwd sample.ALLOWED_BASE absent
      sample.baseWithFile in
  let appended :=
    onPosix.fs_append sample.cwd sample.ALLOWED_BASE absent
      sample.baseWithFile in
  written.1 = Ok (TextContent (str "Written 0 chars to /base/new.txt"))
  /\ files written.2 !! [str "base"; str "new.txt"] = Some (File [])
  /\ appended.1 = Ok (TextContent (str "Appended 0 chars to /base/new.txt"))
  /\ files appended.2 !! [str "base"; str "new.txt"] = Some (File []).
Proof.
  cbv zeta.
  destruct (absent_content_is_empty sample.cwd sample.ALLOWED_BASE
              (Some (str "new.txt")) sample.baseWithFile)
    as (_ & _ & H1 & H2).
  split; [vm_compute; reflexivity | ].
  split.
  - exact (proj2 (H1 (str "/base/new.txt")
                    (TextContent (str "Written 0 chars to /base/new.txt")) _
                    ltac:(vm_compute; reflexivity)
                    ltac:(vm_compute; reflexivity))).
  - split; [vm_compute; reflexivity | ].
    exact (proj2 (H2 (str "/base/new.txt")
                    (TextContent (str "Appended 0 chars to /base/new.txt")) _
                    ltac:(vm_compute; reflexivity)
                    ltac:(vm_compute; reflexivity))).
Defined.

(** C10 as stated fails: the empty path is the root, a directory, and
    neither [fs_write] nor [fs_append] can write to it. *)
Lemma absent_content_on_directory_throws :
  let absent := {| write_path := Some (str ""); content := None |} in
  onPosix.safePath sample.cwd sample.ALLOWED_BASE (Some (str ""))
  = Ok (str "/base")
  /\ (onPosix.fs_write sample.cwd sample.ALLOWED_BASE absent
        sample.emptyBase).1
     = Throw (FsError EISDIR (str "/base"))
  /\ (onPosix.fs_append sample.cwd sample.ALLOWED_BASE absent
        sample.emptyBase).1
     = Throw (FsError EISDIR (str "/base")).
Proof. cbv zeta. repeat split; vm_compute; reflexivity. Qed.

Lemma closed_session_is_unknown_witness :
  let closed :=
    (mcpRoute methodIsInitialize (str "B") (deleteRequest (Some (str "A")))
       sample.oneSession).2 in
  sessions closed !! str "A" = None
  /\ mcpRoute methodIsInitialize (str "C")
       (postRequest (Some (str "A")) (Some callBody)) closed
     = (Json 400 (noSessionError (Some callBody)), closed).
Proof.
  cbv zeta.
  destruct (closed_session_is_unknown methodIsInitialize (str "B") (str "C")
              sample.oneSession (str "A") {| transport := 0; mcp := 0 |}
              (Some callBody)
              ltac:(vm_compute; discriminate)
              ltac:(vm_compute; reflexivity)
              ltac:(vm_compute; reflexivity)) as (H1 & H2 & _).
  split; [exact H1 | exact H2].
Defined.

Lemma unknown_token_requests_witness :
  mcpRoute methodIsInitialize (str "B")
    (postRequest (Some (str "bogus")) (Some callBody)) sample.oneSession
  = (Json 400 (noSessionError (Some callBody)), sample.oneSession)
  /\ mcpRoute methodIsInitialize (str "B")
       (postRequest (Some (str "bogus")) (Some initializeBody))
       sample.oneSession
     = (HandledBy 1, (createSession (str "B") sample.oneSession).2).
Proof.
  split.
  - destruct (unknown_token_requests methodIsInitialize (str "B")
                sample.oneSession (str "bogus") (Some callBody)
                ltac:(vm_compute; reflexivity)) as (H1 & _).
    apply H1. vm_compute. reflexivity.
  - destruct (unknown_token_requests methodIsInitialize (str "B")
                sample.oneSession (str "bogus") (Some initializeBody)
                ltac:(vm_compute; reflexivity)) as (_ & H2 & _).
    apply H2. vm_compute. reflexivity.
Defined.

(** C2 as stated fails: with the session ["A"] open, a GET that carries the
    token ["bogus"], which is not in the registry, is handed to a new
    transport and leaves a new session ["B"] in the registry. *)
Lemma unknown_token_get_mints_session :
  let out :=
    mcpRoute methodIsInitialize (str "B") (getRequest (Some (str "bogus")))
      sample.oneSession in
  sessions sample.oneSession !! str "A" = Some {| transport := 0; mcp := 0 |}
  /\ sessions sample.oneSession !! str "bogus" = None
  /\ sessions sample.oneSession !! str "B" = None
  /\ out.1 = HandledBy 1
  /\ sessions out.2 !! str "B" = Some {| transport := 1; mcp := 1 |}.
Proof. cbv zeta. repeat split; vm_compute; reflexivity. Qed.

(** * What the tools change *)

(** ** The file tree: removals and entries left alone *)

Lemma rmRecursive_outside (fs : tree) (key k : list jsstring) :
  ~ key `prefix_of` k -> rmRecursive fs key !! k = fs !! k.
Proof.
  intros Hk. unfold rmRecursive. destruct (fs !! k) as [n | ] eqn:E.
  - apply map_lookup_filter_Some. split; [exact E | exact Hk].
  - apply map_lookup_filter_None. left. exact E.
Qed.

Lemma rmRecursive_below (fs : tree) (key k : list jsstring) :
  key `prefix_of` k -> rmRecursive fs key !! k = None.
Proof.
  intros Hk. unfold rmRecursive. apply map_lookup_filter_None. right.
  intros n _ Hn. apply Hn. exact Hk.
Qed.

Lemma unlinkNode_ok (fs : tree) (key : list jsstring) (fs' : tree) :
  unlinkNode fs key = inr fs' ->
  fs' = delete key fs /\ exists d, fs !! key = Some (File d).
Proof.
  unfold unlinkNode, nodeAt. destruct (parentError fs key); [discriminate | ].
  destruct (decide (key = [])); [discriminate | ].
  destruct (fs !! key) as [[d | ] | ]; try discriminate.
  intros [= <-]. eauto.
Qed.

Lemma writeNode_other (append : bool) (fs : tree) (key : list jsstring)
    (data : buffer) (fs' : tree) (k : list jsstring) :
  writeNode append fs key data = inr fs' -> k <> key -> fs' !! k = fs !! k.
Proof.
  intros H Hk. apply writeNode_ok in H as (_ & _ & _ & ->).
  apply lookup_insert_ne. congruence.
Qed.

Lemma mkdirRecursive_keeps (fs : tree) (d : list jsstring) (fs' : tree)
    (k : list jsstring) (n : node) :
  mkdirRecursive fs d = inr fs' -> fs !! k = Some n -> fs' !! k = Some n.
Proof.
  intros H Hk. destruct (mkdirFrom_lookup _ _ _ _ k H) as [E | [E _]];
    congruence.
Qed.

(** ** An entry outside the root survives every tool *)

Section Outside.

Context {P : PathModule}.
Variable allowedBaseAbs : jsstring.
Variable pathKey : jsstring -> list jsstring.

(** What the guard accepts is named below the root. *)
Hypothesis accepted_below : forall raw abs,
  safePath allowedBaseAbs raw = Ok abs ->
  pathKey allowedBaseAbs `prefix_of` pathKey abs.

Variable k : list jsstring.
Variable n : node.
Hypothesis outside : ~ pathKey allowedBaseAbs `prefix_of` k.

Lemma outside_ne raw abs :
  safePath allowedBaseAbs raw = Ok abs -> k <> pathKey abs.
Proof. intros H ->. apply outside. exact (accepted_below raw abs H). Qed.

Lemma outside_not_below raw abs :
  safePath allowedBaseAbs raw = Ok abs -> ~ pathKey abs `prefix_of` k.
Proof.
  intros H Hp. apply outside.
  etransitivity; [exact (accepted_below raw abs H) | exact Hp].
Qed.

Lemma reads_keep args w :
  files (fs_read allowedBaseAbs pathKey args w).2 = files w
  /\ files (read_file allowedBaseAbs pathKey args w).2 = files w.
Proof.
  unfold fs_read, read_file. unfold_monad.
  destruct (safePath allowedBaseAbs (read_path args)) as [abs | e];
    [ | split; reflexivity].
  cbn [files calls console].
  destruct (statNode (files w) (pathKey abs)) as [e | [ | ]];
    cbn [files calls console fst snd]; [split; reflexivity | | split; reflexivity].
  destruct (readNode (files w) (pathKey abs)) as [e | buf];
    cbn [files calls console fst snd]; split; reflexivity.
Qed.

Lemma writes_keep (append : bool) args w :
  files w !! k = Some n ->
  files ((if append then fs_append allowedBaseAbs pathKey
          else fs_write allowedBaseAbs pathKey) args w).2 !! k = Some n
  /\ files (write_file allowedBaseAbs pathKey args w).2 !! k = Some n.
Proof.
  intros Hk.
  assert (Hgen : forall ap fs1 e,
            safePath allowedBaseAbs (write_path args) = Ok e ->
            fs1 !! k = Some n ->
            match writeNode ap fs1 (pathKey e)
                    (utf8Encode (default [] (content args))) with
            | inl _ => fs1 !! k = Some n
            | inr fs2 => fs2 !! k = Some n
            end).
  { intros ap fs1 e He H1.
    destruct (writeNode ap fs1 (pathKey e) _) as [err | fs2] eqn:Ew;
      [exact H1 | ].
    rewrite (writeNode_other _ _ _ _ _ k Ew (outside_ne _ _ He)). exact H1. }
  split.
  - destruct append; unfold fs_append, fs_write; unfold_monad;
      (destruct (safePath allowedBaseAbs (write_path args)) as [abs | e] eqn:Eg;
       [ | exact Hk]);
      cbn [files calls console];
      (destruct (mkdirRecursive (files w) (pathKey (dirname abs)))
         as [e | fs1] eqn:Em; cbn [files calls console fst snd];
       [exact Hk | ]);
      pose proof (mkdirRecursive_keeps _ _ _ k n Em Hk) as H1.
    + specialize (Hgen true fs1 abs eq_refl H1).
      destruct (writeNode true fs1 (pathKey abs) _);
        cbn [files calls console fst snd]; exact Hgen.
    + specialize (Hgen false fs1 abs eq_refl H1).
      destruct (writeNode false fs1 (pathKey abs) _);
        cbn [files calls console fst snd]; exact Hgen.
  - unfold write_file; unfold_monad.
    destruct (safePath allowedBaseAbs (write_path args)) as [abs | e] eqn:Eg;
      [ | exact Hk].
    cbn [files calls console].
    destruct (mkdirRecursive (files w) (pathKey (dirname abs)))
      as [e | fs1] eqn:Em; cbn [files calls console fst snd]; [exact Hk | ].
    pose proof (mkdirRecursive_keeps _ _ _ k n Em Hk) as H1.
    specialize (Hgen false fs1 abs eq_refl H1).
    destruct (writeNode false fs1 (pathKey abs) _);
      cbn [files calls console fst snd]; exact Hgen.
Qed.

Lemma mkdir_keeps args w :
  files w !! k = Some n ->
  files (fs_mkdir allowedBaseAbs pathKey args w).2 !! k = Some n.
Proof.
  intros Hk. unfold fs_mkdir. unfold_monad.
  destruct (safePath allowedBaseAbs (path args)) as [abs | e]; [ | exact Hk].
  cbn [files calls console].
  destruct (mkdirRecursive (files w) (pathKey abs)) as [e | fs1] eqn:Em;
    cbn [files calls console fst snd]; [exact Hk | ].
  exact (mkdirRecursive_keeps _ _ _ k n Em Hk).
Qed.

Lemma delete_keeps args w :
  files w !! k = Some n ->
  files (fs_delete allowedBaseAbs pathKey args w).2 !! k = Some n.
Proof.
  intros Hk. unfold fs_delete. unfold_monad.
  destruct (safePath allowedBaseAbs (path args)) as [abs | e] eqn:Eg;
    [ | exact Hk].
  cbn [files calls console].
  destruct (bool_decide (abs = allowedBaseAbs)); [exact Hk | ].
  cbn [files calls console].
  destruct (statNode (files w) (pathKey abs)) as [e | [ | ]];
    cbn [files calls console fst snd]; [exact Hk | | ].
  - destruct (unlinkNode (files w) (pathKey abs)) as [e | fs1] eqn:Eu;
      cbn [files calls console fst snd]; [exact Hk | ].
    apply unlinkNode_ok in Eu as [-> _].
    rewrite lookup_delete_ne; [exact Hk | ].
    apply not_eq_sym, (outside_ne _ _ Eg).
  - rewrite rmRecursive_outside; [exact Hk | ].
    exact (outside_not_below _ _ Eg).
Qed.

End Outside.

(** X1. No tool changes or removes an entry that exists outside the root:
    an entry whose names do not start with the names of [allowedBaseAbs]
    is still there, unchanged, after [fs_read], [read_file], [fs_write],
    [write_file], [fs_append], [fs_mkdir] or [fs_delete], whatever the
    arguments and whether the tool returns or throws. *)
Theorem tools_keep_entries_outside_root
    (cwd ALLOWED_BASE : jsstring) (w : world) (k : list jsstring) (n : node) :
  posix.isAbsolute cwd = true ->
  files w !! k = Some n ->
  ~ onPosix.pathKey cwd (onPosix.allowedBaseAbs cwd ALLOWED_BASE)
      `prefix_of` k ->
  (forall a, files (onPosix.fs_read cwd ALLOWED_BASE a w).2 !! k = Some n)
  /\ (forall a, files (onPosix.read_file cwd ALLOWED_BASE a w).2 !! k = Some n)
  /\ (forall a, files (onPosix.fs_write cwd ALLOWED_BASE a w).2 !! k = Some n)
  /\ (forall a, files (onPosix.write_file cwd ALLOWED_BASE a w).2 !! k = Some n)
  /\ (forall a, files (onPosix.fs_append cwd ALLOWED_BASE a w).2 !! k = Some n)
  /\ (forall a, files (onPosix.fs_mkdir cwd ALLOWED_BASE a w).2 !! k = Some n)
  /\ (forall a, files (onPosix.fs_delete cwd ALLOWED_BASE a w).2 !! k = Some n).
Proof.
  intros Hcwd Hk Hout.
  assert (Hbelow : forall raw abs,
            onPosix.safePath cwd ALLOWED_BASE raw = Ok abs ->
            onPosix.pathKey cwd (onPosix.allowedBaseAbs cwd ALLOWED_BASE)
              `prefix_of` onPosix.pathKey cwd abs).
  { intros raw abs Hg.
    destruct (guard_accepted cwd ALLOWED_BASE Hcwd raw abs Hg) as [Hres Hc].
    exact (contained_names cwd ALLOWED_BASE Hcwd abs Hres Hc). }
  repeat split; intros a.
  - unfold onPosix.fs_read. rewrite (proj1 (reads_keep _ _ a w)). exact Hk.
  - unfold onPosix.read_file. rewrite (proj2 (reads_keep _ _ a w)). exact Hk.
  - exact (proj1 (writes_keep _ _ Hbelow k n Hout false a w Hk)).
  - exact (proj2 (writes_keep _ _ Hbelow k n Hout false a w Hk)).
  - exact (proj1 (writes_keep _ _ Hbelow k n Hout true a w Hk)).
  - exact (mkdir_keeps _ _ k n a w Hk).
  - exact (delete_keeps _ _ Hbelow k n Hout a w Hk).
Qed.

(** X2. Reading never modifies: after [fs_read] or [read_file] the tree is
    the tree before, and the only [fs] calls they add are [stat] and
    [readFile], whatever the arguments and the outcome. *)
Theorem reads_change_nothing {P : PathModule} (allowedBaseAbs : jsstring)
    (pathKey : jsstring -> list jsstring) (args : readArgs) (w : world) :
  let onlyReads added :=
    Forall (fun c => exists p, c = CallStat p \/ c = CallReadFile p) added in
  (files (fs_read allowedBaseAbs pathKey args w).2 = files w
   /\ exists added,
        calls (fs_read allowedBaseAbs pathKey args w).2 = added ++ calls w
        /\ onlyReads added)
  /\ (files (read_file allowedBaseAbs pathKey args w).2 = files w
      /\ exists added,
           calls (read_file allowedBaseAbs pathKey args w).2
           = added ++ calls w
           /\ onlyReads added).
Proof.
  intros onlyReads. subst onlyReads.
  unfold fs_read, read_file. unfold_monad.
  destruct (safePath allowedBaseAbs (read_path args)) as [abs | e].
  2: { split; (split; [reflexivity | ]); exists []; split;
         (reflexivity || constructor). }
  cbn [files calls console].
  assert (H1 : Forall (fun c => exists p, c = CallStat p \/ c = CallReadFile p)
                 [CallStat abs]).
  { repeat constructor. eauto. }
  assert (H2 : Forall (fun c => exists p, c = CallStat p \/ c = CallReadFile p)
                 [CallReadFile abs; CallStat abs]).
  { repeat constructor; eauto. }
  destruct (statNode (files w) (pathKey abs)) as [e | [ | ]];
    cbn [files calls console fst snd].
  - split; (split; [reflexivity | ]); exists [CallStat abs]; split;
      (reflexivity || exact H1).
  - destruct (readNode (files w) (pathKey abs)) as [e | buf];
      cbn [files calls console fst snd];
      split; (split; [reflexivity | ]);
      exists [CallReadFile abs; CallStat abs]; split;
      (reflexivity || exact H2).
  - split; (split; [reflexivity | ]); exists [CallStat abs]; split;
      (reflexivity || exact H1).
Qed.

(** * How the tools compose *)

Section Compose.

Variables cwd ALLOWED_BASE : jsstring.

Variable p : option jsstring.
Variable abs : jsstring.
Hypothesis accepted : onPosix.safePath cwd ALLOWED_BASE p = Ok abs.

Let key := onPosix.pathKey cwd abs.
Let write (c : jsstring) :=
  onPosix.fs_write cwd ALLOWED_BASE {| write_path := p; content := Some c |}.
Let append (c : jsstring) :=
  onPosix.fs_append cwd ALLOWED_BASE {| write_path := p; content := Some c |}.
Let read (mb : option Z) (w : world) :=
  (onPosix.fs_read cwd ALLOWED_BASE {| read_path := p; maxBytes := mb |} w).1.

(** A write that returned: the place holds the bytes of the text. *)
Lemma write_step c w m w1 :
  write c w = (Ok m, w1) ->
  statNode (files w1) key = inr IsFile
  /\ readNode (files w1) key = inr (utf8Encode c)
  /\ bytesAt (files w1) key = utf8Encode c.
Proof.
  intros H. pose proof accepted as Ha. unfold onPosix.safePath in Ha.
  apply fs_write_returned in H as (abs1 & Hg1 & _ & Hs & Hr & Hf).
  cbn [write_path content] in *. simpl default in *.
  assert (abs1 = abs) by congruence. subst abs1.
  split; [exact Hs | ]. split; [exact Hr | ].
  unfold bytesAt, key. rewrite Hf. reflexivity.
Qed.

(** An append that returned: the place holds the bytes it held, followed
    by the bytes of the text. *)
Lemma append_step c w m w1 :
  append c w = (Ok m, w1) ->
  statNode (files w1) key = inr IsFile
  /\ readNode (files w1) key = inr (bytesAt (files w) key ++ utf8Encode c)
  /\ bytesAt (files w1) key = bytesAt (files w) key ++ utf8Encode c.
Proof.
  intros H. pose proof accepted as Ha. unfold onPosix.safePath in Ha.
  apply fs_append_returned in H as (abs1 & Hg1 & _ & Hs & Hr & Hf).
  cbn [write_path content] in *. simpl default in *.
  assert (abs1 = abs) by congruence. subst abs1.
  split; [exact Hs | ]. split; [exact Hr | ].
  unfold bytesAt at 1. unfold key. rewrite Hf. reflexivity.
Qed.

(** Reading a file, with a limit or with the default one. *)
Lemma read_step mb w buf :
  statNode (files w) key = inr IsFile ->
  readNode (files w) key = inr buf ->
  (0 <= default DEFAULT_LIMIT mb)%Z ->
  read mb w
  = Ok (TextContent
          (utf8Decode (take (Z.to_nat (default DEFAULT_LIMIT mb)) buf))).
Proof.
  intros Hs Hr Hm. unfold read, onPosix.fs_read.
  rewrite (fs_read_file _ (onPosix.pathKey cwd)
             {| read_path := p; maxBytes := mb |} w abs buf accepted Hs Hr).
  cbn [maxBytes]. rewrite readText_firstBytes by exact Hm.
  rewrite firstBytes_take. reflexivity.
Qed.

End Compose.

(** The path a write that returned was made to. *)
Lemma written_path (cwd ALLOWED_BASE : jsstring) (args : writeArgs)
    (w : world) (m : toolResult) (w1 : world) :
  onPosix.fs_write cwd ALLOWED_BASE args w = (Ok m, w1) ->
  exists abs, onPosix.safePath cwd ALLOWED_BASE (write_path args) = Ok abs.
Proof.
  intros H. apply fs_write_returned in H as (abs & Hg & _). eauto.
Qed.

(** X3. A read with a limit returns the start of what was written and no
    more: whenever [fs_write(p, c)] returns, [fs_read(p)] with
    [maxBytes = m > 0] then returns the decoding of the first [m] bytes of
    the encoding of [c]; for ASCII [c] that is the first [m] characters of
    [c], and all of [c] when [m] is at least its length. *)
Theorem write_then_read_with_limit
    (cwd ALLOWED_BASE : jsstring) (p : option jsstring) (c : jsstring)
    (m : Z) (msg : toolResult) (w wc : world) :
  (0 < m)%Z ->
  onPosix.fs_write cwd ALLOWED_BASE
    {| write_path := p; content := Some c |} w = (Ok msg, wc) ->
  (onPosix.fs_read cwd ALLOWED_BASE
     {| read_path := p; maxBytes := Some m |} wc).1
  = Ok (TextContent (utf8Decode (take (Z.to_nat m) (utf8Encode c))))
  /\ (Forall (fun u => u < 128) c ->
      (onPosix.fs_read cwd ALLOWED_BASE
         {| read_path := p; maxBytes := Some m |} wc).1
      = Ok (TextContent (take (Z.to_nat m) c))
      /\ (Z.of_nat (length c) <= m ->
          (onPosix.fs_read cwd ALLOWED_BASE
             {| read_path := p; maxBytes := Some m |} wc).1
          = Ok (TextContent c))%Z).
Proof.
  intros Hm H.
  destruct (written_path _ _ _ _ _ _ H) as [abs Hg]. cbn [write_path] in Hg.
  destruct (write_step cwd ALLOWED_BASE p abs Hg c w msg wc H)
    as (Hs & Hr & _).
  pose proof (read_step cwd ALLOWED_BASE p abs Hg (Some m) wc _ Hs Hr) as Hread.
  simpl default in Hread. specialize (Hread ltac:(lia)).
  split; [exact Hread | ]. intros Hc.
  assert (Hcut : (onPosix.fs_read cwd ALLOWED_BASE
                    {| read_path := p; maxBytes := Some m |} wc).1
                 = Ok (TextContent (take (Z.to_nat m) c))).
  { rewrite Hread, utf8Encode_ascii by exact Hc.
    rewrite utf8Decode_ascii by (apply Forall_take; exact Hc). reflexivity. }
  split; [exact Hcut | ]. intros Hlen.
  rewrite Hcut, take_ge by lia. reflexivity.
Qed.

(** X4. A write replaces, an append extends: whenever the two calls return,
    [fs_write(p, c1)] then [fs_write(p, c2)] reads back as [c2] alone;
    [fs_write(p, c1)] then [fs_append(p, a)] reads back as [c1] followed by
    [a]; and [fs_append(p, a)] then [fs_write(p, c1)] reads back as [c1]
    alone (each read with the default limit, on the encoded bytes). *)
Theorem write_replaces_append_extends
    (cwd ALLOWED_BASE : jsstring) (p : option jsstring) (c1 c2 a : jsstring)
    (w : world) :
  let write c :=
    onPosix.fs_write cwd ALLOWED_BASE {| write_path := p; content := Some c |} in
  let append c :=
    onPosix.fs_append cwd ALLOWED_BASE {| write_path := p; content := Some c |} in
  let read w :=
    (onPosix.fs_read cwd ALLOWED_BASE
       {| read_path := p; maxBytes := None |} w).1 in
  let text bytes :=
    Ok (TextContent (utf8Decode (take (Z.to_nat DEFAULT_LIMIT) bytes))) in
  (forall m1 w1 m2 w2,
     write c1 w = (Ok m1, w1) -> write c2 w1 = (Ok m2, w2) ->
     read w2 = text (utf8Encode c2))
  /\ (forall m1 w1 m2 w2,
        write c1 w = (Ok m1, w1) -> append a w1 = (Ok m2, w2) ->
        read w2 = text (utf8Encode c1 ++ utf8Encode a))
  /\ (forall m1 w1 m2 w2,
        append a w = (Ok m1, w1) -> write c1 w1 = (Ok m2, w2) ->
        read w2 = text (utf8Encode c1)).
Proof.
  intros write append read text.
  assert (Hdef : (0 <= default DEFAULT_LIMIT None)%Z)
    by (simpl; unfold DEFAULT_LIMIT; lia).
  split; [ | split]; intros m1 w1 m2 w2 H1 H2.
  - destruct (written_path _ _ _ _ _ _ H2) as [abs Hg]. cbn [write_path] in Hg.
    destruct (write_step cwd ALLOWED_BASE p abs Hg c2 w1 m2 w2 H2)
      as (Hs & Hr & _).
    exact (read_step cwd ALLOWED_BASE p abs Hg None w2 _ Hs Hr Hdef).
  - destruct (written_path _ _ _ _ _ _ H1) as [abs Hg]. cbn [write_path] in Hg.
    destruct (write_step cwd ALLOWED_BASE p abs Hg c1 w m1 w1 H1)
      as (_ & _ & Hb).
    destruct (append_step cwd ALLOWED_BASE p abs Hg a w1 m2 w2 H2)
      as (Hs & Hr & _).
    rewrite Hb in Hr.
    exact (read_step cwd ALLOWED_BASE p abs Hg None w2 _ Hs Hr Hdef).
  - destruct (written_path _ _ _ _ _ _ H2) as [abs Hg]. cbn [write_path] in Hg.
    destruct (write_step cwd ALLOWED_BASE p abs Hg c1 w1 m2 w2 H2)
      as (Hs & Hr & _).
    exact (read_step cwd ALLOWED_BASE p abs Hg None w2 _ Hs Hr Hdef).
Qed.

(** ** Directories *)

Lemma prefix_same_length {A} (k d rest : list A) :
  k `prefix_of` d ++ rest -> length k = length d -> k = d.
Proof.
  intros [t Ht] Hlen.
  apply (f_equal (take (length d))) in Ht.
  rewrite take_app_length in Ht. rewrite <- Hlen in Ht.
  rewrite take_app_length in Ht. congruence.
Qed.

(** After [mkdir -p], every name on the way is a directory. *)
Lemma mkdirFrom_way rest : forall pre fs fs' k,
  mkdirFrom pre rest fs = inr fs' ->
  k `prefix_of` pre ++ rest -> (length pre < length k)%nat ->
  fs' !! k = Some Dir.
Proof.
  induction rest as [ | name rest IH]; intros pre fs fs' k; simpl.
  - intros _ Hk Hlen. apply prefix_length in Hk.
    rewrite app_nil_r in Hk. lia.
  - intros H Hk Hlen.
    assert (Hd : pre ++ [name] <> []) by (destruct pre; discriminate).
    replace (pre ++ name :: rest) with ((pre ++ [name]) ++ rest) in Hk
      by (rewrite <- app_assoc; reflexivity).
    assert (Hstep : forall fs1,
              fs1 !! (pre ++ [name]) = Some Dir ->
              mkdirFrom (pre ++ [name]) rest fs1 = inr fs' ->
              fs' !! k = Some Dir).
    { intros fs1 Hdir Hm.
      destruct (decide (length k = length (pre ++ [name]))) as [E | E].
      - rewrite (prefix_same_length _ _ _ Hk E).
        destruct (mkdirFrom_lookup _ _ _ _ (pre ++ [name]) Hm) as [E' | [E' _]];
          congruence.
      - apply (IH _ _ _ _ Hm Hk). rewrite length_app in *. simpl in *. lia. }
    unfold nodeAt in H.
    destruct (decide (pre ++ [name] = [])); [contradiction | ].
    destruct (fs !! (pre ++ [name])) as [[d | ] | ] eqn:E.
    + discriminate.
    + exact (Hstep fs E H).
    + apply (Hstep _ (lookup_insert_eq _ _ _) H).
Qed.

(** [mkdir -p] of what it has just made changes nothing. *)
Lemma mkdirFrom_again rest : forall pre fs fs',
  mkdirFrom pre rest fs = inr fs' -> mkdirFrom pre rest fs' = inr fs'.
Proof.
  induction rest as [ | name rest IH]; intros pre fs fs'; simpl;
    [reflexivity | ].
  assert (Hd : pre ++ [name] <> []) by (destruct pre; discriminate).
  assert (Hstep : forall fs1,
            fs1 !! (pre ++ [name]) = Some Dir ->
            mkdirFrom (pre ++ [name]) rest fs1 = inr fs' ->
            match nodeAt fs' (pre ++ [name]) with
            | Some Dir => mkdirFrom (pre ++ [name]) rest fs'
            | Some (File _) =>
                inl match rest with [] => EEXIST | _ :: _ => ENOTDIR end
            | None =>
                mkdirFrom (pre ++ [name]) rest (<[pre ++ [name] := Dir]> fs')
            end = inr fs').
  { intros fs1 Hdir Hm.
    assert (E : nodeAt fs' (pre ++ [name]) = Some Dir).
    { unfold nodeAt. destruct (decide (pre ++ [name] = [])); [reflexivity | ].
      destruct (mkdirFrom_lookup _ _ _ _ (pre ++ [name]) Hm) as [E' | [E' _]];
        congruence. }
    rewrite E. exact (IH _ _ _ Hm). }
  unfold nodeAt at 1. destruct (decide (pre ++ [name] = [])); [contradiction | ].
  destruct (fs !! (pre ++ [name])) as [[d | ] | ] eqn:E.
  - discriminate.
  - exact (Hstep fs E).
  - exact (Hstep _ (lookup_insert_eq _ _ _)).
Qed.

(** X5. [fs_mkdir] makes the directory and every missing directory on the
    way, loses nothing, and can be repeated: whenever [fs_mkdir] of an
    accepted path returns, it returns "Directory created", after it the
    path and all its ancestors are directories, every entry that existed is
    unchanged, whatever is new is a directory on the way, and a second
    [fs_mkdir] of the same path returns the same and leaves the tree as it
    is. *)
Theorem mkdir_creates_the_way {P : PathModule} (allowedBaseAbs : jsstring)
    (pathKey : jsstring -> list jsstring)
    (raw : option jsstring) (abs : jsstring) (msg : toolResult)
    (w w1 : world) :
  safePath allowedBaseAbs raw = Ok abs ->
  fs_mkdir allowedBaseAbs pathKey {| path := raw |} w = (Ok msg, w1) ->
  msg = TextContent (str "Directory created: " ++ abs)
  /\ (forall k, k `prefix_of` pathKey abs -> nodeAt (files w1) k = Some Dir)
  /\ (forall k n, files w !! k = Some n -> files w1 !! k = Some n)
  /\ (forall k, ~ k `prefix_of` pathKey abs -> files w1 !! k = files w !! k)
  /\ (forall k, files w1 !! k = files w !! k
                \/ (files w !! k = None /\ files w1 !! k = Some Dir))
  /\ exists w2,
       fs_mkdir allowedBaseAbs pathKey {| path := raw |} w1 = (Ok msg, w2)
       /\ files w2 = files w1.
Proof.
  intros Hg Hrun.
  assert (Hm : mkdirRecursive (files w) (pathKey abs) = inr (files w1)
               /\ msg = TextContent (str "Directory created: " ++ abs)).
  { revert Hrun. unfold fs_mkdir. unfold_monad. cbn [path].
    rewrite Hg. cbn [files calls console].
    destruct (mkdirRecursive (files w) (pathKey abs)) as [e | fs1];
      cbn [files calls console]; [discriminate | ].
    intros [= <- <-]. split; reflexivity. }
  destruct Hm as [Hm ->].
  split; [reflexivity | ]. split; [ | split; [ | split; [ | split]]].
  - intros k Hk. unfold nodeAt. destruct (decide (k = [])); [reflexivity | ].
    apply (mkdirFrom_way _ _ _ _ k Hm Hk).
    destruct k; [contradiction | simpl; lia].
  - intros k n. exact (mkdirRecursive_keeps _ _ _ k n Hm).
  - intros k Hk. exact (mkdirFrom_other _ _ _ _ k Hm Hk).
  - intros k. exact (mkdirFrom_lookup _ _ _ _ k Hm).
  - pose proof (mkdirFrom_again _ _ _ _ Hm) as Hm2.
    unfold fs_mkdir. unfold_monad. cbn [path].
    rewrite Hg. cbn [files calls console].
    change (mkdirFrom [] (pathKey abs) (files w1))
      with (mkdirRecursive (files w1) (pathKey abs)) in Hm2.
    rewrite Hm2. cbn [files calls console].
    eexists. split; reflexivity.
Qed.

(** ** Deleting *)

Lemma statNode_ok (fs : tree) (k : list jsstring) (st : stats) :
  statNode fs k = inr st ->
  parentError fs k = None
  /\ nodeAt fs k = Some (match st with IsFile => File (bytesAt fs k)
                                       | IsDirectory => Dir end).
Proof.
  unfold statNode, bytesAt, nodeAt. destruct (parentError fs k); [discriminate | ].
  destruct (decide (k = [])).
  - intros [= <-]. split; reflexivity.
  - destruct (fs !! k) as [[d | ] | ]; intros [= <-]; split; reflexivity.
Qed.

Lemma nodeAt_same (fs fs' : tree) (k : list jsstring) :
  fs' !! k = fs !! k -> nodeAt fs' k = nodeAt fs k.
Proof. intros H. unfold nodeAt. rewrite H. reflexivity. Qed.

(** X6. [fs_delete] below the root removes the target and what is below it,
    and nothing else: for an accepted path other than the root whose target
    exists, it returns "Deleted", the target is gone, every entry not below
    the target is as before (so the root itself stays), a directory loses
    everything below it, a file is the only entry removed; deleting again
    throws ENOENT and changes nothing. *)
Theorem delete_removes_target_only
    (cwd ALLOWED_BASE : jsstring) (raw : option jsstring) (abs : jsstring)
    (st : stats) (w : world) :
  posix.isAbsolute cwd = true ->
  onPosix.safePath cwd ALLOWED_BASE raw = Ok abs ->
  abs <> onPosix.allowedBaseAbs cwd ALLOWED_BASE ->
  statNode (files w) (onPosix.pathKey cwd abs) = inr st ->
  let key := onPosix.pathKey cwd abs in
  let rootKey :=
    onPosix.pathKey cwd (onPosix.allowedBaseAbs cwd ALLOWED_BASE) in
  exists w1,
    onPosix.fs_delete cwd ALLOWED_BASE {| path := raw |} w
    = (Ok (TextContent (str "Deleted: " ++ abs)), w1)
    /\ files w1 !! key = None
    /\ (forall k, ~ key `prefix_of` k -> files w1 !! k = files w !! k)
    /\ files w1 !! rootKey = files w !! rootKey
    /\ (st = IsDirectory ->
        forall k, key `prefix_of` k -> files w1 !! k = None)
    /\ (st = IsFile -> forall k, k <> key -> files w1 !! k = files w !! k)
    /\ exists w2,
         onPosix.fs_delete cwd ALLOWED_BASE {| path := raw |} w1
         = (Throw (FsError ENOENT abs), w2)
         /\ files w2 = files w1.
Proof.
  intros Hcwd Hg Hne Hst key rootKey. fold key in Hst.
  destruct (guard_accepted cwd ALLOWED_BASE Hcwd raw abs Hg) as [Hres Hc].
  pose proof (contained_names cwd ALLOWED_BASE Hcwd abs Hres Hc) as Hbelow.
  fold key rootKey in Hbelow.
  assert (Hroot : ~ key `prefix_of` rootKey).
  { intros Hp. apply Hne.
    apply (posix_facts.resolved_pathKey_inj cwd);
      [exact Hres | apply root_resolved, Hcwd | ].
    apply (anti_symm prefix); assumption. }
  assert (Hkey : key <> []).
  { intros E. apply Hroot. rewrite E. apply prefix_nil. }
  destruct (statNode_ok _ _ _ Hst) as [Hp Hn]. fold key in Hp, Hn.
  assert (Hfalse : bool_decide (abs = onPosix.allowedBaseAbs cwd ALLOWED_BASE)
                   = false) by (apply bool_decide_eq_false_2, Hne).
  (* the tree after the removal *)
  set (fs1 := match st with
              | IsFile => delete key (files w)
              | IsDirectory => rmRecursive (files w) key
              end).
  assert (Hrun : exists w1,
            onPosix.fs_delete cwd ALLOWED_BASE {| path := raw |} w
            = (Ok (TextContent (str "Deleted: " ++ abs)), w1)
            /\ files w1 = fs1).
  { unfold onPosix.fs_delete, fs_delete. unfold_monad. cbn [path].
    unfold onPosix.safePath in Hg. rewrite Hg. cbn [files calls console].
    rewrite Hfalse.
    cbn [files calls console]. fold (onPosix.pathKey cwd abs). fold key.
    rewrite Hst. cbn [files calls console]. destruct st.
    - cbn [files calls console]. unfold unlinkNode. rewrite Hp, Hn.
      cbn [files calls console]. eexists. split; reflexivity.
    - cbn [files calls console]. eexists. split; reflexivity. }
  destruct Hrun as (w1 & H1 & Hf1).
  assert (Hgone : fs1 !! key = None).
  { subst fs1. destruct st; [apply lookup_delete_eq | ].
    apply rmRecursive_below. reflexivity. }
  assert (Hother : forall k, ~ key `prefix_of` k -> fs1 !! k = files w !! k).
  { intros k Hk. subst fs1. destruct st.
    - apply lookup_delete_ne. intros <-. apply Hk. reflexivity.
    - apply rmRecursive_outside. exact Hk. }
  exists w1. split; [exact H1 | ]. rewrite Hf1.
  split; [exact Hgone | ]. split; [exact Hother | ].
  split; [exact (Hother rootKey Hroot) | ].
  split; [ | split].
  - intros -> k Hk. apply rmRecursive_below. exact Hk.
  - intros -> k Hk. apply lookup_delete_ne. congruence.
  - assert (Hst1 : statNode (files w1) key = inl ENOENT).
    { rewrite Hf1. unfold statNode, parentError in *.
      rewrite (nodeAt_same (files w) fs1 (removelast key))
        by (apply Hother, removelast_not_prefix, Hkey).
      destruct (nodeAt (files w) (removelast key)) as [[d | ] | ];
        try discriminate.
      unfold nodeAt. destruct (decide (key = [])); [contradiction | ].
      rewrite Hgone. reflexivity. }
    unfold onPosix.fs_delete, fs_delete. unfold_monad. cbn [path].
    unfold onPosix.safePath in Hg. rewrite Hg. cbn [files calls console].
    rewrite Hfalse.
    cbn [files calls console]. fold (onPosix.pathKey cwd abs). fold key.
    rewrite Hst1. eexists. split; [reflexivity | exact Hf1].
Qed.

(** * The guard: what it returns *)

Lemma resolve_one (cwd t : jsstring) :
  posix.isAbsolute t = true ->
  posix.resolve cwd [t]
  = posix.CHAR_FORWARD_SLASH
    :: posix.join (posix.normalizeSegments false
                     (posix.split (t ++ [posix.CHAR_FORWARD_SLASH]))).
Proof.
  intros Ha. apply posix_facts.resolve_found. simpl.
  destruct (decide (t = [])) as [-> | _]; [discriminate | ].
  rewrite Ha. reflexivity.
Qed.


(** [resolve] of a resolved path is the path. *)
Lemma resolve_of_resolved (cwd r : jsstring) :
  posix.resolved r -> posix.resolve cwd [r] = r.
Proof.
  intros Hr. rewrite (resolve_one cwd r (posix_facts.resolved_isAbsolute r Hr)).
  destruct Hr as (cs & Hcs & ->). f_equal. f_equal.
  replace ((posix.CHAR_FORWARD_SLASH :: posix.join cs)
           ++ [posix.CHAR_FORWARD_SLASH])
    with ((posix.CHAR_FORWARD_SLASH :: posix.join cs)
          ++ posix.CHAR_FORWARD_SLASH :: []) by reflexivity.
  rewrite posix_facts.split_app_sep.
  change (posix.split []) with [@nil N].
  rewrite posix_facts.normalizeSegments_skip_last.
  destruct cs as [ | c cs]; [reflexivity | ].
  rewrite posix_facts.split_resolved by (exact Hcs || discriminate).
  rewrite posix_facts.normalizeSegments_skip_first.
  apply posix_facts.normalizeSegments_of_clean. exact Hcs.
Qed.

Lemma resolved_segments (r : jsstring) :
  posix.resolved r ->
  forall seg, seg ∈ posix.split r -> seg <> posix.dot /\ seg <> posix.dotdot.
Proof.
  intros (cs & Hcs & ->) seg Hin.
  assert (H : seg = [] \/ seg ∈ cs).
  { destruct cs as [ | c cs].
    - simpl in Hin. apply elem_of_cons in Hin as [-> | Hin]; [left; reflexivity | ].
      apply list_elem_of_singleton in Hin. left. exact Hin.
    - rewrite posix_facts.split_resolved in Hin by (exact Hcs || discriminate).
      apply elem_of_cons in Hin as [-> | Hin]; [left; reflexivity | right; exact Hin]. }
  destruct H as [-> | H]; [split; discriminate | ].
  rewrite Forall_forall in Hcs. destruct (Hcs seg H) as (_ & H1 & H2 & _).
  split; assumption.
Qed.

(** X7. What [safePath] returns is absolute and already in normal form, and
    the guard accepts it again: a returned path is left unchanged by
    [path.normalize] and by [path.resolve], none of its segments is ["."]
    or [".."], its names start with the names of the root, and passing it
    back to [safePath] returns it again, provided it does not end in white
    space (which [trim] would remove). *)
Theorem safePath_output_is_normal
    (cwd ALLOWED_BASE : jsstring) (raw : option jsstring) (r : jsstring) :
  posix.isAbsolute cwd = true ->
  onPosix.safePath cwd ALLOWED_BASE raw = Ok r ->
  posix.isAbsolute r = true
  /\ posix.normalize r = r
  /\ posix.resolve cwd [r] = r
  /\ (forall seg, seg ∈ posix.split r ->
        seg <> posix.dot /\ seg <> posix.dotdot)
  /\ onPosix.pathKey cwd (onPosix.allowedBaseAbs cwd ALLOWED_BASE)
       `prefix_of` onPosix.pathKey cwd r
  /\ (trim r = r -> onPosix.safePath cwd ALLOWED_BASE (Some r) = Ok r).
Proof.
  intros Hcwd Hg.
  destruct (guard_accepted cwd ALLOWED_BASE Hcwd raw r Hg) as [Hres Hc].
  pose proof (posix_facts.resolved_isAbsolute r Hres) as Habs.
  pose proof (posix_facts.normalize_resolved r Hres) as Hnorm.
  pose proof (resolve_of_resolved cwd r Hres) as Hrr.
  split; [exact Habs | ]. split; [exact Hnorm | ]. split; [exact Hrr | ].
  split; [exact (resolved_segments r Hres) | ].
  split; [exact (contained_names cwd ALLOWED_BASE Hcwd r Hres Hc) | ].
  intros Htrim.
  apply (safePath_accepts _ (root_normal cwd ALLOWED_BASE Hcwd)).
  assert (Hcand : onPosix.candidate cwd ALLOWED_BASE (Some r) = r).
  { unfold onPosix.candidate, candidate.
    change (default [] (Some r)) with r. rewrite Htrim.
    destruct Hres as (cs & _ & ->).
    rewrite (bool_decide_eq_false_2
               (posix.CHAR_FORWARD_SLASH :: posix.join cs = [])
               ltac:(discriminate)).
    rewrite (bool_decide_eq_false_2
               (posix.CHAR_FORWARD_SLASH :: posix.join cs = str ".")
               ltac:(discriminate)).
    simpl orb. cbv iota.
    change (@isAbsolute (posixPath cwd)
              (posix.CHAR_FORWARD_SLASH :: posix.join cs)) with true.
    cbv iota.
    change (@resolve (posixPath cwd)
              [posix.CHAR_FORWARD_SLASH :: posix.join cs])
      with (posix.resolve cwd [posix.CHAR_FORWARD_SLASH :: posix.join cs]).
    rewrite Hrr. exact Hnorm. }
  assert (Hcont : onPosix.contained cwd ALLOWED_BASE
                    (onPosix.candidate cwd ALLOWED_BASE (Some r))).
  { rewrite Hcand. exact Hc. }
  split; [symmetry; exact Hcand | exact Hcont].
Qed.


(** * The registry over a run *)

Lemma createSession_invariant (uuid : jsstring) (s : server) :
  registryInvariant s -> registryInvariant (createSession uuid s).2.
Proof.
  intros (H1 & H2 & H3). unfold createSession. cbn [snd].
  split; [ | split]; cbn [sessions transports created].
  - intros sid e He. destruct (decide (uuid = sid)) as [<- | Hne].
    + rewrite lookup_insert_eq in He. injection He as <-.
      cbn [transport mcp]. rewrite lookup_insert_eq. auto.
    + rewrite lookup_insert_ne in He by exact Hne.
      destruct (H1 sid e He) as (Hlt & Hopen & Hmcp).
      split; [lia | ]. split; [ | exact Hmcp].
      rewrite lookup_insert_ne by lia. exact Hopen.
  - intros sid1 sid2 e1 e2 He1 He2 Ht.
    destruct (decide (uuid = sid1)) as [<- | Hne1];
      destruct (decide (uuid = sid2)) as [<- | Hne2]; [reflexivity | | | ].
    + rewrite lookup_insert_eq in He1. injection He1 as <-.
      rewrite lookup_insert_ne in He2 by exact Hne2.
      destruct (H1 _ _ He2) as (Hlt & _). cbn [transport] in Ht. lia.
    + rewrite lookup_insert_eq in He2. injection He2 as <-.
      rewrite lookup_insert_ne in He1 by exact Hne1.
      destruct (H1 _ _ He1) as (Hlt & _). cbn [transport] in Ht. lia.
    + rewrite lookup_insert_ne in He1, He2 by assumption.
      exact (H2 _ _ _ _ He1 He2 Ht).
  - intros t st Ht. destruct (decide (created s = t)) as [<- | Hne]; [lia | ].
    rewrite lookup_insert_ne in Ht by exact Hne.
    specialize (H3 t st Ht). lia.
Qed.

Lemma deleteSession_invariant (sid : jsstring) (e : SessionEntry) (s : server) :
  registryInvariant s -> sessions s !! sid = Some e ->
  registryInvariant (deleteSession sid (closeTransport (transport e) s)).
Proof.
  intros (H1 & H2 & H3) He. unfold deleteSession, closeTransport.
  split; [ | split]; cbn [sessions transports created].
  - intros sid' e' He'. destruct (decide (sid = sid')) as [<- | Hne].
    + rewrite lookup_delete_eq in He'. discriminate.
    + rewrite lookup_delete_ne in He' by exact Hne.
      destruct (H1 sid' e' He') as (Hlt & Hopen & Hmcp).
      split; [exact Hlt | ]. split; [ | exact Hmcp].
      rewrite lookup_insert_ne; [exact Hopen | ].
      intros Ht. apply Hne. exact (H2 _ _ _ _ He He' Ht).
  - intros sid1 sid2 e1 e2 He1 He2 Ht.
    destruct (decide (sid = sid1)) as [<- | Hne1];
      [rewrite lookup_delete_eq in He1; discriminate | ].
    destruct (decide (sid = sid2)) as [<- | Hne2];
      [rewrite lookup_delete_eq in He2; discriminate | ].
    rewrite lookup_delete_ne in He1, He2 by assumption.
    exact (H2 _ _ _ _ He1 He2 Ht).
  - intros t st Ht. destruct (decide (transport e = t)) as [<- | Hne].
    + destruct (H1 _ _ He) as (Hlt & _). exact Hlt.
    + rewrite lookup_insert_ne in Ht by exact Hne. exact (H3 t st Ht).
Qed.

Lemma findEntry_Some (s : server) (sid : option jsstring) (e : SessionEntry) :
  findEntry s sid = Some e ->
  exists t, sid = Some t /\ t <> [] /\ sessions s !! t = Some e.
Proof.
  unfold findEntry. destruct sid as [t | ]; [ | discriminate].
  destruct (bool_decide (t = [])) eqn:E; [discriminate | ].
  apply bool_decide_eq_false in E. eauto.
Qed.

Lemma step_invariant (isInitializeRequest : option json -> bool)
    (s : server) (ev : event) :
  registryInvariant s -> registryInvariant (step isInitializeRequest s ev).2.
Proof.
  intros Hs. destruct ev as [uuid req | ]; cbn [step].
  - unfold mcpRoute.
    destruct (findEntry s (headerSid req)) as [e | ] eqn:Ef;
      destruct (method req).
    + exact Hs.
    + exact Hs.
    + apply findEntry_Some in Ef as (t & -> & _ & He). cbn [snd].
      exact (deleteSession_invariant t e s Hs He).
    + exact Hs.
    + exact (createSession_invariant uuid s Hs).
    + destruct (isInitializeRequest (body req)); cbn [negb snd];
        [exact (createSession_invariant uuid s Hs) | exact Hs].
    + exact Hs.
    + exact Hs.
  - destruct Hs as (_ & _ & H3). split; [ | split]; cbn.
    + intros sid e He. rewrite lookup_empty in He. discriminate.
    + intros sid1 sid2 e1 e2 He. rewrite lookup_empty in He. discriminate.
    + exact H3.
Qed.

Lemma run_invariant (isInitializeRequest : option json -> bool)
    (evs : list event) : forall s,
  registryInvariant s -> registryInvariant (run isInitializeRequest evs s).
Proof.
  induction evs as [ | ev evs IH]; intros s Hs; [exact Hs | ].
  apply IH. apply step_invariant. exact Hs.
Qed.

(** X9. Whatever requests arrive, in any order and with any tokens, the
    registry stays consistent: after every run from the start of the
    process, each session in the registry has an open transport of its own
    (no two tokens share one, and its server was created with it), every
    transport that exists was created through [createSession], and the
    transport the next [createSession] makes is new. *)
Theorem registry_stays_consistent
    (isInitializeRequest : option json -> bool) (evs : list event) :
  let s := run isInitializeRequest evs initialServer in
  registryInvariant s /\ transports s !! created s = None.
Proof.
  intros s.
  assert (Hs : registryInvariant s).
  { apply run_invariant. split; [ | split].
    - intros sid e He. cbn in He. rewrite lookup_empty in He. discriminate.
    - intros sid1 sid2 e1 e2 He. cbn in He. rewrite lookup_empty in He.
      discriminate.
    - intros t st Ht. cbn in Ht. rewrite lookup_empty in Ht. discriminate. }
  split; [exact Hs | ]. destruct Hs as (_ & _ & H3).
  destruct (transports s !! created s) as [st | ] eqn:E; [ | reflexivity].
  specialize (H3 _ _ E). lia.
Qed.

(** X10. Closing one session leaves the others as they were: in any state
    the server can reach, after DELETE with the token [t] every other
    session is still in the registry with its transport open, and a GET or
    POST with its token is still handed to that transport without changing
    the registry. *)
Theorem close_leaves_other_sessions
    (isInitializeRequest : option json -> bool) (evs : list event)
    (uuid : jsstring) (t t' : jsstring) (e' : SessionEntry) :
  let s := run isInitializeRequest evs initialServer in
  let route := mcpRoute isInitializeRequest in
  let closed := (route uuid (deleteRequest (Some t)) s).2 in
  t' <> t -> t' <> [] -> sessions s !! t' = Some e' ->
  sessions closed !! t' = Some e'
  /\ transports closed !! transport e' = Some Open
  /\ (forall uuid' b,
        route uuid' (postRequest (Some t') b) closed
        = (HandledBy (transport e'), closed))
  /\ (forall uuid',
        route uuid' (getRequest (Some t')) closed
        = (HandledBy (transport e'), closed)).
Proof.
  intros s route closed Hne Ht' He'.
  assert (Hinv : registryInvariant closed).
  { subst closed route.
    apply (step_invariant isInitializeRequest s
             (Mcp uuid (deleteRequest (Some t)))).
    apply (run_invariant isInitializeRequest evs). split; [ | split].
    - intros sid e He. cbn in He. rewrite lookup_empty in He. discriminate.
    - intros sid1 sid2 e1 e2 He. cbn in He. rewrite lookup_empty in He.
      discriminate.
    - intros k st Hk. cbn in Hk. rewrite lookup_empty in Hk. discriminate. }
  assert (Hstill : sessions closed !! t' = Some e').
  { subst closed route. unfold mcpRoute, deleteRequest.
    cbn [method headerSid body].
    destruct (findEntry s (Some t)) as [e | ] eqn:Ef; cbn [snd];
      [ | exact He'].
    unfold deleteSession. cbn [sessions].
    rewrite lookup_delete_ne by congruence. exact He'. }
  assert (Hfind : findEntry closed (Some t') = Some e').
  { unfold findEntry. rewrite (bool_decide_eq_false_2 _ Ht'). exact Hstill. }
  split; [exact Hstill | ].
  split; [destruct Hinv as (H1 & _); exact (proj1 (proj2 (H1 _ _ Hstill))) | ].
  split.
  - intros uuid' b. subst route. unfold mcpRoute, postRequest.
    cbn [method headerSid body]. rewrite Hfind. reflexivity.
  - intros uuid'. subst route. unfold mcpRoute, getRequest.
    cbn [method headerSid body]. rewrite Hfind. reflexivity.
Qed.

(** * Listing and copying *)

Ltac unfold_wide :=
  unfold bindW, retW, throwW, lift, fsReaddir, fsCopyFile, recordCall in *;
  unfold_monad.

Lemma childOf_Some (k k' : list jsstring) (n : node) (name : jsstring)
    (st : stats) :
  childOf k (k', n) = Some (name, st) <-> k' = k ++ [name] /\ st = kindOf n.
Proof.
  unfold childOf. cbn [fst snd]. split.
  - destruct (last k') as [nm | ]; [ | discriminate].
    destruct (decide (k' = k ++ [nm])); [ | discriminate].
    intros [= <- <-]. auto.
  - intros [-> ->]. rewrite last_snoc.
    destruct (decide (k ++ [name] = k ++ [name])); [reflexivity | contradiction].
Qed.

Lemma children_spec (fs : tree) (k : list jsstring) (name : jsstring)
    (st : stats) :
  (name, st) ∈ omap (childOf k) (map_to_list fs)
  <-> exists n, fs !! (k ++ [name]) = Some n /\ kindOf n = st.
Proof.
  rewrite list_elem_of_omap. split.
  - intros ([k' n] & Hin & Hc). apply elem_of_map_to_list in Hin.
    apply childOf_Some in Hc as [-> ->]. eauto.
  - intros (n & Hn & <-). exists (k ++ [name], n). split.
    + apply elem_of_map_to_list. exact Hn.
    + apply childOf_Some. auto.
Qed.

Lemma children_NoDup (k : list jsstring) (l : list (list jsstring * node)) :
  NoDup (l.*1) -> NoDup ((omap (childOf k) l).*1).
Proof.
  induction l as [ | [k' n] l IH]; simpl; [constructor | ].
  intros Hnd. apply NoDup_cons in Hnd as [Hk' Hl].
  destruct (childOf k (k', n)) as [[name st] | ] eqn:E; [ | exact (IH Hl)].
  simpl. apply NoDup_cons. split; [ | exact (IH Hl)].
  intros Hin. apply Hk'.
  apply list_elem_of_fmap in Hin as ([name' st'] & Heq & Hin).
  simpl in Heq. subst name'.
  apply list_elem_of_omap in Hin as ([k'' n''] & Hin & Hc).
  apply childOf_Some in E as [-> _]. apply childOf_Some in Hc as [-> _].
  apply list_elem_of_fmap. exists (k ++ [name], n''). split; [reflexivity | exact Hin].
Qed.

(** X11. [fs_list] shows exactly what is directly below a directory and
    changes nothing: for an accepted path that is a directory it returns
    one line per entry, joined by newlines, each line "DIR " or "FILE", a
    tab and the name; a name is listed, with its kind, exactly when the
    directory holds an entry of that name and kind, and no name is listed
    twice.  For an accepted path that is a file it throws "Not a
    directory" without calling [readdir].  In both cases the tree is as it
    was. *)
Theorem list_shows_the_children {P : PathModule} (allowedBaseAbs : jsstring)
    (pathKey : jsstring -> list jsstring)
    (raw : option jsstring) (abs : jsstring) (st : stats) (w : wideWorld) :
  safePath allowedBaseAbs raw = Ok abs ->
  statNode (wfiles w) (pathKey abs) = inr st ->
  let out := fs_list allowedBaseAbs pathKey {| path := raw |} w in
  wfiles out.2 = wfiles w
  /\ match st with
     | IsDirectory =>
         exists entries,
           out.1
           = Ok (TextContent (joinWith [10] (map direntLine entries)))
           /\ (forall name kind,
                 (name, kind) ∈ entries
                 <-> exists n, wfiles w !! (pathKey abs ++ [name]) = Some n
                               /\ kindOf n = kind)
           /\ NoDup (entries.*1)
     | IsFile =>
         out.1 = Throw (JsError (str "Not a directory: " ++ abs))
         /\ wcalls out.2 = Call (CallStat abs) :: wcalls w
     end.
Proof.
  intros Hg Hst out. subst out.
  destruct (statNode_ok _ _ _ Hst) as [Hp Hn].
  unfold fs_list. unfold_wide. cbn [path]. rewrite Hg.
  cbn [files calls console wfiles wcalls wconsole fst snd map app].
  rewrite Hst. cbn [files calls console wfiles wcalls wconsole fst snd map app].
  destruct st.
  - split; [reflexivity | ]. split; reflexivity.
  - unfold readdirNode.
    cbn [files calls console wfiles wcalls wconsole fst snd map app].
    rewrite Hp, Hn.
    cbn [files calls console wfiles wcalls wconsole fst snd map app].
    split; [reflexivity | ].
    exists (omap (childOf (pathKey abs)) (map_to_list (wfiles w))).
    split; [reflexivity | ]. split.
    + intros name kind. apply children_spec.
    + apply children_NoDup, NoDup_fst_map_to_list.
Qed.






(** X13. [fs_list] and [fs_copy] check their paths before anything else:
    a rejected path ends [fs_list] with the rejection in the world it
    started in; [fs_copy] ends so when its source is rejected and also when
    only its destination is, so that a source inside the root is not even
    looked at; and when the source is a directory, [fs_copy] throws "Source
    is not a file" after the one [stat], before any [mkdir] or copy. *)
Theorem list_and_copy_check_first {P : PathModule} (allowedBaseAbs : jsstring)
    (pathKey : jsstring -> list jsstring) (w : wideWorld) :
  (forall raw e,
     safePath allowedBaseAbs raw = Throw e ->
     fs_list allowedBaseAbs pathKey {| path := raw |} w = (Throw e, w))
  /\ (forall src dest e,
        safePath allowedBaseAbs src = Throw e ->
        fs_copy allowedBaseAbs pathKey {| srcPath := src; destPath := dest |} w
        = (Throw e, w))
  /\ (forall src dest a e,
        safePath allowedBaseAbs src = Ok a ->
        safePath allowedBaseAbs dest = Throw e ->
        fs_copy allowedBaseAbs pathKey {| srcPath := src; destPath := dest |} w
        = (Throw e, w))
  /\ (forall src dest a b,
        safePath allowedBaseAbs src = Ok a ->
        safePath allowedBaseAbs dest = Ok b ->
        statNode (wfiles w) (pathKey a) = inr IsDirectory ->
        let out :=
          fs_copy allowedBaseAbs pathKey
            {| srcPath := src; destPath := dest |} w in
        out.1 = Throw (JsError (str "Source is not a file: " ++ a))
        /\ wfiles out.2 = wfiles w
        /\ wcalls out.2 = Call (CallStat a) :: wcalls w).
Proof.
  destruct w as [fs cs lg]. split; [ | split; [ | split]].
  - intros raw e Hg. unfold fs_list. unfold_wide. cbn [path]. rewrite Hg.
    reflexivity.
  - intros src dest e Hg. unfold fs_copy. unfold_wide. cbn [srcPath].
    rewrite Hg. reflexivity.
  - intros src dest a e Hs Hd. unfold fs_copy. unfold_wide.
    cbn [srcPath destPath]. rewrite Hs.
    cbn [files calls console wfiles wcalls wconsole fst snd map app].
    rewrite Hd. reflexivity.
  - intros src dest a b Hs Hd Hst out. subst out. unfold fs_copy.
    unfold_wide. cbn [srcPath destPath]. rewrite Hs.
    cbn [files calls console wfiles wcalls wconsole fst snd map app].
    rewrite Hd.
    cbn [files calls console wfiles wcalls wconsole fst snd map app] in *.
    rewrite Hst. repeat split.
Qed.

Section OutsideWide.

Context {P : PathModule}.
Variable allowedBaseAbs : jsstring.
Variable pathKey : jsstring -> list jsstring.

(** [fs_list] leaves the tree as it is, whatever happens. *)
Lemma list_keeps_tree args w :
  wfiles (fs_list allowedBaseAbs pathKey args w).2 = wfiles w.
Proof.
  unfold fs_list. unfold_wide.
  destruct (safePath allowedBaseAbs (path args)) as [abs | e]; [ | reflexivity].
  cbn [files calls console wfiles wcalls wconsole fst snd map app].
  destruct (statNode (wfiles w) (pathKey abs)) as [e | [ | ]];
    cbn [files calls console wfiles wcalls wconsole fst snd map app];
    [reflexivity | reflexivity | ].
  destruct (readdirNode (wfiles w) (pathKey abs)) as [e | entries];
    reflexivity.
Qed.

Hypothesis accepted_below : forall raw abs,
  safePath allowedBaseAbs raw = Ok abs ->
  pathKey allowedBaseAbs `prefix_of` pathKey abs.

Lemma copy_keeps (k : list jsstring) (n : node) args w :
  ~ pathKey allowedBaseAbs `prefix_of` k ->
  wfiles w !! k = Some n ->
  wfiles (fs_copy allowedBaseAbs pathKey args w).2 !! k = Some n.
Proof.
  intros Hout Hk. unfold fs_copy. unfold_wide.
  destruct (safePath allowedBaseAbs (srcPath args)) as [a | e]; [ | exact Hk].
  cbn [files calls console wfiles wcalls wconsole fst snd map app].
  destruct (safePath allowedBaseAbs (destPath args)) as [b | e] eqn:Ed;
    [ | exact Hk].
  cbn [files calls console wfiles wcalls wconsole fst snd map app].
  destruct (statNode (wfiles w) (pathKey a)) as [e | [ | ]];
    cbn [files calls console wfiles wcalls wconsole fst snd map app];
    [exact Hk | | exact Hk].
  destruct (mkdirRecursive (wfiles w) (pathKey (dirname b))) as [e | fs1]
    eqn:Em;
    cbn [files calls console wfiles wcalls wconsole fst snd map app];
    [exact Hk | ].
  pose proof (mkdirRecursive_keeps _ _ _ k n Em Hk) as H1.
  unfold copyNode.
  destruct (readNode fs1 (pathKey a)) as [e | d];
    cbn [files calls console wfiles wcalls wconsole fst snd map app];
    [exact H1 | ].
  destruct (writeNode false fs1 (pathKey b) d) as [e | fs2] eqn:Ew;
    cbn [files calls console wfiles wcalls wconsole fst snd map app];
    [exact H1 | ].
  rewrite (writeNode_other _ _ _ _ _ k Ew); [exact H1 | ].
  intros ->. apply Hout. exact (accepted_below _ _ Ed).
Qed.

End OutsideWide.

(** X14. Listing changes nothing and copying stays inside the root:
    [fs_list] leaves the whole tree as it was, whatever its argument and
    outcome, and [fs_copy] leaves every entry that exists outside
    [allowedBaseAbs] unchanged, whatever its arguments and whether it
    returns or throws. *)
Theorem list_and_copy_stay_inside
    (cwd ALLOWED_BASE : jsstring) (w : wideWorld) (k : list jsstring)
    (n : node) :
  posix.isAbsolute cwd = true ->
  wfiles w !! k = Some n ->
  ~ onPosix.pathKey cwd (onPosix.allowedBaseAbs cwd ALLOWED_BASE)
      `prefix_of` k ->
  (forall a, wfiles (posixTools.fs_list cwd ALLOWED_BASE a w).2 = wfiles w)
  /\ (forall a,
        wfiles (posixTools.fs_copy cwd ALLOWED_BASE a w).2 !! k = Some n).
Proof.
  intros Hcwd Hk Hout. split; intros a.
  - apply list_keeps_tree.
  - apply copy_keeps; [ | exact Hout | exact Hk].
    intros raw abs Hg.
    destruct (guard_accepted cwd ALLOWED_BASE Hcwd raw abs Hg) as [Hres Hc].
    exact (contained_names cwd ALLOWED_BASE Hcwd abs Hres Hc).
Qed.

(** * Text through a file *)

Ltac divmod := zify; Z.to_euclidean_division_equations; lia.

Ltac compare_all :=
  repeat match goal with
    | |- context [N.ltb ?a ?b] => destruct (N.ltb_spec a b); try lia
    | |- context [N.leb ?a ?b] => destruct (N.leb_spec a b); try lia
    | |- context [N.eqb ?a ?b] => destruct (N.eqb_spec a b); try lia
    end.

Ltac decode_step :=
  cbn [andb app utf8DecodeFrom lowerBoundary upperBoundary bytesNeeded
       codePoint];
  compare_all.

Lemma lead_mod (k m a : N) : a < m -> (k * m + a) mod m = a.
Proof.
  intros H. rewrite N.add_comm, N.Div0.mod_add. apply N.mod_small. exact H.
Qed.

Lemma lead2_mod (a : N) : a < 32 -> (192 + a) mod 32 = a.
Proof. exact (lead_mod 6 32 a). Qed.

Lemma lead3_mod (a : N) : a < 16 -> (224 + a) mod 16 = a.
Proof. exact (lead_mod 14 16 a). Qed.

Lemma lead4_mod (a : N) : a < 8 -> (240 + a) mod 8 = a.
Proof. exact (lead_mod 30 8 a). Qed.

Lemma continuation_mod (a : N) : a < 64 -> (128 + a) mod 64 = a.
Proof. exact (lead_mod 2 64 a). Qed.

(** The decoder reads the encoding of a scalar value back as its code
    units, whatever follows. *)
Lemma decode_encodeCodePoint (cp : N) (rest : buffer) :
  cp < 1114112 -> ~ (55296 <= cp <= 57343) ->
  utf8DecodeFrom None (encodeCodePoint cp ++ rest)
  = codeUnits cp ++ utf8DecodeFrom None rest.
Proof.
  intros Hmax Hsur. unfold encodeCodePoint.
  destruct (N.ltb_spec cp 128) as [H1 | H1];
    [ | destruct (N.ltb_spec cp 2048) as [H2 | H2];
        [ | destruct (N.ltb_spec cp 65536) as [H3 | H3]]].
  - cbn [app utf8DecodeFrom]. unfold decodeLead.
    destruct (N.ltb_spec cp 128); [ | lia]. unfold codeUnits.
    destruct (N.ltb_spec cp 65536); [ | lia]. reflexivity.
  - assert (E : cp = cp / 64 * 64 + cp mod 64) by divmod.
    assert (Ha : cp / 64 < 32) by divmod.
    assert (Hb : cp mod 64 < 64) by divmod.
    revert E Ha Hb. generalize (cp / 64) (cp mod 64). intros a b E Ha Hb.
    cbn [app utf8DecodeFrom]. unfold decodeLead.
    rewrite (lead2_mod a Ha). decode_step.
    rewrite (continuation_mod b Hb). decode_step.
    replace (a * 64 + b) with cp by lia. reflexivity.
  - assert (E : cp = cp / 4096 * 4096 + (cp / 64) mod 64 * 64 + cp mod 64)
      by divmod.
    assert (Ha : cp / 4096 < 16) by divmod.
    assert (Hb : (cp / 64) mod 64 < 64) by divmod.
    assert (Hc : cp mod 64 < 64) by divmod.
    revert E Ha Hb Hc.
    generalize (cp / 4096) ((cp / 64) mod 64) (cp mod 64).
    intros a b c E Ha Hb Hc.
    cbn [app utf8DecodeFrom]. unfold decodeLead.
    rewrite (lead3_mod a Ha). decode_step;
      rewrite (continuation_mod b Hb); decode_step;
      rewrite (continuation_mod c Hc); decode_step;
      replace ((a * 64 + b) * 64 + c) with cp by lia; reflexivity.
  - assert (E : cp = cp / 262144 * 262144 + (cp / 4096) mod 64 * 4096
                     + (cp / 64) mod 64 * 64 + cp mod 64) by divmod.
    assert (Ha : cp / 262144 < 8) by divmod.
    assert (Hb : (cp / 4096) mod 64 < 64) by divmod.
    assert (Hc : (cp / 64) mod 64 < 64) by divmod.
    assert (Hd : cp mod 64 < 64) by divmod.
    revert E Ha Hb Hc Hd.
    generalize (cp / 262144) ((cp / 4096) mod 64) ((cp / 64) mod 64)
      (cp mod 64).
    intros a b c d E Ha Hb Hc Hd.
    cbn [app utf8DecodeFrom]. unfold decodeLead.
    rewrite (lead4_mod a Ha). decode_step;
      rewrite (continuation_mod b Hb); decode_step;
      rewrite (continuation_mod c Hc); decode_step;
      rewrite (continuation_mod d Hd); decode_step;
      replace (((a * 64 + b) * 64 + c) * 64 + d) with cp by lia; reflexivity.
Qed.

(** The code point of a surrogate pair is a scalar value above the basic
    plane, and its code units are the pair. *)
Lemma codeUnits_pair (u v : N) :
  isHighSurrogate u = true -> isLowSurrogate v = true ->
  let cp := 65536 + (u - 55296) * 1024 + (v - 56320) in
  cp < 1114112 /\ ~ (55296 <= cp <= 57343) /\ codeUnits cp = [u; v].
Proof.
  intros Hu Hv cp. unfold isHighSurrogate, isLowSurrogate in Hu, Hv.
  apply andb_prop in Hu as [Hu1 Hu2]. apply andb_prop in Hv as [Hv1 Hv2].
  apply N.leb_le in Hu1, Hu2, Hv1, Hv2.
  assert (E : cp - 65536 = (u - 55296) * 1024 + (v - 56320))
    by (unfold cp; lia).
  split; [unfold cp; lia | ]. split; [unfold cp; lia | ].
  unfold codeUnits. destruct (N.ltb_spec cp 65536); [unfold cp in *; lia | ].
  rewrite E.
  assert (Hq : ((u - 55296) * 1024 + (v - 56320)) / 1024 = u - 55296).
  { rewrite N.add_comm, N.div_add by discriminate.
    rewrite N.div_small by lia. reflexivity. }
  assert (Hr : ((u - 55296) * 1024 + (v - 56320)) mod 1024 = v - 56320).
  { rewrite N.add_comm, N.Div0.mod_add. apply N.mod_small. lia. }
  rewrite Hq, Hr. f_equal; [lia | f_equal; lia].
Qed.

Lemma decode_encode_app (n : nat) :
  forall (s : jsstring) (rest : buffer),
    (length s <= n)%nat -> isWellFormed s = true ->
    utf8DecodeFrom None (utf8Encode s ++ rest)
    = s ++ utf8DecodeFrom None rest.
Proof.
  induction n as [ | n IH]; intros s rest Hlen Hwf.
  - destruct s; [reflexivity | simpl in Hlen; lia].
  - destruct s as [ | u s']; [reflexivity | ].
    cbn [utf8Encode isWellFormed] in *.
    destruct (isHighSurrogate u) eqn:Hu.
    + destruct s' as [ | v s'']; [discriminate | ].
      apply andb_prop in Hwf as [Hv Hwf]. rewrite Hv.
      destruct (codeUnits_pair u v Hu Hv) as (Hmax & Hsur & Hcu).
      rewrite <- app_assoc, decode_encodeCodePoint by assumption.
      rewrite Hcu. cbn [app]. do 2 f_equal.
      apply IH; [simpl in Hlen; lia | exact Hwf].
    + apply andb_prop in Hwf as [Hwf Hs']. apply andb_prop in Hwf as [Hl Hlt].
      apply negb_true_iff in Hl. rewrite Hl. apply N.ltb_lt in Hlt.
      unfold isHighSurrogate, isLowSurrogate in Hu, Hl.
      rewrite <- app_assoc, decode_encodeCodePoint; [ | lia | ].
      * unfold codeUnits. destruct (N.ltb_spec u 65536); [ | lia].
        cbn [app]. f_equal. apply IH; [simpl in Hlen; lia | exact Hs'].
      * intros [H1 H2].
        destruct (N.leb_spec 55296 u); [ | lia].
        destruct (N.leb_spec u 56319); [discriminate | ].
        destruct (N.leb_spec 56320 u); [ | lia].
        destruct (N.leb_spec u 57343); [discriminate | lia].
Qed.

Lemma utf8_roundtrip (s : jsstring) :
  isWellFormed s = true -> utf8Decode (utf8Encode s) = s.
Proof.
  intros H. unfold utf8Decode.
  rewrite <- (app_nil_r (utf8Encode s)).
  rewrite (decode_encode_app (length s) s [] (le_n _) H).
  apply app_nil_r.
Qed.

Lemma utf8_roundtrip_app (s t : jsstring) :
  isWellFormed s = true -> isWellFormed t = true ->
  utf8Decode (utf8Encode s ++ utf8Encode t) = s ++ t.
Proof.
  intros Hs Ht. unfold utf8Decode.
  rewrite (decode_encode_app (length s) s _ (le_n _) Hs).
  f_equal. exact (utf8_roundtrip t Ht).
Qed.

(** X15. Well-formed text survives the round trip through a file: for
    text without lone surrogates whose bytes fit the default limit,
    whenever [fs_write(p, c)] returns, [fs_read(p)] then returns exactly
    [c], and whenever a further [fs_append(p, a)] returns, [fs_read(p)]
    then returns exactly [c] followed by [a]. *)
Theorem well_formed_text_round_trip
    (cwd ALLOWED_BASE : jsstring) (p : option jsstring) (c a : jsstring)
    (m1 : toolResult) (w w1 : world) :
  isWellFormed c = true ->
  isWellFormed a = true ->
  (Z.of_nat (length (utf8Encode c) + length (utf8Encode a))
   <= DEFAULT_LIMIT)%Z ->
  onPosix.fs_write cwd ALLOWED_BASE
    {| write_path := p; content := Some c |} w = (Ok m1, w1) ->
  let read w :=
    (onPosix.fs_read cwd ALLOWED_BASE
       {| read_path := p; maxBytes := None |} w).1 in
  read w1 = Ok (TextContent c)
  /\ forall m2 w2,
       onPosix.fs_append cwd ALLOWED_BASE
         {| write_path := p; content := Some a |} w1 = (Ok m2, w2) ->
       read w2 = Ok (TextContent (c ++ a)).
Proof.
  intros Hc Ha Hlen H1 read.
  assert (Hdef : (0 <= default DEFAULT_LIMIT None)%Z)
    by (simpl; unfold DEFAULT_LIMIT; lia).
  destruct (written_path _ _ _ _ _ _ H1) as [abs Hg]. cbn [write_path] in Hg.
  destruct (write_step cwd ALLOWED_BASE p abs Hg c w m1 w1 H1)
    as (Hs1 & Hr1 & Hb1).
  split.
  - unfold read.
    rewrite (read_step cwd ALLOWED_BASE p abs Hg None w1 _ Hs1 Hr1 Hdef).
    simpl default. rewrite take_ge by lia.
    rewrite (utf8_roundtrip c Hc). reflexivity.
  - intros m2 w2 H2.
    destruct (append_step cwd ALLOWED_BASE p abs Hg a w1 m2 w2 H2)
      as (Hs2 & Hr2 & _).
    unfold read.
    rewrite (read_step cwd ALLOWED_BASE p abs Hg None w2 _ Hs2 Hr2 Hdef).
    simpl default. rewrite Hb1.
    rewrite take_ge by (rewrite length_app; lia).
    rewrite (utf8_roundtrip_app c a Hc Ha). reflexivity.
Qed.

(** * The tree stays a tree *)

Lemma parent_is_dir (fs : tree) (k : list jsstring) :
  parentError fs k = None -> nodeAt fs (removelast k) = Some Dir.
Proof.
  unfold parentError. destruct (nodeAt fs (removelast k)) as [[d | ] | ];
    [discriminate | reflexivity | discriminate].
Qed.

Lemma nodeAt_lookup (fs : tree) (k : list jsstring) (n : node) :
  k <> [] -> nodeAt fs k = Some n -> fs !! k = Some n.
Proof.
  intros Hk. unfold nodeAt. destruct (decide (k = [])); [contradiction | ].
  auto.
Qed.

Lemma closed_insert_file (fs : tree) (k : list jsstring) (d : buffer) :
  closedTree fs -> k <> [] -> nodeAt fs (removelast k) = Some Dir ->
  fs !! k <> Some Dir -> closedTree (<[k := File d]> fs).
Proof.
  intros Hc Hk Hp Hd k' n H.
  destruct (decide (k' = k)) as [-> | Hne].
  - rewrite nodeAt_insert_ne by (apply not_eq_sym, removelast_ne; exact Hk).
    exact Hp.
  - rewrite lookup_insert_ne in H by congruence.
    destruct (decide (k = removelast k')) as [E | E].
    + specialize (Hc _ _ H). rewrite <- E in Hc.
      apply nodeAt_lookup in Hc; [contradiction | exact Hk].
    + rewrite nodeAt_insert_ne by exact E. exact (Hc _ _ H).
Qed.

Lemma closed_insert_dir (fs : tree) (k : list jsstring) :
  closedTree fs -> k <> [] -> nodeAt fs (removelast k) = Some Dir ->
  closedTree (<[k := Dir]> fs).
Proof.
  intros Hc Hk Hp k' n H.
  destruct (decide (k = removelast k')) as [E | E].
  - rewrite <- E. apply nodeAt_insert_eq. exact Hk.
  - rewrite nodeAt_insert_ne by exact E.
    destruct (decide (k' = k)) as [-> | Hne]; [exact Hp | ].
    rewrite lookup_insert_ne in H by congruence. exact (Hc _ _ H).
Qed.

Lemma closed_mkdirFrom (rest : list jsstring) :
  forall (pre : list jsstring) (fs fs' : tree),
    closedTree fs -> nodeAt fs pre = Some Dir ->
    mkdirFrom pre rest fs = inr fs' -> closedTree fs'.
Proof.
  induction rest as [ | name rest IH]; intros pre fs fs' Hc Hpre; simpl.
  - intros [= <-]. exact Hc.
  - assert (Hd : pre ++ [name] <> []) by (destruct pre; discriminate).
    destruct (nodeAt fs (pre ++ [name])) as [[d | ] | ] eqn:E.
    + discriminate.
    + apply IH; [exact Hc | exact E].
    + apply IH.
      * apply closed_insert_dir; [exact Hc | exact Hd | ].
        rewrite removelast_last. exact Hpre.
      * apply nodeAt_insert_eq. exact Hd.
Qed.

Lemma closed_mkdirRecursive (fs fs' : tree) (k : list jsstring) :
  closedTree fs -> mkdirRecursive fs k = inr fs' -> closedTree fs'.
Proof. intros Hc. apply closed_mkdirFrom; [exact Hc | reflexivity]. Qed.

Lemma closed_writeNode (append : bool) (fs fs' : tree) (k : list jsstring)
    (data : buffer) :
  closedTree fs -> writeNode append fs k data = inr fs' -> closedTree fs'.
Proof.
  intros Hc H. apply writeNode_ok in H as (Hk & Hp & Hd & ->).
  apply closed_insert_file; [exact Hc | exact Hk | | exact Hd].
  apply parent_is_dir. exact Hp.
Qed.

Lemma closed_unlinkNode (fs fs' : tree) (k : list jsstring) :
  closedTree fs -> unlinkNode fs k = inr fs' -> closedTree fs'.
Proof.
  intros Hc H. apply unlinkNode_ok in H as [-> [d Hd]]. intros k' n H.
  apply lookup_delete_Some in H as [Hne H]. specialize (Hc _ _ H).
  unfold nodeAt in *. destruct (decide (removelast k' = [])); [reflexivity | ].
  rewrite lookup_delete_ne; [exact Hc | ]. intros E. congruence.
Qed.

Lemma removelast_prefix {A : Type} (k : list A) : removelast k `prefix_of` k.
Proof.
  destruct (decide (k = [])) as [-> | Hk]; [exists []; reflexivity | ].
  destruct (exists_last Hk) as (k' & a & ->).
  rewrite removelast_last. exists [a]. reflexivity.
Qed.

Lemma closed_rmRecursive (fs : tree) (key : list jsstring) :
  closedTree fs -> closedTree (rmRecursive fs key).
Proof.
  intros Hc k n H. unfold rmRecursive in H.
  apply map_lookup_filter_Some in H as [H Hout]. cbn [fst] in Hout.
  specialize (Hc _ _ H). rewrite <- Hc. apply nodeAt_same.
  apply rmRecursive_outside. intros Hp. apply Hout.
  etransitivity; [exact Hp | apply removelast_prefix].
Qed.

Section Closed.

Context {P : PathModule}.
Variable allowedBaseAbs : jsstring.
Variable pathKey : jsstring -> list jsstring.

Lemma writes_keep_closed (args : writeArgs) (w : world) :
  closedTree (files w) ->
  closedTree (files (fs_write allowedBaseAbs pathKey args w).2)
  /\ closedTree (files (write_file allowedBaseAbs pathKey args w).2)
  /\ closedTree (files (fs_append allowedBaseAbs pathKey args w).2).
Proof.
  intros Hc.
  assert (Hgen : forall ap abs,
            match mkdirRecursive (files w) (pathKey (dirname abs)) with
            | inl _ => True
            | inr fs1 =>
                closedTree fs1
                /\ match writeNode ap fs1 (pathKey abs)
                           (utf8Encode (default [] (content args))) with
                   | inl _ => True
                   | inr fs2 => closedTree fs2
                   end
            end).
  { intros ap abs.
    destruct (mkdirRecursive (files w) (pathKey (dirname abs)))
      as [e | fs1] eqn:Em; [exact I | ].
    assert (H1 : closedTree fs1) by exact (closed_mkdirRecursive _ _ _ Hc Em).
    split; [exact H1 | ].
    destruct (writeNode ap fs1 (pathKey abs) _) as [e | fs2] eqn:Ew;
      [exact I | ].
    exact (closed_writeNode _ _ _ _ _ H1 Ew). }
  unfold fs_write, write_file, fs_append. unfold_monad.
  destruct (safePath allowedBaseAbs (write_path args)) as [abs | e];
    [ | repeat split; exact Hc].
  cbn [files calls console].
  pose proof (Hgen false abs) as Hw. pose proof (Hgen true abs) as Ha.
  destruct (mkdirRecursive (files w) (pathKey (dirname abs))) as [e | fs1];
    cbn [files calls console fst snd]; [repeat split; exact Hc | ].
  destruct Hw as [H1 Hw]. destruct Ha as [_ Ha].
  destruct (writeNode false fs1 (pathKey abs) _) as [e | fs2];
    destruct (writeNode true fs1 (pathKey abs) _) as [e' | fs3];
    cbn [files calls console fst snd]; repeat split; assumption.
Qed.

Lemma mkdir_keeps_closed (args : pathArgs) (w : world) :
  closedTree (files w) ->
  closedTree (files (fs_mkdir allowedBaseAbs pathKey args w).2).
Proof.
  intros Hc. unfold fs_mkdir. unfold_monad.
  destruct (safePath allowedBaseAbs (path args)) as [abs | e]; [ | exact Hc].
  cbn [files calls console].
  destruct (mkdirRecursive (files w) (pathKey abs)) as [e | fs1] eqn:Em;
    cbn [files calls console fst snd]; [exact Hc | ].
  exact (closed_mkdirRecursive _ _ _ Hc Em).
Qed.

Lemma delete_keeps_closed (args : pathArgs) (w : world) :
  closedTree (files w) ->
  closedTree (files (fs_delete allowedBaseAbs pathKey args w).2).
Proof.
  intros Hc. unfold fs_delete. unfold_monad.
  destruct (safePath allowedBaseAbs (path args)) as [abs | e]; [ | exact Hc].
  cbn [files calls console].
  destruct (bool_decide (abs = allowedBaseAbs)); [exact Hc | ].
  cbn [files calls console].
  destruct (statNode (files w) (pathKey abs)) as [e | [ | ]];
    cbn [files calls console fst snd]; [exact Hc | | ].
  - destruct (unlinkNode (files w) (pathKey abs)) as [e | fs1] eqn:Eu;
      cbn [files calls console fst snd]; [exact Hc | ].
    exact (closed_unlinkNode _ _ _ Hc Eu).
  - apply closed_rmRecursive. exact Hc.
Qed.

Lemma copy_keeps_closed (args : copyArgs) (w : wideWorld) :
  closedTree (wfiles w) ->
  closedTree (wfiles (fs_copy allowedBaseAbs pathKey args w).2).
Proof.
  intros Hc. unfold fs_copy. unfold_wide.
  destruct (safePath allowedBaseAbs (srcPath args)) as [a | e]; [ | exact Hc].
  cbn [files calls console wfiles wcalls wconsole fst snd map app].
  destruct (safePath allowedBaseAbs (destPath args)) as [b | e];
    [ | exact Hc].
  cbn [files calls console wfiles wcalls wconsole fst snd map app].
  destruct (statNode (wfiles w) (pathKey a)) as [e | [ | ]];
    cbn [files calls console wfiles wcalls wconsole fst snd map app];
    [exact Hc | | exact Hc].
  destruct (mkdirRecursive (wfiles w) (pathKey (dirname b))) as [e | fs1]
    eqn:Em;
    cbn [files calls console wfiles wcalls wconsole fst snd map app];
    [exact Hc | ].
  assert (H1 : closedTree fs1) by exact (closed_mkdirRecursive _ _ _ Hc Em).
  unfold copyNode.
  destruct (readNode fs1 (pathKey a)) as [e | d];
    cbn [files calls console wfiles wcalls wconsole fst snd map app recordCall];
    [exact H1 | ].
  destruct (writeNode false fs1 (pathKey b) d) as [e | fs2] eqn:Ew;
    cbn [files calls console wfiles wcalls wconsole fst snd map app recordCall];
    [exact H1 | ].
  exact (closed_writeNode _ _ _ _ _ H1 Ew).
Qed.

End Closed.

(** X16. The tools keep the tree a tree: when every entry lies in a
    directory before a call, every entry does after it, whatever the tool,
    its arguments and its outcome; no call leaves an entry without the
    directory it is in, or an entry below a file. *)
Theorem tools_keep_tree_closed {P : PathModule} (allowedBaseAbs : jsstring)
    (pathKey : jsstring -> list jsstring) (w : world) (ww : wideWorld) :
  closedTree (files w) -> closedTree (wfiles ww) ->
  (forall a, closedTree (files (fs_read allowedBaseAbs pathKey a w).2))
  /\ (forall a, closedTree (files (read_file allowedBaseAbs pathKey a w).2))
  /\ (forall a, closedTree (files (fs_write allowedBaseAbs pathKey a w).2))
  /\ (forall a, closedTree (files (write_file allowedBaseAbs pathKey a w).2))
  /\ (forall a, closedTree (files (fs_append allowedBaseAbs pathKey a w).2))
  /\ (forall a, closedTree (files (fs_mkdir allowedBaseAbs pathKey a w).2))
  /\ (forall a, closedTree (files (fs_delete allowedBaseAbs pathKey a w).2))
  /\ (forall a, closedTree (wfiles (fs_list allowedBaseAbs pathKey a ww).2))
  /\ (forall a, closedTree (wfiles (fs_copy allowedBaseAbs pathKey a ww).2)).
Proof.
  intros Hc Hcw.
  split; [intros a; rewrite (proj1 (reads_keep allowedBaseAbs pathKey a w));
          exact Hc | ].
  split; [intros a; rewrite (proj2 (reads_keep allowedBaseAbs pathKey a w));
          exact Hc | ].
  split; [intros a;
          exact (proj1 (writes_keep_closed allowedBaseAbs pathKey a w Hc)) | ].
  split; [intros a;
          exact (proj1 (proj2 (writes_keep_closed allowedBaseAbs pathKey a w
                                 Hc))) | ].
  split; [intros a;
          exact (proj2 (proj2 (writes_keep_closed allowedBaseAbs pathKey a w
                                 Hc))) | ].
  split; [intros a; exact (mkdir_keeps_closed allowedBaseAbs pathKey a w Hc) | ].
  split; [intros a; exact (delete_keeps_closed allowedBaseAbs pathKey a w Hc) | ].
  split; [intros a; rewrite list_keeps_tree; exact Hcw | ].
  intros a. exact (copy_keeps_closed allowedBaseAbs pathKey a ww Hcw).
Qed.

(** * The properties on the sample process *)

Lemma outside_passwd :
  ~ onPosix.pathKey sample.cwd
      (onPosix.allowedBaseAbs sample.cwd sample.ALLOWED_BASE)
      `prefix_of` [str "etc"; str "passwd"].
Proof. intros [rest H]. vm_compute in H. discriminate. Qed.

Lemma tools_keep_entries_outside_root_witness :
  let passwd := [str "etc"; str "passwd"] in
  files (onPosix.fs_write sample.cwd sample.ALLOWED_BASE
           {| write_path := Some (str "../etc/passwd");
              content := Some (str "x") |} sampleMore.withOutside).2
    !! passwd = Some (File (str "secret"))
  /\ files (onPosix.fs_delete sample.cwd sample.ALLOWED_BASE
              {| path := Some (str "/etc") |} sampleMore.withOutside).2
       !! passwd = Some (File (str "secret")).
Proof.
  cbv zeta.
  destruct (tools_keep_entries_outside_root sample.cwd sample.ALLOWED_BASE
              sampleMore.withOutside [str "etc"; str "passwd"]
              (File (str "secret")) eq_refl
              ltac:(vm_compute; reflexivity) outside_passwd)
    as (_ & _ & Hw & _ & _ & _ & Hd).
  split; [apply Hw | apply Hd].
Defined.

Lemma write_then_read_with_limit_witness :
  let written :=
    onPosix.fs_write sample.cwd sample.ALLOWED_BASE
      {| write_path := Some (str "notes/n.txt");
         content := Some (str "hello") |} sample.emptyBase in
  written.1 = Ok (TextContent (str "Written 5 chars to /base/notes/n.txt"))
  /\ (onPosix.fs_read sample.cwd sample.ALLOWED_BASE
        {| read_path := Some (str "notes/n.txt"); maxBytes := Some 3%Z |}
        written.2).1
     = Ok (TextContent (str "hel")).
Proof.
  cbv zeta. split; [vm_compute; reflexivity | ].
  destruct (write_then_read_with_limit sample.cwd sample.ALLOWED_BASE
              (Some (str "notes/n.txt")) (str "hello") 3%Z
              (TextContent (str "Written 5 chars to /base/notes/n.txt"))
              sample.emptyBase
              (onPosix.fs_write sample.cwd sample.ALLOWED_BASE
                 {| write_path := Some (str "notes/n.txt");
                    content := Some (str "hello") |} sample.emptyBase).2
              ltac:(lia) ltac:(vm_compute; reflexivity))
    as [_ Hr].
  destruct Hr as [Hr _]; [vm_compute; repeat constructor | exact Hr].
Defined.

Lemma write_replaces_append_extends_witness :
  let write c :=
    onPosix.fs_write sample.cwd sample.ALLOWED_BASE
      {| write_path := Some (str "notes/n.txt"); content := Some c |} in
  let append c :=
    onPosix.fs_append sample.cwd sample.ALLOWED_BASE
      {| write_path := Some (str "notes/n.txt"); content := Some c |} in
  let read w :=
    (onPosix.fs_read sample.cwd sample.ALLOWED_BASE
       {| read_path := Some (str "notes/n.txt"); maxBytes := None |} w).1 in
  read (write (str "two") (write (str "one") sample.emptyBase).2).2
  = Ok (TextContent (str "two"))
  /\ read (append (str "more") (write (str "one") sample.emptyBase).2).2
     = Ok (TextContent (str "onemore")).
Proof.
  cbv zeta.
  destruct (write_replaces_append_extends sample.cwd sample.ALLOWED_BASE
              (Some (str "notes/n.txt")) (str "one") (str "two") (str "more")
              sample.emptyBase) as (Hww & Hwa & _).
  split.
  - rewrite (Hww (TextContent (str "Written 3 chars to /base/notes/n.txt"))
               (onPosix.fs_write sample.cwd sample.ALLOWED_BASE
                  {| write_path := Some (str "notes/n.txt");
                     content := Some (str "one") |} sample.emptyBase).2
               (TextContent (str "Written 3 chars to /base/notes/n.txt"))
               (onPosix.fs_write sample.cwd sample.ALLOWED_BASE
                  {| write_path := Some (str "notes/n.txt");
                     content := Some (str "two") |}
                  (onPosix.fs_write sample.cwd sample.ALLOWED_BASE
                     {| write_path := Some (str "notes/n.txt");
                        content := Some (str "one") |} sample.emptyBase).2).2
               ltac:(vm_compute; reflexivity)
               ltac:(vm_compute; reflexivity)).
    rewrite <- firstBytes_take. vm_compute. reflexivity.
  - rewrite (Hwa (TextContent (str "Written 3 chars to /base/notes/n.txt"))
               (onPosix.fs_write sample.cwd sample.ALLOWED_BASE
                  {| write_path := Some (str "notes/n.txt");
                     content := Some (str "one") |} sample.emptyBase).2
               (TextContent (str "Appended 4 chars to /base/notes/n.txt"))
               (onPosix.fs_append sample.cwd sample.ALLOWED_BASE
                  {| write_path := Some (str "notes/n.txt");
                     content := Some (str "more") |}
                  (onPosix.fs_write sample.cwd sample.ALLOWED_BASE
                     {| write_path := Some (str "notes/n.txt");
                        content := Some (str "one") |} sample.emptyBase).2).2
               ltac:(vm_compute; reflexivity)
               ltac:(vm_compute; reflexivity)).
    rewrite <- firstBytes_take. vm_compute. reflexivity.
Defined.

Lemma mkdir_creates_the_way_witness :
  let made :=
    onPosix.fs_mkdir sample.cwd sample.ALLOWED_BASE
      {| path := Some (str "a/b") |} sample.emptyBase in
  made.1 = Ok (TextContent (str "Directory created: /base/a/b"))
  /\ nodeAt (files made.2) [str "base"; str "a"] = Some Dir
  /\ nodeAt (files made.2) [str "base"; str "a"; str "b"] = Some Dir
  /\ files made.2 !! [str "base"] = Some Dir
  /\ (onPosix.fs_mkdir sample.cwd sample.ALLOWED_BASE
        {| path := Some (str "a/b") |} made.2).1
     = Ok (TextContent (str "Directory created: /base/a/b")).
Proof.
  cbv zeta. split; [vm_compute; reflexivity | ].
  destruct (@mkdir_creates_the_way (posixPath sample.cwd)
              (onPosix.allowedBaseAbs sample.cwd sample.ALLOWED_BASE)
              (onPosix.pathKey sample.cwd)
              (Some (str "a/b")) (str "/base/a/b")
              (TextContent (str "Directory created: /base/a/b"))
              sample.emptyBase
              (onPosix.fs_mkdir sample.cwd sample.ALLOWED_BASE
                 {| path := Some (str "a/b") |} sample.emptyBase).2
              ltac:(vm_compute; reflexivity)
              ltac:(vm_compute; reflexivity))
    as (_ & Hway & Hkeep & _ & _ & w2 & Hagain & _).
  split; [apply Hway; exists [str "b"]; vm_compute; reflexivity | ].
  split; [apply Hway; exists []; vm_compute; reflexivity | ].
  split; [apply Hkeep; vm_compute; reflexivity | ].
  exact (f_equal fst Hagain).
Defined.

Lemma delete_removes_target_only_witness :
  exists w1,
    onPosix.fs_delete sample.cwd sample.ALLOWED_BASE
      {| path := Some (str "f") |} sample.baseWithFile
    = (Ok (TextContent (str "Deleted: /base/f")), w1)
    /\ files w1 !! [str "base"; str "f"] = None
    /\ files w1 !! [str "base"] = Some Dir
    /\ (onPosix.fs_delete sample.cwd sample.ALLOWED_BASE
          {| path := Some (str "f") |} w1).1
       = Throw (FsError ENOENT (str "/base/f")).
Proof.
  destruct (delete_removes_target_only sample.cwd sample.ALLOWED_BASE
              (Some (str "f")) (str "/base/f") IsFile sample.baseWithFile
              eq_refl ltac:(vm_compute; reflexivity)
              ltac:(vm_compute; discriminate)
              ltac:(vm_compute; reflexivity))
    as (w1 & Hrun & Hgone & _ & Hroot & _ & _ & w2 & Hagain & _).
  exists w1. split; [exact Hrun | ].
  split; [exact Hgone | ].
  split; [etransitivity; [exact Hroot | vm_compute; reflexivity] | ].
  rewrite Hagain. reflexivity.
Defined.

Lemma safePath_output_is_normal_witness :
  posix.normalize (str "/base/b") = str "/base/b"
  /\ posix.resolve sample.cwd [str "/base/b"] = str "/base/b"
  /\ onPosix.safePath sample.cwd sample.ALLOWED_BASE (Some (str "/base/b"))
     = Ok (str "/base/b").
Proof.
  destruct (safePath_output_is_normal sample.cwd sample.ALLOWED_BASE
              (Some (str "a/../b")) (str "/base/b")
              eq_refl ltac:(vm_compute; reflexivity))
    as (_ & Hn & Hr & _ & _ & Hagain).
  split; [exact Hn | ]. split; [exact Hr | ].
  apply Hagain. vm_compute. reflexivity.
Defined.


Lemma close_leaves_other_sessions_witness :
  let closed :=
    (mcpRoute methodIsInitialize (str "C") (deleteRequest (Some (str "A")))
       sampleMore.twoSessions).2 in
  sessions closed !! str "B" = Some {| transport := 1; mcp := 1 |}
  /\ transports closed !! 1%nat = Some Open
  /\ mcpRoute methodIsInitialize (str "D")
       (postRequest (Some (str "B")) (Some callBody)) closed
     = (HandledBy 1, closed).
Proof.
  cbv zeta.
  destruct (close_leaves_other_sessions methodIsInitialize
              [Mcp (str "A") (postRequest None (Some initializeBody));
               Mcp (str "B") (postRequest None (Some initializeBody))]
              (str "C") (str "A") (str "B") {| transport := 1; mcp := 1 |}
              ltac:(vm_compute; discriminate)
              ltac:(vm_compute; discriminate)
              ltac:(vm_compute; reflexivity))
    as (H1 & H2 & H3 & _).
  split; [exact H1 | ]. split; [exact H2 | ].
  exact (H3 (str "D") (Some callBody)).
Defined.

Lemma list_shows_the_children_witness :
  let out :=
    posixTools.fs_list sample.cwd sample.ALLOWED_BASE
      {| path := Some (str "") |} (sampleMore.wide sample.baseWithFile) in
  wfiles out.2 = wfiles (sampleMore.wide sample.baseWithFile)
  /\ exists entries,
       out.1 = Ok (TextContent (joinWith [10] (map direntLine entries)))
       /\ (str "f", IsFile) ∈ entries
       /\ NoDup (entries.*1).
Proof.
  cbv zeta.
  destruct (@list_shows_the_children (posixPath sample.cwd)
              (onPosix.allowedBaseAbs sample.cwd sample.ALLOWED_BASE)
              (onPosix.pathKey sample.cwd)
              (Some (str "")) (str "/base") IsDirectory
              (sampleMore.wide sample.baseWithFile)
              ltac:(vm_compute; reflexivity)
              ltac:(vm_compute; reflexivity))
    as [Hkeep (entries & Hout & Hspec & Hnd)].
  split; [exact Hkeep | ].
  exists entries. split; [exact Hout | ]. split; [ | exact Hnd].
  apply Hspec. exists (File (str "x")). split; vm_compute; reflexivity.
Defined.


Lemma list_and_copy_stay_inside_witness :
  wfiles (posixTools.fs_copy sample.cwd sample.ALLOWED_BASE
            {| srcPath := Some (str "f");
               destPath := Some (str "/etc/passwd") |}
            (sampleMore.wide sampleMore.withOutside)).2
    !! [str "etc"; str "passwd"] = Some (File (str "secret"))
  /\ wfiles (posixTools.fs_list sample.cwd sample.ALLOWED_BASE
               {| path := Some (str "/etc") |}
               (sampleMore.wide sampleMore.withOutside)).2
     = wfiles (sampleMore.wide sampleMore.withOutside).
Proof.
  destruct (list_and_copy_stay_inside sample.cwd sample.ALLOWED_BASE
              (sampleMore.wide sampleMore.withOutside)
              [str "etc"; str "passwd"] (File (str "secret")) eq_refl
              ltac:(vm_compute; reflexivity) outside_passwd)
    as [Hlist Hcopy].
  split; [apply Hcopy | apply Hlist].
Defined.

Lemma well_formed_text_round_trip_witness :
  let written :=
    onPosix.fs_write sample.cwd sample.ALLOWED_BASE
      {| write_path := Some (str "notes/n.txt");
         content := Some sampleMore.accented |} sample.emptyBase in
  let read w :=
    (onPosix.fs_read sample.cwd sample.ALLOWED_BASE
       {| read_path := Some (str "notes/n.txt"); maxBytes := None |} w).1 in
  utf8Encode sampleMore.accented = [104; 195; 169; 240; 159; 152; 128]
  /\ written.1
     = Ok (TextContent (str "Written 4 chars to /base/notes/n.txt"))
  /\ read written.2 = Ok (TextContent sampleMore.accented).
Proof.
  cbv zeta. split; [vm_compute; reflexivity | ].
  split; [vm_compute; reflexivity | ].
  exact (proj1 (well_formed_text_round_trip sample.cwd sample.ALLOWED_BASE
                  (Some (str "notes/n.txt")) sampleMore.accented (str " ok")
                  (TextContent (str "Written 4 chars to /base/notes/n.txt"))
                  sample.emptyBase _
                  ltac:(vm_compute; reflexivity)
                  ltac:(vm_compute; reflexivity)
                  ltac:(vm_compute; discriminate)
                  ltac:(vm_compute; reflexivity))).
Defined.

Lemma sample_tree_closed : closedTree (files sample.baseWithFile).
Proof.
  intros k n H. unfold sample.baseWithFile, sample.quiet in H.
  cbn [files] in H.
  apply lookup_insert_Some in H as [[<- _] | [_ H]];
    [vm_compute; reflexivity | ].
  apply lookup_singleton_Some in H as [<- _]. vm_compute. reflexivity.
Qed.

Lemma tools_keep_tree_closed_witness :
  closedTree
    (files (onPosix.fs_write sample.cwd sample.ALLOWED_BASE
              {| write_path := Some (str "notes/n.txt");
                 content := Some (str "x") |} sample.baseWithFile).2)
  /\ closedTree
       (files (onPosix.fs_delete sample.cwd sample.ALLOWED_BASE
                 {| path := Some (str "f") |} sample.baseWithFile).2)
  /\ closedTree
       (wfiles (posixTools.fs_copy sample.cwd sample.ALLOWED_BASE
                  {| srcPath := Some (str "f");
                     destPath := Some (str "deep/er/g") |}
                  (sampleMore.wide sample.baseWithFile)).2).
Proof.
  destruct (@tools_keep_tree_closed (posixPath sample.cwd)
              (onPosix.allowedBaseAbs sample.cwd sample.ALLOWED_BASE)
              (onPosix.pathKey sample.cwd) sample.baseWithFile
              (sampleMore.wide sample.baseWithFile)
              sample_tree_closed sample_tree_closed)
    as (_ & _ & Hw & _ & _ & _ & Hd & _ & Hc).
  split; [apply Hw | ]. split; [apply Hd | apply Hc].
Defined.
